(** * cf-preview-cleaner: the Cloudflare client, the batch deletion loop and
      the delete command, embedded from the TypeScript sources.

    - [src/lib/cloudflare-api.ts]: [sanitize], [request], [listDeployments],
      [deleteDeployment], [formatError], [tryDelete], [deleteDeployments];
    - the later revision of the same class (it adds versions):
      [tryDeleteVersion], [deleteVersions], in module [Revised];
    - [src/utils/prompts.ts]: [selectDeploymentsToDelete];
    - [src/commands/delete.ts]: [deleteCommand];
    - [src/lib/wrangler-wrapper.ts]: [deleteVersion], [deleteVersions], in
      module [Wrangler].

    JavaScript strings are sequences of UTF-16 code units; they are modelled
    as lists of code units, so that the regular expression of [sanitize] sees
    exactly the characters the engine sees.  The numbers the program computes
    with are doubles whose value is an integer, an infinity or NaN; a pause
    is recorded as the timer takes it. *)

From Stdlib Require Import String Ascii.
From Stdlib Require Import List ZArith NArith Lia Bool Permutation.
From Equations Require Import Equations.
From Equations.Prop Require Import Logic.
Import ListNotations.


(* ===================================================================== *)
(** ** Strings *)
(* ===================================================================== *)

Module JS.

Definition codeunit := N.
Definition jsstring := list codeunit.

(** A string literal of the source, read as code units (ASCII literals only). *)
Definition lit (s : string) : jsstring :=
  List.map N_of_ascii (list_ascii_of_string s).

Definition jsstring_eq_dec : forall a b : jsstring, {a = b} + {a <> b} :=
  list_eq_dec N.eq_dec.

(** [\s] of an ECMAScript regular expression: WhiteSpace and LineTerminator. *)
Definition isSpace (c : codeunit) : bool :=
  ((9 <=? c) && (c <=? 13)          (* TAB LF VT FF CR *)
   || (c =? 32)                      (* SPACE *)
   || (c =? 160)                     (* NO-BREAK SPACE *)
   || (c =? 5760)                    (* U+1680 *)
   || ((8192 <=? c) && (c <=? 8202)) (* U+2000 .. U+200A *)
   || (c =? 8232) || (c =? 8233)     (* U+2028 U+2029 *)
   || (c =? 8239)                    (* U+202F *)
   || (c =? 8287)                    (* U+205F *)
   || (c =? 12288)                   (* U+3000 *)
   || (c =? 65279))%N.               (* U+FEFF *)

(** [\S]. *)
Definition notSpace (c : codeunit) : bool := negb (isSpace c).

(** Canonicalize of a character under the [i] flag (no [u] flag), on the
    ASCII letters: a lower-case letter is compared through its upper case.  A
    code unit above 127 never canonicalizes to an ASCII character, so against
    an ASCII pattern letter this is the whole comparison. *)
Definition upcase (c : codeunit) : codeunit :=
  if ((97 <=? c) && (c <=? 122))%N then (c - 32)%N else c.

Definition ciEq (p c : codeunit) : bool := (upcase p =? upcase c)%N.

Definition isDigit (c : codeunit) : bool := ((48 <=? c) && (c <=? 57))%N.

Fixpoint dropWhile (f : codeunit -> bool) (s : jsstring) : jsstring :=
  match s with
  | [] => []
  | c :: s' => if f c then dropWhile f s' else s
  end.

Fixpoint takeWhile (f : codeunit -> bool) (s : jsstring) : jsstring :=
  match s with
  | [] => []
  | c :: s' => if f c then c :: takeWhile f s' else []
  end.

(** A JavaScript number as far as this program produces one: a double
    whose value is an integer, an infinity, or NaN. *)
Inductive number :=
| NaN
| Int (z : Z)
| Infinity (negative : bool).

(** The double nearest to an integer, ties to the even significand: exact up
    to 2^53 in absolute value, 53 significant bits beyond, an infinity from
    2^1024 on. *)
Definition toDouble (z : Z) : number :=
  let a := Z.abs z in
  if (a <? 9007199254740992)%Z then Int z
  else
    let p := (2 ^ (Z.log2 a - 52))%Z in
    let q := (a / p)%Z in
    let r := (a mod p)%Z in
    let q' := if ((p <? 2 * r) || ((2 * r =? p) && Z.odd q))%Z
              then (q + 1)%Z else q in
    let v := (q' * p)%Z in
    if (2 ^ 1024 <=? v)%Z then Infinity (z <? 0)%Z
    else Int (if (z <? 0)%Z then - v else v)%Z.

(** [x * y] on these numbers: the exact product, rounded. *)
Definition mul (x y : number) : number :=
  match x, y with
  | NaN, _ | _, NaN => NaN
  | Int a, Int b => toDouble (a * b)
  | Infinity s, Int b | Int b, Infinity s =>
      if (b =? 0)%Z then NaN else Infinity (xorb s (b <? 0)%Z)
  | Infinity s, Infinity t => Infinity (xorb s t)
  end.

(** [x || d] on an optional number: [undefined], [NaN] and [0] are falsy. *)
Definition orDefault (x : option number) (d : number) : number :=
  match x with
  | Some (Int z) => if (z =? 0)%Z then d else Int z
  | Some NaN => d
  | Some (Infinity s) => Infinity s
  | None => d
  end.

Fixpoint digitsValue (acc : Z) (ds : jsstring) : Z :=
  match ds with
  | [] => acc
  | d :: ds' => digitsValue (10 * acc + (Z.of_N d - 48))%Z ds'
  end.

(** [parseInt(s, 10)]: leading white space is skipped, then an optional sign,
    then the longest run of decimal digits; no digit gives NaN.  The result
    is the double nearest to the integer read (the standard lets an engine
    be less precise after the 20th digit; V8 is not). *)
Definition parseInt (s : jsstring) : number :=
  let s1 := dropWhile isSpace s in
  let '(neg, s2) :=
    match s1 with
    | 45%N :: r => (true, r)
    | 43%N :: r => (false, r)
    | _ => (false, s1)
    end in
  match takeWhile isDigit s2 with
  | [] => NaN
  | ds => toDouble (if neg then - digitsValue 0 ds else digitsValue 0 ds)%Z
  end.

(* --------------------------------------------------------------------- *)
(** *** A backtracking matcher for the regular expression of [sanitize] *)

(** A matcher takes the input and a continuation for the rest of the
    pattern, and returns the input left after the whole match. *)
Definition Matcher := jsstring -> (jsstring -> option jsstring) -> option jsstring.

(** One character of a class. *)
Definition chr (p : codeunit -> bool) : Matcher :=
  fun s k =>
    match s with
    | c :: s' => if p c then k s' else None
    | [] => None
    end.

(** [p*], greedy: the longest run first, giving characters back while the
    continuation fails. *)
Fixpoint star (p : codeunit -> bool) (s : jsstring)
         (k : jsstring -> option jsstring) : option jsstring :=
  match s with
  | c :: s' =>
      if p c then
        match star p s' k with
        | Some r => Some r
        | None => k s
        end
      else k s
  | [] => k []
  end.

(** [p+]. *)
Definition plus (p : codeunit -> bool) : Matcher :=
  fun s k => chr p s (fun s' => star p s' k).

Definition seq (m1 m2 : Matcher) : Matcher :=
  fun s k => m1 s (fun s' => m2 s' k).

(** A literal under the [i] flag. *)
Fixpoint word (w : jsstring) : Matcher :=
  match w with
  | [] => fun s k => k s
  | a :: w' => seq (chr (ciEq a)) (word w')
  end.

(** [/Bearer\s+\S+/i]. *)
Definition bearerPattern : Matcher :=
  seq (word (lit "Bearer")) (seq (plus isSpace) (plus notSpace)).

(** The pattern anchored at the start of [s]: the input after the match. *)
Definition matchAt (s : jsstring) : option jsstring := bearerPattern s Some.

Lemma star_shorter p :
  forall s k r,
    (forall s' r', k s' = Some r' -> length r' <= length s') ->
    star p s k = Some r -> length r <= length s.
Proof.
  induction s as [|c s IH]; intros k r Hk H; simpl in H.
  - apply Hk in H. exact H.
  - destruct (p c).
    + destruct (star p s k) eqn:E.
      * inversion H; subst. apply IH in E; [simpl; lia | exact Hk].
      * apply Hk in H. exact H.
    + apply Hk in H. exact H.
Qed.

Lemma chr_shorter p s k r :
  (forall s' r', k s' = Some r' -> length r' <= length s') ->
  chr p s k = Some r -> length r < length s.
Proof.
  intros Hk H. destruct s as [|c s]; simpl in H; [discriminate|].
  destruct (p c); [|discriminate]. apply Hk in H. simpl. lia.
Qed.

Lemma word_shorter w :
  forall s k r,
    (forall s' r', k s' = Some r' -> length r' < length s') ->
    word w s k = Some r -> length r < length s.
Proof.
  induction w as [|a w IH]; intros s k r Hk H; simpl in H.
  - apply Hk in H. exact H.
  - unfold seq in H. apply chr_shorter in H; [lia|].
    intros s' r' H'. apply Nat.lt_le_incl. eapply IH; eauto.
Qed.

Lemma matchAt_shorter s r : matchAt s = Some r -> length r < length s.
Proof.
  unfold matchAt, bearerPattern. intros H.
  eapply word_shorter; [|exact H].
  intros s1 r1 H1. unfold seq, plus in H1.
  eapply chr_shorter; [|exact H1].
  intros s2 r2 H2. eapply star_shorter; [|exact H2].
  intros s3 r3 H3. apply Nat.lt_le_incl. eapply chr_shorter; [|exact H3].
  intros s4 r4 H4. eapply star_shorter; [|exact H4].
  intros s5 r5 H5. inversion H5; subst. lia.
Qed.

(* --------------------------------------------------------------------- *)
(** *** [String.prototype.replace] with the global flag *)

(** The replacement text, which holds no [$] pattern. *)
Definition redacted : jsstring := Eval cbv in lit "Bearer [REDACTED]".

(** [s.replace(/Bearer\s+\S+/gi, 'Bearer [REDACTED]')]: the matches are
    taken from left to right, each search resuming where the previous match
    ended; the text between the matches is kept. *)
Equations? replaceBearer (s : jsstring) : jsstring by wf (length s) lt :=
  replaceBearer [] := [];
  replaceBearer (c :: s') with inspect (matchAt (c :: s')) => {
    | exist _ (Some r) _ := redacted ++ replaceBearer r;
    | exist _ None _ := c :: replaceBearer s' }.
Proof.
  apply matchAt_shorter in e. exact e.
Qed.

(** Back to a Rocq string, for code units below 256 (used to display
    examples). *)
Definition show (s : jsstring) : string :=
  string_of_list_ascii (List.map ascii_of_N s).

(* --------------------------------------------------------------------- *)
(** *** The matcher, without continuations *)

(** [\s+\S+] at the start of the input. *)
Definition tailMatch (s : jsstring) : option jsstring :=
  seq (plus isSpace) (plus notSpace) s Some.

(** The pattern from its letter [w] on. *)
Definition suffixMatch (w : jsstring) (s : jsstring) : option jsstring :=
  word w s tailMatch.

Lemma matchAt_suffixMatch s : matchAt s = suffixMatch (lit "Bearer") s.
Proof. reflexivity. Qed.

Lemma star_notSpace s : star notSpace s Some = Some (dropWhile notSpace s).
Proof.
  induction s as [|c s IH]; simpl; [reflexivity|].
  destruct (notSpace c); [rewrite IH|]; reflexivity.
Qed.

Lemma plus_notSpace s :
  plus notSpace s Some =
  match s with
  | c :: s' => if notSpace c then Some (dropWhile notSpace s') else None
  | [] => None
  end.
Proof.
  destruct s as [|c s]; simpl; [reflexivity|].
  destruct (notSpace c); [apply star_notSpace|reflexivity].
Qed.

Lemma dropWhile_isSpace_head s c r :
  dropWhile isSpace s = c :: r -> notSpace c = true.
Proof.
  induction s as [|d s IH]; simpl; [discriminate|].
  destruct (isSpace d) eqn:E; [exact IH|].
  intros H. inversion H; subst. unfold notSpace. rewrite E. reflexivity.
Qed.

Lemma dropWhile_notSpace_head s c r :
  dropWhile notSpace s = c :: r -> isSpace c = true.
Proof.
  induction s as [|d s IH]; simpl; [discriminate|].
  unfold notSpace at 1. destruct (isSpace d) eqn:E; simpl; [|exact IH].
  intros H. inversion H; subst. exact E.
Qed.

Lemma star_isSpace s :
  star isSpace s (fun s2 => plus notSpace s2 Some) =
  match dropWhile isSpace s with
  | _ :: r => Some (dropWhile notSpace r)
  | [] => None
  end.
Proof.
  induction s as [|c s IH]; [reflexivity|].
  cbn [star dropWhile]. destruct (isSpace c) eqn:E.
  - rewrite IH. destruct (dropWhile isSpace s); [|reflexivity].
    rewrite plus_notSpace. unfold notSpace. rewrite E. reflexivity.
  - rewrite plus_notSpace. unfold notSpace at 1. rewrite E. reflexivity.
Qed.

Lemma tailMatch_eq s :
  tailMatch s =
  match s with
  | c :: s' =>
      if isSpace c then
        match dropWhile isSpace s' with
        | _ :: r => Some (dropWhile notSpace r)
        | [] => None
        end
      else None
  | [] => None
  end.
Proof.
  destruct s as [|c s]; [reflexivity|].
  unfold tailMatch, seq, plus at 1. cbn [chr].
  destruct (isSpace c); [apply star_isSpace|reflexivity].
Qed.

Lemma suffixMatch_cons a w c s :
  suffixMatch (a :: w) (c :: s) = if ciEq a c then suffixMatch w s else None.
Proof. reflexivity. Qed.

Lemma suffixMatch_nil_l s : suffixMatch [] s = tailMatch s.
Proof. reflexivity. Qed.

Lemma suffixMatch_nil_r w : suffixMatch w [] = None.
Proof. destruct w; reflexivity. Qed.

Lemma matchAt_cons c s :
  matchAt (c :: s) = if ciEq 66%N c then suffixMatch (lit "earer") s else None.
Proof. reflexivity. Qed.

(** What is left after a match is empty or starts with white space: the
    token [\S+] is as long as it can be. *)
Definition atBoundary (r : jsstring) : bool :=
  match r with
  | [] => true
  | c :: _ => isSpace c
  end.

Lemma dropWhile_notSpace_boundary s : atBoundary (dropWhile notSpace s) = true.
Proof.
  destruct (dropWhile notSpace s) as [|c r] eqn:E; [reflexivity|].
  simpl. eapply dropWhile_notSpace_head; eauto.
Qed.

Lemma dropWhile_notSpace_fix r :
  atBoundary r = true -> dropWhile notSpace r = r.
Proof.
  destruct r as [|c r]; simpl; [reflexivity|].
  intros E. unfold notSpace. rewrite E. reflexivity.
Qed.

Lemma tailMatch_boundary s r : tailMatch s = Some r -> atBoundary r = true.
Proof.
  rewrite tailMatch_eq. destruct s as [|c s]; [discriminate|].
  destruct (isSpace c); [|discriminate].
  destruct (dropWhile isSpace s); [discriminate|].
  intros H. inversion H; subst. apply dropWhile_notSpace_boundary.
Qed.

Lemma suffixMatch_boundary w :
  forall s r, suffixMatch w s = Some r -> atBoundary r = true.
Proof.
  induction w as [|a w IH]; intros s r H.
  - eapply tailMatch_boundary; eauto.
  - destruct s as [|c s]; [discriminate|].
    rewrite suffixMatch_cons in H. destruct (ciEq a c); [|discriminate].
    eapply IH; eauto.
Qed.

Lemma matchAt_boundary s r : matchAt s = Some r -> atBoundary r = true.
Proof. apply suffixMatch_boundary. Qed.

Lemma upcase_66 : upcase 66%N = 66%N.
Proof. reflexivity. Qed.

Lemma isSpace_not_B c : isSpace c = true -> ciEq 66%N c = false.
Proof.
  unfold ciEq. rewrite upcase_66. unfold upcase. intros H.
  destruct ((97 <=? c) && (c <=? 122))%N eqn:E.
  - apply N.eqb_neq. intros Hc.
    assert (c = 98%N) by (apply andb_prop in E; destruct E as [E1 E2];
      apply N.leb_le in E1; apply N.leb_le in E2; lia).
    subst. discriminate.
  - apply N.eqb_neq. intros Hc. subst. discriminate.
Qed.

(* --------------------------------------------------------------------- *)
(** *** Equations of [replaceBearer] *)

Lemma replaceBearer_nil : replaceBearer [] = [].
Proof. reflexivity. Qed.

Lemma replaceBearer_match c s r :
  matchAt (c :: s) = Some r ->
  replaceBearer (c :: s) = redacted ++ replaceBearer r.
Proof.
  intros H. rewrite replaceBearer_equation_2.
  generalize (inspect (matchAt (c :: s))). intros [o e].
  destruct o as [r'|]; simpl.
  - rewrite H in e. inversion e; subst. reflexivity.
  - congruence.
Qed.

Lemma replaceBearer_nomatch c s :
  matchAt (c :: s) = None ->
  replaceBearer (c :: s) = c :: replaceBearer s.
Proof.
  intros H. rewrite replaceBearer_equation_2.
  generalize (inspect (matchAt (c :: s))). intros [o e].
  destruct o as [r'|]; simpl.
  - congruence.
  - reflexivity.
Qed.

Lemma matchAt_redacted t :
  atBoundary t = true -> matchAt (redacted ++ t) = Some t.
Proof.
  intros H. unfold redacted.
  cbn [app]. rewrite matchAt_suffixMatch.
  change (lit "Bearer") with [66; 101; 97; 114; 101; 114]%N.
  repeat (rewrite suffixMatch_cons; cbn [ciEq upcase N.leb N.eqb N.compare
    Pos.compare Pos.compare_cont andb N.sub Pos.sub Pos.eqb]).
  rewrite suffixMatch_nil_l, tailMatch_eq.
  cbn. apply f_equal. apply dropWhile_notSpace_fix. exact H.
Qed.

(* --------------------------------------------------------------------- *)
(** *** Replacing creates no match *)

Lemma replaceBearer_head_B c s r :
  matchAt (c :: s) = Some r ->
  exists t, replaceBearer (c :: s) = 66%N :: t.
Proof.
  intros H. rewrite (replaceBearer_match _ _ _ H). unfold redacted.
  eexists. reflexivity.
Qed.

Lemma dropWhile_isSpace_replaceBearer s :
  dropWhile isSpace (replaceBearer s) <> [] -> dropWhile isSpace s <> [].
Proof.
  induction s as [|c s IH]; [rewrite replaceBearer_nil; auto|].
  destruct (matchAt (c :: s)) as [r|] eqn:E.
  - intros _. rewrite matchAt_cons in E.
    destruct (ciEq 66%N c) eqn:EB; [|discriminate].
    simpl. destruct (isSpace c) eqn:Ec; [|discriminate].
    apply isSpace_not_B in Ec. congruence.
  - rewrite (replaceBearer_nomatch _ _ E). simpl.
    destruct (isSpace c); [exact IH|discriminate].
Qed.

(** No letter of [w] is a [B]: the replacement text cannot continue a match
    begun before it. *)
Definition noB (w : jsstring) : Prop := Forall (fun a => ciEq a 66%N = false) w.

Lemma suffixMatch_replaceBearer :
  forall s w, noB w ->
    suffixMatch w (replaceBearer s) <> None -> suffixMatch w s <> None.
Proof.
  induction s as [|c s IH]; intros w Hw; [rewrite replaceBearer_nil; auto|].
  destruct (matchAt (c :: s)) as [r|] eqn:E.
  - destruct (replaceBearer_head_B _ _ _ E) as [t Ht]. rewrite Ht.
    destruct w as [|a w].
    + rewrite suffixMatch_nil_l, tailMatch_eq. cbn. congruence.
    + rewrite suffixMatch_cons. inversion Hw; subst.
      match goal with H : ciEq a _ = false |- _ => rewrite H end. congruence.
  - rewrite (replaceBearer_nomatch _ _ E).
    destruct w as [|a w].
    + rewrite !suffixMatch_nil_l, !tailMatch_eq.
      destruct (isSpace c); [|congruence].
      pose proof (dropWhile_isSpace_replaceBearer s) as Hd.
      destruct (dropWhile isSpace (replaceBearer s)); [congruence|].
      destruct (dropWhile isSpace s); [|congruence].
      intros _. exfalso. apply Hd; [discriminate|reflexivity].
    + rewrite !suffixMatch_cons. inversion Hw; subst.
      destruct (ciEq a c); [|congruence]. apply IH. assumption.
Qed.

Lemma noB_earer : noB (lit "earer").
Proof. repeat constructor. Qed.

Lemma matchAt_replaceBearer_None c s :
  matchAt (c :: s) = None -> matchAt (c :: replaceBearer s) = None.
Proof.
  rewrite !matchAt_cons. destruct (ciEq 66%N c); [|reflexivity].
  intros H. destruct (suffixMatch (lit "earer") (replaceBearer s)) eqn:E;
    [|reflexivity].
  exfalso. apply (suffixMatch_replaceBearer s (lit "earer") noB_earer);
    congruence.
Qed.

Lemma replaceBearer_boundary r :
  atBoundary r = true -> atBoundary (replaceBearer r) = true.
Proof.
  destruct r as [|c r]; [reflexivity|]. simpl. intros Hc.
  assert (E : matchAt (c :: r) = None).
  { rewrite matchAt_cons, (isSpace_not_B _ Hc). reflexivity. }
  rewrite (replaceBearer_nomatch _ _ E). exact Hc.
Qed.

Lemma replaceBearer_idempotent_aux :
  forall n s, length s < n -> replaceBearer (replaceBearer s) = replaceBearer s.
Proof.
  induction n as [|n IH]; intros s Hn; [lia|].
  destruct s as [|c s]; [reflexivity|].
  destruct (matchAt (c :: s)) as [r|] eqn:E.
  - rewrite (replaceBearer_match _ _ _ E).
    pose proof (matchAt_shorter _ _ E) as Hr.
    pose proof (replaceBearer_boundary _ (matchAt_boundary _ _ E)) as Hb.
    pose proof (matchAt_redacted _ Hb) as Hm.
    unfold redacted in *. cbn [app] in *.
    rewrite (replaceBearer_match _ _ _ Hm). rewrite IH; [reflexivity|].
    simpl in Hn, Hr. lia.
  - rewrite (replaceBearer_nomatch _ _ E).
    rewrite (replaceBearer_nomatch _ _ (matchAt_replaceBearer_None _ _ E)).
    rewrite IH; [reflexivity|]. simpl in Hn. lia.
Qed.

Lemma replaceBearer_idempotent s :
  replaceBearer (replaceBearer s) = replaceBearer s.
Proof. apply (replaceBearer_idempotent_aux (S (length s))). lia. Qed.

End JS.

Import JS.

Example isSpace_samples :
  List.map isSpace [9; 10; 13; 32; 160; 8200; 65279; 14; 65; 91; 8203]%N
  = [true; true; true; true; true; true; true; false; false; false; false].
Proof. reflexivity. Qed.

Example parseInt_samples :
  List.map (fun s => parseInt (lit s))
           ["120"; "  -12abc"; "+7"; "0"; "Wed, 21 Oct 2015 07:28:00 GMT"; "-"]%string
  = [Int 120; Int (-12); Int 7; Int 0; NaN; NaN].
Proof. reflexivity. Qed.

(** Beyond 2^53 the integer read is rounded: ties go to the even
    significand, and 2^1024 and more is an infinity. *)
Example toDouble_samples :
  List.map toDouble
           [9007199254740991; 9007199254740993; 9007199254740995;
            -9007199254740993; 2 ^ 1024 - 2 ^ 970 - 1; 2 ^ 1024 - 2 ^ 970;
            - 2 ^ 1024]%Z
  = [Int 9007199254740991; Int 9007199254740992; Int 9007199254740996;
     Int (-9007199254740992); Int (2 ^ 1024 - 2 ^ 971); Infinity false;
     Infinity true]%Z.
Proof. vm_compute. reflexivity. Qed.

Example parseInt_rounds :
  parseInt (lit "9007199254740993") = Int 9007199254740992.
Proof. vm_compute. reflexivity. Qed.

Lemma toDouble_small z :
  (Z.abs z < 9007199254740992)%Z -> toDouble z = Int z.
Proof.
  intros H. unfold toDouble.
  destruct (Z.ltb_spec (Z.abs z) 9007199254740992); [reflexivity|lia].
Qed.

(** From 2^53 on in absolute value the double is an infinity or again at
    least 2^53 in absolute value, of the same sign. *)
Lemma toDouble_big z :
  (9007199254740992 <= Z.abs z)%Z ->
  toDouble z = Infinity (z <? 0)%Z
  \/ exists v, (9007199254740992 <= v)%Z
               /\ toDouble z = Int (if (z <? 0)%Z then - v else v)%Z.
Proof.
  intros H. unfold toDouble.
  set (a := Z.abs z) in *.
  destruct (Z.ltb_spec a 9007199254740992) as [Hlt|_]; [lia|].
  set (e := Z.log2 a).
  assert (He : (53 <= e)%Z).
  { change 53%Z with (Z.log2 9007199254740992). apply Z.log2_le_mono. exact H. }
  destruct (Z.log2_spec a ltac:(lia)) as [Hlo _]. fold e in Hlo.
  set (p := (2 ^ (e - 52))%Z).
  assert (Hp : (0 < p)%Z) by (apply Z.pow_pos_nonneg; lia).
  assert (Hpe : (2 ^ e = 4503599627370496 * p)%Z).
  { unfold p. replace e with (52 + (e - 52))%Z at 1 by lia.
    rewrite Z.pow_add_r by lia. reflexivity. }
  assert (Hq : (4503599627370496 <= a / p)%Z).
  { apply Z.div_le_lower_bound; [exact Hp|]. lia. }
  set (q' := if ((p <? 2 * (a mod p)) || ((2 * (a mod p) =? p) && Z.odd (a / p)))%Z
             then (a / p + 1)%Z else (a / p)%Z).
  assert (Hq' : (4503599627370496 <= q')%Z).
  { unfold q'. destruct (_ || _)%bool; lia. }
  destruct (2 ^ 1024 <=? q' * p)%Z; [left; reflexivity|].
  right. exists (q' * p)%Z. split; [|reflexivity].
  assert (2 <= p)%Z.
  { unfold p. change 2%Z with (2 ^ 1)%Z at 1.
    apply Z.pow_le_mono_r; lia. }
  nia.
Qed.

Example matchAt_samples :
  List.map (fun s => option_map show (matchAt (lit s)))
           ["Bearer abc def"; "bEaReR    x"; "Bearer "; "Bearerx y"; "a Bearer b"]%string
  = [Some " def"; Some ""; None; None; None]%string.
Proof. reflexivity. Qed.

(* ===================================================================== *)
(** ** The world the client runs in *)
(* ===================================================================== *)

(** [Deployment] of [cloudflare-api.ts]; [versions] is never inspected by
    the code below and is left out. *)
Record Deployment := mkDeployment {
  id : jsstring;
  created_on : jsstring;
  author_email : jsstring;
  source : jsstring;
  strategy : jsstring
}.

Record CloudflareConfig := mkConfig {
  accountId : jsstring;
  apiToken : jsstring
}.

(** An entry of [errors] in the response envelope. *)
Record ApiError := mkApiError {
  code : Z;
  message : jsstring
}.

(** [CloudflareResponse<T>]: the body of a response once parsed.  [errors]
    may be missing at run time (the code reads it through [?.]); [result] is
    kept as its [deployments] field. *)
Record CloudflareResponse := mkEnvelope {
  env_success : bool;
  env_result : list Deployment;
  env_errors : option (list ApiError)
}.

(** What [await response.json()] gives, as far as [request] can tell the
    cases apart: a throw when the body is no JSON text; [null]; a value
    whose [success] is falsy and whose [errors[0].message] is truthy but not
    a string; or a value whose fields are read as those of an envelope (a
    field that is missing reads as [undefined]: [success] as false, [errors]
    and the first message as absent). *)
Inductive Body :=
| NotJson
| JsonNull
| JsonMessageNotString
| Json (data : CloudflareResponse).

(** What [fetch] resolves to, as far as [request] looks at it. *)
Record Response := mkResponse {
  status : Z;
  statusText : jsstring;
  retryAfterHeader : option jsstring;    (* headers.get('Retry-After') *)
  json : Body
}.

Record Request := mkRequest {
  url : jsstring;
  method : jsstring;
  authorization : jsstring
}.

(** A rejection of [fetch] itself (no response at all): an [Error] such as
    the [TypeError] of a failed or refused request, or some other value. *)
Inductive Rejection :=
| RejectError (msg : jsstring)
| RejectOther.

Inductive FetchResult :=
| Rejects (e : Rejection)
| Resolves (r : Response).

(** The values the code throws and catches. *)
Inductive Thrown :=
| RateLimitError (retryAfter : option number)
| CloudflareAPIError (msg : jsstring) (statusCode : option Z)
                     (errors : option (list ApiError))
| OtherError (msg : jsstring)          (* any other instance of Error *)
| NotAnError.                          (* a thrown value that is no Error *)

Definition rateLimitMessage : jsstring :=
  lit "Rate limit exceeded. Please wait before retrying.".

(** [error.message], for an instance of [Error]. *)
Definition messageOf (e : Thrown) : option jsstring :=
  match e with
  | RateLimitError _ => Some rateLimitMessage
  | CloudflareAPIError m _ _ => Some m
  | OtherError m => Some m
  | NotAnError => None
  end.

(** [error.statusCode]. *)
Definition statusCodeOf (e : Thrown) : option Z :=
  match e with
  | RateLimitError _ => Some 429%Z
  | CloudflareAPIError _ c _ => c
  | _ => None
  end.

(** [error instanceof RateLimitError]. *)
Definition isRateLimitError (e : Thrown) : bool :=
  match e with
  | RateLimitError _ => true
  | _ => false
  end.

(** [error instanceof CloudflareAPIError]: [RateLimitError] extends it. *)
Definition isCloudflareAPIError (e : Thrown) : bool :=
  match e with
  | RateLimitError _ | CloudflareAPIError _ _ _ => true
  | _ => false
  end.

(** What can be observed of a run, in order; [EvDelay ms] is a pause of
    [ms] milliseconds, as the timer takes it. *)
Inductive Event :=
| EvFetch (req : Request)
| EvDelay (ms : Z)
| EvProgress (completed total : nat) (ident : jsstring)
| EvLogError (msg : jsstring)
| EvLogInfo (msg : jsstring)
| EvPrintFailed (ident8 : jsstring) (error : jsstring).

(** The remote side answers the [n]-th request of the run as it likes; the
    log collects the events of the run. *)
Record World := mkWorld {
  remote : nat -> Request -> FetchResult;
  calls : nat;
  log : list Event
}.

Definition emit (ev : Event) (w : World) : World :=
  mkWorld (remote w) (calls w) (log w ++ [ev]).

(* --------------------------------------------------------------------- *)
(** *** Computations that may throw *)

Inductive Outcome (A : Type) :=
| Return (a : A)
| Throw (e : Thrown).
Arguments Return {A} a.
Arguments Throw {A} e.

Definition M (A : Type) : Type := World -> Outcome A * World.

Definition ret {A} (a : A) : M A := fun w => (Return a, w).

Definition throw {A} (e : Thrown) : M A := fun w => (Throw e, w).

Definition bind {A B} (m : M A) (k : A -> M B) : M B :=
  fun w =>
    match m w with
    | (Return a, w') => k a w'
    | (Throw e, w') => (Throw e, w')
    end.

(** [try { m } catch (error) { h error }]. *)
Definition tryCatch {A} (m : M A) (h : Thrown -> M A) : M A :=
  fun w =>
    match m w with
    | (Return a, w') => (Return a, w')
    | (Throw e, w') => h e w'
    end.

Notation "x <- m ;; k" := (bind m (fun x => k))
  (at level 61, m at next level, right associativity).
Notation "m ;;; k" := (bind m (fun _ => k))
  (at level 61, right associativity).

(** [await fetch(url, ...)]. *)
Definition fetch (req : Request) : M Response :=
  fun w =>
    let w' := mkWorld (remote w) (S (calls w)) (log w ++ [EvFetch req]) in
    match remote w (calls w) req with
    | Rejects (RejectError m) => (Throw (OtherError m), w')
    | Rejects RejectOther => (Throw NotAnError, w')
    | Resolves r => (Return r, w')
    end.

(** The pause [setTimeout(resolve, ms)] takes, in milliseconds: Node sets a
    delay that is below 1, above 2^31 - 1 or not a number to 1. *)
Definition timeoutOf (ms : number) : Z :=
  match ms with
  | Int z => if ((z <? 1) || (2147483647 <? z))%Z then 1%Z else z
  | _ => 1%Z
  end.

(** [await this.delay(ms)]; the event records the pause taken. *)
Definition delay (ms : number) : M unit :=
  fun w => (Return tt, emit (EvDelay (timeoutOf ms)) w).

(** [onProgress?.(completed, total, id)]: the callback is the caller's; a call
    is recorded in the log. *)
Definition callProgress (onProgress : bool) (completed total : nat)
           (ident : jsstring) : M unit :=
  fun w =>
    (Return tt, if onProgress then emit (EvProgress completed total ident) w
                else w).

(* ===================================================================== *)
(** ** [class CloudflareAPI] *)
(* ===================================================================== *)

Definition baseUrl : jsstring := lit "https://api.cloudflare.com/client/v4".

(** [private requestDelay = 200]. *)
Definition requestDelay : Z := 200.

(** [sanitize(message)]:
    [message.replace(/Bearer\s+\S+/gi, 'Bearer [REDACTED]')]. *)
Definition sanitize (message : jsstring) : jsstring := replaceBearer message.

Definition permissionDeniedMessage : jsstring :=
  lit "Permission denied. Please check your API token has the required permissions (Workers Scripts: Read and Edit).".

Definition notFoundMessage : jsstring :=
  lit "Resource not found. Please check the script name and account ID.".

(** [data.errors?.[0]?.message || 'Unknown API error']: an empty message is
    falsy too. *)
Definition firstErrorMessage (errors : option (list ApiError)) : jsstring :=
  match errors with
  | Some (e :: _) =>
      match message e with
      | [] => lit "Unknown API error"
      | m => m
      end
  | _ => lit "Unknown API error"
  end.

(** The message of the [TypeError] that reading [data.success] throws when
    the body is [null] (the text is that of V8). *)
Definition nullBodyMessage : jsstring :=
  lit "Cannot read properties of null (reading 'success')".

(** The message of the [TypeError] that [sanitize] throws when it is handed
    a message that is not a string (the text is that of V8). *)
Definition notStringMessage : jsstring :=
  lit "message.replace is not a function".

(** [retryAfter ? parseInt(retryAfter, 10) : undefined]: a missing header and
    an empty one are falsy. *)
Definition retryAfterOf (header : option jsstring) : option number :=
  match header with
  | Some (c :: h) => Some (parseInt (c :: h))
  | _ => None
  end.

(** [request<T>(endpoint, options)]: the response envelope, or a throw. *)
Definition request (config : CloudflareConfig) (endpoint : jsstring)
           (httpMethod : jsstring) : M CloudflareResponse :=
  response <- fetch (mkRequest (baseUrl ++ endpoint) httpMethod
                       (lit "Bearer " ++ apiToken config)) ;;
  if (status response =? 429)%Z then
    throw (RateLimitError (retryAfterOf (retryAfterHeader response)))
  else if (status response =? 403)%Z then
    throw (CloudflareAPIError permissionDeniedMessage (Some 403%Z) None)
  else if (status response =? 404)%Z then
    throw (CloudflareAPIError notFoundMessage (Some 404%Z) None)
  else
    match json response with
    | NotJson =>
        throw (CloudflareAPIError
                 (sanitize (lit "Failed to parse API response: "
                              ++ statusText response))
                 (Some (status response)) None)
    | JsonNull => throw (OtherError nullBodyMessage)
    | JsonMessageNotString => throw (OtherError notStringMessage)
    | Json data =>
        if negb (env_success data) then
          throw (CloudflareAPIError
                   (sanitize (firstErrorMessage (env_errors data)))
                   (Some (status response)) (env_errors data))
        else ret data
    end.

Definition deploymentsEndpoint (config : CloudflareConfig)
           (scriptName : jsstring) : jsstring :=
  lit "/accounts/" ++ accountId config ++ lit "/workers/scripts/"
    ++ scriptName ++ lit "/deployments".

Definition deploymentEndpoint (config : CloudflareConfig)
           (scriptName deploymentId : jsstring) : jsstring :=
  deploymentsEndpoint config scriptName ++ lit "/" ++ deploymentId.

(** [listDeployments(scriptName)]. *)
Definition listDeployments (config : CloudflareConfig)
           (scriptName : jsstring) : M (list Deployment) :=
  result <- request config (deploymentsEndpoint config scriptName) (lit "GET") ;;
  ret (env_result result).

(** [deleteDeployment(scriptName, deploymentId)]. *)
Definition deleteDeployment (config : CloudflareConfig)
           (scriptName deploymentId : jsstring) : M unit :=
  request config (deploymentEndpoint config scriptName deploymentId)
          (lit "DELETE") ;;;
  ret tt.

(** [formatError(error)]. *)
Definition formatError (error : Thrown) : jsstring :=
  match messageOf error with
  | Some m => sanitize m
  | None => lit "Unknown error"
  end.

(** The result of [tryDelete]:
    [{ success: true } | { success: false; error; isRateLimit }]. *)
Inductive TryResult :=
| Succeeded
| Failure (error : jsstring) (isRateLimit : bool).

(** [tryDelete(scriptName, id)]. *)
Definition tryDelete (config : CloudflareConfig)
           (scriptName ident : jsstring) : M TryResult :=
  tryCatch
    (deleteDeployment config scriptName ident ;;; ret Succeeded)
    (fun error => ret (Failure (formatError error) (isRateLimitError error))).

(** [{ success: string[]; failed: Array<{ id; error }> }]. *)
Record BatchResult := mkBatch {
  success : list jsstring;
  failed : list (jsstring * jsstring)
}.

(** [(error.retryAfter || 60) * 1000]. *)
Definition waitTime (retryAfter : option number) : number :=
  mul (orDefault retryAfter (Int 60)) (Int 1000).

(** Lines 192-208 of [deleteDeployments]: the first attempt and the block
    under [// Retry once on rate limit error]. *)
Definition attempt (config : CloudflareConfig)
           (scriptName ident : jsstring) : M TryResult :=
  result <- tryDelete config scriptName ident ;;
  match result with
  | Failure _ true =>
      tryCatch
        (deleteDeployment config scriptName ident ;;; ret result)
        (fun error =>
           match error with
           | RateLimitError retryAfter =>
               delay (waitTime retryAfter) ;;;
               tryDelete config scriptName ident
           | _ => ret result
           end)
  | _ => ret result
  end.

(** The body of the [for] loop of [deleteDeployments], from index [i] on;
    [total] is [deploymentIds.length]. *)
Fixpoint deleteLoop (config : CloudflareConfig) (scriptName : jsstring)
         (onProgress : bool) (total i : nat) (ids : list jsstring)
         (acc : BatchResult) : M BatchResult :=
  match ids with
  | [] => ret acc
  | ident :: rest =>
      result <- attempt config scriptName ident ;;
      acc' <- match result with
              | Succeeded =>
                  callProgress onProgress (i + 1) total ident ;;;
                  ret (mkBatch (success acc ++ [ident]) (failed acc))
              | Failure error _ =>
                  ret (mkBatch (success acc) (failed acc ++ [(ident, error)]))
              end ;;
      (if i <? total - 1 then delay (Int requestDelay) else ret tt) ;;;
      deleteLoop config scriptName onProgress total (S i) rest acc'
  end.

(** [deleteDeployments(scriptName, deploymentIds, onProgress)]. *)
Definition deleteDeployments (config : CloudflareConfig)
           (scriptName : jsstring) (deploymentIds : list jsstring)
           (onProgress : bool) : M BatchResult :=
  deleteLoop config scriptName onProgress (length deploymentIds) 0
             deploymentIds (mkBatch [] []).

(* --------------------------------------------------------------------- *)
(** *** The later revision of the class *)

(** The revision that adds versions keeps [request], [sanitize] and
    [formatError] as they are, gives the result of [tryDelete] a
    [retryAfter] field and rewrites the retry block.  The source repeats the
    same text for versions ([tryDeleteVersion], [deleteVersions]) and for
    deployments ([tryDelete], [deleteDeployments]); the section below is that
    text over the single delete call it makes. *)
Module Revised.

Definition versionEndpoint (config : CloudflareConfig)
           (scriptName versionId : jsstring) : jsstring :=
  lit "/accounts/" ++ accountId config ++ lit "/workers/scripts/"
    ++ scriptName ++ lit "/versions/" ++ versionId.

(** [deleteVersion(scriptName, versionId)]. *)
Definition deleteVersion (config : CloudflareConfig)
           (scriptName versionId : jsstring) : M unit :=
  request config (versionEndpoint config scriptName versionId)
          (lit "DELETE") ;;;
  ret tt.

(** [{ success: true } |
     { success: false; error; isRateLimit; retryAfter }]. *)
Inductive TryResult :=
| Succeeded
| Failure (error : jsstring) (isRateLimit : bool)
          (retryAfter : option number).

Section Batch.

Variable deleteOne : CloudflareConfig -> jsstring -> jsstring -> M unit.

Definition tryDeleteWith (config : CloudflareConfig)
           (scriptName ident : jsstring) : M TryResult :=
  tryCatch
    (deleteOne config scriptName ident ;;; ret Succeeded)
    (fun error =>
       ret (Failure (formatError error) (isRateLimitError error)
                    (match error with
                     | RateLimitError retryAfter => retryAfter
                     | _ => None
                     end))).

(** The first attempt and the block under
    [// Retry once on rate limit error]. *)
Definition attemptWith (config : CloudflareConfig)
           (scriptName ident : jsstring) : M TryResult :=
  result <- tryDeleteWith config scriptName ident ;;
  match result with
  | Failure _ true retryAfter =>
      delay (waitTime retryAfter) ;;;
      tryDeleteWith config scriptName ident
  | _ => ret result
  end.

Fixpoint loopWith (config : CloudflareConfig) (scriptName : jsstring)
         (onProgress : bool) (total i : nat) (ids : list jsstring)
         (acc : BatchResult) : M BatchResult :=
  match ids with
  | [] => ret acc
  | ident :: rest =>
      result <- attemptWith config scriptName ident ;;
      acc' <- match result with
              | Succeeded =>
                  callProgress onProgress (i + 1) total ident ;;;
                  ret (mkBatch (success acc ++ [ident]) (failed acc))
              | Failure error _ _ =>
                  ret (mkBatch (success acc) (failed acc ++ [(ident, error)]))
              end ;;
      (if i <? total - 1 then delay (Int requestDelay) else ret tt) ;;;
      loopWith config scriptName onProgress total (S i) rest acc'
  end.

Definition batchWith (config : CloudflareConfig) (scriptName : jsstring)
           (ids : list jsstring) (onProgress : bool) : M BatchResult :=
  loopWith config scriptName onProgress (length ids) 0 ids (mkBatch [] []).

End Batch.

Definition tryDeleteVersion := tryDeleteWith deleteVersion.
Definition deleteVersions := batchWith deleteVersion.
Definition tryDelete := tryDeleteWith deleteDeployment.
Definition deleteDeployments := batchWith deleteDeployment.

End Revised.

(* ===================================================================== *)
(** ** [utils/prompts.ts] and [commands/delete.ts] *)
(* ===================================================================== *)

(** A choice of the check-box prompt; its [name] is display text only. *)
Record Choice := mkChoice {
  value : Deployment;
  disabled : bool
}.

(** [checkbox] of [@inquirer/prompts], a library outside the repository:
    it resolves to the values of the ticked choices, in the order of the
    list, and a disabled choice cannot be ticked.  [ticked] tells which
    positions the person at the terminal ticks. *)
Fixpoint checkboxFrom (ticked : nat -> bool) (index : nat)
         (choices : list Choice) : list Deployment :=
  match choices with
  | [] => []
  | c :: rest =>
      if ticked index && negb (disabled c)
      then value c :: checkboxFrom ticked (S index) rest
      else checkboxFrom ticked (S index) rest
  end.

Definition checkbox (ticked : nat -> bool) (choices : list Choice) :
  list Deployment :=
  checkboxFrom ticked 0 choices.

(** [deployments.map((d, index) => ...)] of [selectDeploymentsToDelete]. *)
Fixpoint choicesFrom (index : nat) (deployments : list Deployment) :
  list Choice :=
  match deployments with
  | [] => []
  | d :: rest => mkChoice d (index =? 0) :: choicesFrom (S index) rest
  end.

(** [selectDeploymentsToDelete(deployments)]. *)
Definition selectDeploymentsToDelete (ticked : nat -> bool)
           (deployments : list Deployment) : list Deployment :=
  if length deployments =? 0 then []
  else checkbox ticked (choicesFrom 0 deployments).

(** The person at the terminal: the boxes ticked and the answer to the
    confirmation prompt. *)
Record Terminal := mkTerminal {
  ticked : nat -> bool;
  confirms : bool
}.

(** [confirmDeletion(count, { force })] and [confirmDeleteAll]: the same
    decision, with different prompt texts. *)
Definition confirmDeletion (term : Terminal) (force : bool) : bool :=
  if force then true else confirms term.

Definition confirmDeleteAll (term : Terminal) (force : bool) : bool :=
  if force then true else confirms term.

Record DeleteOptions := mkOptions {
  dryRun : bool;
  force : bool;
  all : bool
}.

(** How [deleteCommand] ends. *)
Inductive Ending :=
| NoDeployments                          (* warning, return *)
| OnlyActive                             (* warning, return *)
| NothingSelected
| DryRun (toDelete : list Deployment)
| Cancelled
| Completed (result : BatchResult)       (* exit 1 when a failure is left *)
| Aborted.                               (* catch: error logged, exit 1 *)

(** [toDelete] of [deleteCommand], lines 50-65. *)
Definition selectToDelete (options : DeleteOptions) (term : Terminal)
           (deployments : list Deployment) : list Deployment :=
  let deletableDeployments := skipn 1 deployments in
  if all options then deletableDeployments
  else selectDeploymentsToDelete (ticked term) deployments.

(** [result.failed.forEach(...)]: each failure is printed with the first
    eight characters of its identifier. *)
Fixpoint printFailed (failures : list (jsstring * jsstring)) : M unit :=
  match failures with
  | [] => ret tt
  | (ident, error) :: rest =>
      (fun w => (Return tt, emit (EvPrintFailed (firstn 8 ident) error) w)) ;;;
      printFailed rest
  end.

(** The [try] block of [deleteCommand]; the configuration is what [getEnv]
    returned. *)
Definition deleteCommandBody (config : CloudflareConfig)
           (scriptName : jsstring) (options : DeleteOptions)
           (term : Terminal) : M Ending :=
  deployments <- listDeployments config scriptName ;;
  if length deployments =? 0 then ret NoDeployments
  else if length deployments =? 1 then ret OnlyActive
  else
    let toDelete := selectToDelete options term deployments in
    if length toDelete =? 0 then ret NothingSelected
    else if dryRun options then ret (DryRun toDelete)
    else
      let shouldProceed :=
        if all options then confirmDeleteAll term (force options)
        else confirmDeletion term (force options) in
      if negb shouldProceed then ret Cancelled
      else
        result <- deleteDeployments config scriptName
                    (List.map id toDelete) true ;;
        printFailed (failed result) ;;;
        ret (Completed result).

(** The [catch] block of [deleteCommand]: the message of the error is
    logged as it is; a 403 adds a hint about the permissions of the token. *)
Definition loggedMessage (error : Thrown) : jsstring :=
  match messageOf error with
  | Some m => m
  | None => lit "An unknown error occurred."
  end.

Definition permissionHint : jsstring :=
  lit "Make sure your API token has " ++ [34%N] ++ lit "Workers Scripts: Read"
    ++ [34%N] ++ lit " and " ++ [34%N] ++ lit "Workers Scripts: Edit"
    ++ [34%N] ++ lit " permissions.".

Example permissionHint_text :
  length permissionHint = 93
  /\ List.map (fun k => nth k permissionHint 0%N) [29; 51; 57; 79] = [34; 34; 34; 34]%N.
Proof. split; reflexivity. Qed.

Definition logCaught (error : Thrown) (w : World) : World :=
  let w1 := emit (EvLogError (loggedMessage error)) w in
  if isCloudflareAPIError error then
    match statusCodeOf error with
    | Some c => if (c =? 403)%Z then emit (EvLogInfo permissionHint) w1 else w1
    | None => w1
    end
  else w1.

(** [deleteCommand(scriptName, options)]. *)
Definition deleteCommand (config : CloudflareConfig) (scriptName : jsstring)
           (options : DeleteOptions) (term : Terminal) :
  World -> Ending * World :=
  fun w =>
    match deleteCommandBody config scriptName options term w with
    | (Return e, w') => (e, w')
    | (Throw error, w') => (Aborted, logCaught error w')
    end.

(* ===================================================================== *)
(** ** Running the client *)
(* ===================================================================== *)

(** The world once one more request has been sent. *)
Definition sent (req : Request) (w : World) : World :=
  mkWorld (remote w) (S (calls w)) (log w ++ [EvFetch req]).

(** What [request] makes of the answer to its [fetch]. *)
Definition requestOutcome (answer : FetchResult) : Outcome CloudflareResponse :=
  match answer with
  | Rejects (RejectError m) => Throw (OtherError m)
  | Rejects RejectOther => Throw NotAnError
  | Resolves response =>
      if (status response =? 429)%Z then
        Throw (RateLimitError (retryAfterOf (retryAfterHeader response)))
      else if (status response =? 403)%Z then
        Throw (CloudflareAPIError permissionDeniedMessage (Some 403%Z) None)
      else if (status response =? 404)%Z then
        Throw (CloudflareAPIError notFoundMessage (Some 404%Z) None)
      else
        match json response with
        | NotJson =>
            Throw (CloudflareAPIError
                     (sanitize (lit "Failed to parse API response: "
                                  ++ statusText response))
                     (Some (status response)) None)
        | JsonNull => Throw (OtherError nullBodyMessage)
        | JsonMessageNotString => Throw (OtherError notStringMessage)
        | Json data =>
            if negb (env_success data) then
              Throw (CloudflareAPIError
                       (sanitize (firstErrorMessage (env_errors data)))
                       (Some (status response)) (env_errors data))
            else Return data
        end
  end.

Definition requestFor (config : CloudflareConfig) (endpoint httpMethod : jsstring) :
  Request :=
  mkRequest (baseUrl ++ endpoint) httpMethod (lit "Bearer " ++ apiToken config).

(** The request [deleteDeployment] sends. *)
Definition deleteRequest (config : CloudflareConfig)
           (scriptName ident : jsstring) : Request :=
  requestFor config (deploymentEndpoint config scriptName ident) (lit "DELETE").

(** The request [listDeployments] sends. *)
Definition listRequest (config : CloudflareConfig) (scriptName : jsstring) :
  Request :=
  requestFor config (deploymentsEndpoint config scriptName) (lit "GET").

Lemma request_run config endpoint httpMethod w :
  request config endpoint httpMethod w =
  (requestOutcome (remote w (calls w) (requestFor config endpoint httpMethod)),
   sent (requestFor config endpoint httpMethod) w).
Proof.
  unfold request, bind, fetch, requestOutcome, requestFor, sent.
  destruct (remote w (calls w) _) as [[m|]|response]; try reflexivity.
  cbn beta iota.
  destruct (status response =? 429)%Z; [reflexivity|].
  destruct (status response =? 403)%Z; [reflexivity|].
  destruct (status response =? 404)%Z; [reflexivity|].
  destruct (json response) as [| | |data]; try reflexivity.
  destruct (negb (env_success data)); reflexivity.
Qed.

Lemma listDeployments_run config scriptName w :
  listDeployments config scriptName w =
  (match requestOutcome (remote w (calls w) (listRequest config scriptName)) with
   | Return data => Return (env_result data)
   | Throw e => Throw e
   end,
   sent (listRequest config scriptName) w).
Proof.
  unfold listDeployments, bind. rewrite request_run.
  fold (listRequest config scriptName).
  destruct (requestOutcome _); reflexivity.
Qed.

Lemma deleteDeployment_run config scriptName ident w :
  deleteDeployment config scriptName ident w =
  (match requestOutcome (remote w (calls w)
                           (deleteRequest config scriptName ident)) with
   | Return _ => Return tt
   | Throw e => Throw e
   end,
   sent (deleteRequest config scriptName ident) w).
Proof.
  unfold deleteDeployment, bind. rewrite request_run.
  fold (deleteRequest config scriptName ident).
  destruct (requestOutcome _); reflexivity.
Qed.

(** What [tryDelete] makes of the outcome of its [deleteDeployment]. *)
Definition tryResultOf (o : Outcome CloudflareResponse) : TryResult :=
  match o with
  | Return _ => Succeeded
  | Throw error => Failure (formatError error) (isRateLimitError error)
  end.

Lemma tryDelete_run config scriptName ident w :
  tryDelete config scriptName ident w =
  (Return (tryResultOf (requestOutcome
                          (remote w (calls w)
                             (deleteRequest config scriptName ident)))),
   sent (deleteRequest config scriptName ident) w).
Proof.
  unfold tryDelete, tryCatch, bind. rewrite deleteDeployment_run.
  destruct (requestOutcome _); reflexivity.
Qed.

(** The answer is the rate-limit status. *)
Definition rateLimited (o : Outcome CloudflareResponse) : option (option number) :=
  match o with
  | Throw (RateLimitError retryAfter) => Some retryAfter
  | _ => None
  end.

Lemma tryResultOf_rateLimited o :
  match rateLimited o with
  | Some _ => tryResultOf o = Failure (sanitize rateLimitMessage) true
  | None => match tryResultOf o with
            | Failure _ true => False
            | _ => True
            end
  end.
Proof.
  destruct o as [data|[ra|m c errs|m|]]; simpl; auto.
Qed.

(** The three ways through lines 192-208. *)
Lemma attempt_run config scriptName ident w :
  let req := deleteRequest config scriptName ident in
  let first := requestOutcome (remote w (calls w) req) in
  let second := requestOutcome (remote w (S (calls w)) req) in
  let third := requestOutcome (remote w (S (S (calls w))) req) in
  attempt config scriptName ident w =
  match rateLimited first with
  | None => (Return (tryResultOf first), sent req w)
  | Some _ =>
      match rateLimited second with
      | None => (Return (tryResultOf first), sent req (sent req w))
      | Some retryAfter =>
          (Return (tryResultOf third),
           sent req (emit (EvDelay (timeoutOf (waitTime retryAfter)))
                          (sent req (sent req w))))
      end
  end.
Proof.
  intros req first second third.
  unfold attempt, bind. rewrite tryDelete_run. fold req first.
  pose proof (tryResultOf_rateLimited first) as H1.
  destruct (rateLimited first) as [ra1|] eqn:E1.
  - rewrite H1. unfold tryCatch, bind. rewrite deleteDeployment_run.
    cbn [calls sent remote]. fold req second.
    destruct second as [data|e] eqn:E2; [reflexivity|].
    destruct e as [ra|m c errs|m|]; cbn [rateLimited]; try reflexivity.
    unfold delay. rewrite tryDelete_run. reflexivity.
  - destruct (tryResultOf first) as [|error [|]]; try reflexivity.
    contradiction.
Qed.

(* --------------------------------------------------------------------- *)
(** *** The loop, identifier by identifier *)

(** What happened for one identifier: the result kept in [result] and the
    requests and pauses of lines 192-208. *)
Record Step := mkStep {
  st_id : jsstring;
  st_result : TryResult;
  st_events : list Event
}.

(** Lines 210-215: [success.push(id)] or [failed.push({ id, error })]. *)
Definition record (acc : BatchResult) (st : Step) : BatchResult :=
  match st_result st with
  | Succeeded => mkBatch (success acc ++ [st_id st]) (failed acc)
  | Failure error _ => mkBatch (success acc) (failed acc ++ [(st_id st, error)])
  end.

(** Line 212: the call of the progress callback. *)
Definition notice (onProgress : bool) (total i : nat) (st : Step) : list Event :=
  match st_result st with
  | Succeeded => if onProgress then [EvProgress (i + 1) total (st_id st)] else []
  | Failure _ _ => []
  end.

(** Lines 217-220: the pause between two identifiers. *)
Definition pacing (total i : nat) : list Event :=
  if i <? total - 1 then [EvDelay requestDelay] else [].

Fixpoint loopEvents (onProgress : bool) (total i : nat) (steps : list Step) :
  list Event :=
  match steps with
  | [] => []
  | st :: rest =>
      st_events st ++ notice onProgress total i st ++ pacing total i
        ++ loopEvents onProgress total (S i) rest
  end.

Definition loopResult (acc : BatchResult) (steps : list Step) : BatchResult :=
  fold_left record steps acc.

(** The requests and pauses lines 192-208 can produce for one identifier. *)
Inductive attemptTrace (req : Request) : list Event -> Prop :=
| trace_single : attemptTrace req [EvFetch req]
| trace_probe : attemptTrace req [EvFetch req; EvFetch req]
| trace_retry retryAfter :
    attemptTrace req [EvFetch req; EvFetch req;
                      EvDelay (timeoutOf (waitTime retryAfter)); EvFetch req].

(** An error text that [sanitize] leaves as it is. *)
Definition clean (m : jsstring) : Prop := sanitize m = m.

Definition cleanResult (r : TryResult) : Prop :=
  match r with
  | Succeeded => True
  | Failure error _ => clean error
  end.

Definition goodStep (config : CloudflareConfig) (scriptName : jsstring)
           (st : Step) : Prop :=
  attemptTrace (deleteRequest config scriptName (st_id st)) (st_events st)
  /\ cleanResult (st_result st).

Lemma sanitize_idem m : sanitize (sanitize m) = sanitize m.
Proof. apply replaceBearer_idempotent. Qed.

Lemma formatError_clean error : clean (formatError error).
Proof.
  unfold formatError, clean.
  destruct (messageOf error); [apply sanitize_idem|reflexivity].
Qed.

Lemma tryResultOf_clean o : cleanResult (tryResultOf o).
Proof. destruct o; simpl; [exact I|apply formatError_clean]. Qed.

Definition isFetch (e : Event) : bool :=
  match e with EvFetch _ => true | _ => false end.

(** The number of requests among some events. *)
Definition fetches (evs : list Event) : nat := length (filter isFetch evs).

Lemma attempt_step config scriptName ident w :
  exists res evs,
    attempt config scriptName ident w =
      (Return res, mkWorld (remote w) (calls w + fetches evs) (log w ++ evs))
    /\ goodStep config scriptName (mkStep ident res evs).
Proof.
  pose proof (attempt_run config scriptName ident w) as H. cbv zeta in H.
  set (req := deleteRequest config scriptName ident) in *.
  destruct (rateLimited (requestOutcome (remote w (calls w) req))).
  - destruct (rateLimited (requestOutcome (remote w (S (calls w)) req))) as [ra|].
    + eexists _, [EvFetch req; EvFetch req; EvDelay (timeoutOf (waitTime ra)); EvFetch req].
      split.
      * rewrite H. unfold sent, emit; cbn [remote calls log fetches filter
          isFetch length]. rewrite <- !app_assoc. cbn [app].
        replace (calls w + 3) with (S (S (S (calls w)))) by lia. reflexivity.
      * split; [constructor | apply tryResultOf_clean].
    + eexists _, [EvFetch req; EvFetch req]. split.
      * rewrite H. unfold sent; cbn [remote calls log fetches filter
          isFetch length]. rewrite <- !app_assoc. cbn [app].
        replace (calls w + 2) with (S (S (calls w))) by lia. reflexivity.
      * split; [constructor | apply tryResultOf_clean].
  - eexists _, [EvFetch req]. split.
    + rewrite H. unfold sent; cbn [remote calls log fetches filter
        isFetch length].
      replace (calls w + 1) with (S (calls w)) by lia. reflexivity.
    + split; [constructor | apply tryResultOf_clean].
Qed.

Lemma deleteLoop_cons config scriptName onProgress total i ident rest acc w
      res evs w1 :
  attempt config scriptName ident w = (Return res, w1) ->
  log w1 = log w ++ evs ->
  let st := mkStep ident res evs in
  let w2 := mkWorld (remote w1) (calls w1)
                    (log w ++ evs ++ notice onProgress total i st
                       ++ pacing total i) in
  deleteLoop config scriptName onProgress total i (ident :: rest) acc w =
  deleteLoop config scriptName onProgress total (S i) rest (record acc st) w2.
Proof.
  intros H Hlog st w2. cbn [deleteLoop]. unfold bind at 1. rewrite H.
  unfold w2, st, record, notice, pacing. cbn [st_result st_id].
  destruct w1 as [rm1 c1 l1]. cbn [log remote calls] in *. subst l1.
  destruct res as [|error rl].
  - unfold bind, callProgress, ret, delay, emit; cbn [log remote calls].
    destruct onProgress, (i <? total - 1);
      cbn [log remote calls app]; rewrite <- ?app_assoc, ?app_nil_r;
      reflexivity.
  - unfold bind, ret, delay, emit; cbn [log remote calls].
    destruct (i <? total - 1);
      cbn [log remote calls app]; rewrite <- ?app_assoc, ?app_nil_r;
      reflexivity.
Qed.

(** The loop always returns; its result and its log are those of a list of
    steps, one per identifier in order. *)
Lemma deleteLoop_steps config scriptName onProgress total :
  forall ids i acc w,
  exists steps w',
    deleteLoop config scriptName onProgress total i ids acc w =
      (Return (loopResult acc steps), w')
    /\ List.map st_id steps = ids
    /\ log w' = log w ++ loopEvents onProgress total i steps
    /\ remote w' = remote w
    /\ Forall (goodStep config scriptName) steps.
Proof.
  induction ids as [|ident rest IH]; intros i acc w.
  - exists [], w. cbn. rewrite app_nil_r. repeat split; constructor.
  - destruct (attempt_step config scriptName ident w) as (res & evs & Hrun & Hgood).
    rewrite (deleteLoop_cons _ _ _ _ _ _ _ _ _ _ _ _ Hrun eq_refl).
    match goal with |- context [deleteLoop _ _ _ _ _ _ ?a ?w2] =>
      destruct (IH (S i) a w2) as (steps & w' & Hloop & Hids & Hlog & Hrem & Hall)
    end.
    exists (mkStep ident res evs :: steps), w'.
    split; [exact Hloop|]. split; [cbn; rewrite Hids; reflexivity|].
    split; [|split].
    + rewrite Hlog. cbn [log loopEvents st_events].
      rewrite <- !app_assoc. reflexivity.
    + rewrite Hrem. reflexivity.
    + constructor; assumption.
Qed.

Lemma deleteDeployments_steps config scriptName deploymentIds onProgress w :
  exists steps w',
    deleteDeployments config scriptName deploymentIds onProgress w =
      (Return (loopResult (mkBatch [] []) steps), w')
    /\ List.map st_id steps = deploymentIds
    /\ log w' = log w
                ++ loopEvents onProgress (length deploymentIds) 0 steps
    /\ remote w' = remote w
    /\ Forall (goodStep config scriptName) steps.
Proof. apply deleteLoop_steps. Qed.

(* --------------------------------------------------------------------- *)
(** *** Reading a report and a log off the steps *)

Definition isOk (st : Step) : bool :=
  match st_result st with
  | Succeeded => true
  | Failure _ _ => false
  end.

(** The pairs pushed to [failed]. *)
Fixpoint failuresOf (steps : list Step) : list (jsstring * jsstring) :=
  match steps with
  | [] => []
  | st :: rest =>
      match st_result st with
      | Succeeded => failuresOf rest
      | Failure error _ => (st_id st, error) :: failuresOf rest
      end
  end.

Lemma loopResult_eq steps : forall acc,
  loopResult acc steps =
  mkBatch (success acc ++ List.map st_id (filter isOk steps))
          (failed acc ++ failuresOf steps).
Proof.
  induction steps as [|st rest IH]; intros acc.
  - cbn. rewrite !app_nil_r. destruct acc; reflexivity.
  - unfold loopResult in *. cbn [fold_left]. rewrite IH.
    unfold record, isOk. cbn [filter failuresOf].
    destruct (st_result st); cbn [success failed List.map];
      rewrite <- !app_assoc; reflexivity.
Qed.

Lemma failuresOf_ids steps :
  List.map fst (failuresOf steps) =
  List.map st_id (filter (fun st => negb (isOk st)) steps).
Proof.
  induction steps as [|st rest IH]; [reflexivity|].
  unfold isOk in *. cbn [failuresOf filter].
  destruct (st_result st); cbn; rewrite IH; reflexivity.
Qed.

Lemma filter_split_perm {A} (f : A -> bool) (l : list A) :
  Permutation l (filter f l ++ filter (fun x => negb (f x)) l).
Proof.
  induction l as [|a l IH]; [constructor|].
  cbn. destruct (f a); cbn.
  - constructor. exact IH.
  - apply Permutation_cons_app. exact IH.
Qed.

Lemma report_permutation steps :
  Permutation (List.map st_id steps)
              (success (loopResult (mkBatch [] []) steps)
                 ++ List.map fst (failed (loopResult (mkBatch [] []) steps))).
Proof.
  rewrite loopResult_eq. cbn [success failed app].
  rewrite failuresOf_ids, <- map_app.
  apply Permutation_map, filter_split_perm.
Qed.

Lemma attemptTrace_head req evs :
  attemptTrace req evs -> exists tl, evs = EvFetch req :: tl.
Proof. intros []; eexists; reflexivity. Qed.

Lemma loopEvents_fetched config scriptName onProgress total steps : forall i,
  Forall (goodStep config scriptName) steps ->
  forall x, In x (List.map st_id steps) ->
    In (EvFetch (deleteRequest config scriptName x))
       (loopEvents onProgress total i steps).
Proof.
  induction steps as [|st rest IH]; intros i Hall x Hx; [contradiction|].
  inversion Hall as [|? ? [Htr _] Hrest]; subst.
  cbn [loopEvents]. destruct Hx as [Hx|Hx].
  - cbn in Hx. subst x. destruct (attemptTrace_head _ _ Htr) as [tl ->].
    left. reflexivity.
  - apply in_or_app. right. apply in_or_app. right. apply in_or_app. right.
    apply IH; assumption.
Qed.

(* ===================================================================== *)
(** ** Scenarios: concrete answers of the remote side *)
(* ===================================================================== *)

Module Scenario.

Definition config : CloudflareConfig := mkConfig (lit "acc") (lit "s3cr3t").
Definition script : jsstring := lit "worker".

Definition deployment (name : string) : Deployment :=
  mkDeployment (lit name) (lit "2024-01-01T00:00:00Z") (lit "dev@example.com")
               (lit "api") (lit "percentage").

(** 200 with a successful envelope. *)
Definition ok (deployments : list Deployment) : FetchResult :=
  Resolves (mkResponse 200 (lit "OK") None
              (Json (mkEnvelope true deployments (Some [])))).

(** 429, with or without a [Retry-After] header. *)
Definition tooMany (retryAfter : option string) : FetchResult :=
  Resolves (mkResponse 429 (lit "Too Many Requests")
              (option_map lit retryAfter) NotJson).

Definition notFound : FetchResult :=
  Resolves (mkResponse 404 (lit "Not Found") None NotJson).

Definition forbidden : FetchResult :=
  Resolves (mkResponse 403 (lit "Forbidden") None NotJson).

(** 400 with a failed envelope reporting [errors]. *)
Definition apiFailure (errors : list ApiError) : FetchResult :=
  Resolves (mkResponse 400 (lit "Bad Request") None
              (Json (mkEnvelope false [] (Some errors)))).

(** The remote side answers the requests of the run with [answers], in
    order, and with plain success afterwards. *)
Definition scripted (answers : list FetchResult) : World :=
  mkWorld (fun n _ => nth n answers (ok [])) 0 [].

(** A remote side on which every request succeeds. *)
Definition allOk : World := scripted [].

End Scenario.

(* ===================================================================== *)
(** ** The batch report *)
(* ===================================================================== *)

Definition countIn (l : list jsstring) (x : jsstring) : nat :=
  count_occ jsstring_eq_dec l x.

(** The identifiers of the [failed] list. *)
Definition failedIds (res : BatchResult) : list jsstring :=
  List.map fst (failed res).

(** The report of a batch is a rearrangement of its input. *)
Lemma batch_report_partition_aux config scriptName deploymentIds onProgress w
      res w' :
  deleteDeployments config scriptName deploymentIds onProgress w = (Return res, w') ->
  Permutation deploymentIds (success res ++ failedIds res)
  /\ forall x, In x deploymentIds ->
               In (EvFetch (deleteRequest config scriptName x)) (log w').
Proof.
  destruct (deleteDeployments_steps config scriptName deploymentIds onProgress w)
    as (steps & w1 & Hrun & Hids & Hlog & _ & Hall).
  rewrite Hrun. intros H. inversion H; subst res w'. split.
  - rewrite <- Hids. apply report_permutation.
  - intros x Hx. rewrite Hlog. apply in_or_app. right.
    eapply loopEvents_fetched; [exact Hall|]. rewrite Hids. exact Hx.
Qed.




(* ===================================================================== *)
(** ** Requests and pauses of a batch *)
(* ===================================================================== *)

(** The requests among some events, in order. *)
Definition fetched (evs : list Event) : list Request :=
  flat_map (fun e => match e with EvFetch req => [req] | _ => [] end) evs.

(** The pauses among some events, in order, in milliseconds. *)
Definition delays (evs : list Event) : list Z :=
  flat_map (fun e => match e with EvDelay ms => [ms] | _ => [] end) evs.

(** The calls of the progress callback among some events, in order. *)
Definition progressCalls (evs : list Event) : list (nat * nat * jsstring) :=
  flat_map (fun e => match e with
                     | EvProgress c t x => [(c, t, x)]
                     | _ => []
                     end) evs.

(** The number of pauses of the inter-request interval. *)
Definition pauses (evs : list Event) : nat :=
  count_occ Z.eq_dec (delays evs) requestDelay.

(** The remote side lets the request through: [request] returns. *)
Definition succeeds (answer : FetchResult) : bool :=
  match requestOutcome answer with
  | Return _ => true
  | Throw _ => false
  end.

Lemma fetched_app a b : fetched (a ++ b) = fetched a ++ fetched b.
Proof. apply flat_map_app. Qed.

Lemma delays_app a b : delays (a ++ b) = delays a ++ delays b.
Proof. apply flat_map_app. Qed.


Lemma pauses_app a b : pauses (a ++ b) = pauses a + pauses b.
Proof. unfold pauses. rewrite delays_app. apply count_occ_app. Qed.

Lemma fetches_fetched evs : fetches evs = length (fetched evs).
Proof.
  unfold fetches, fetched.
  induction evs as [|[] evs IH]; cbn; try rewrite IH; reflexivity.
Qed.

(** The events of a batch on which every request succeeds. *)
Fixpoint happyEvents (config : CloudflareConfig) (scriptName : jsstring)
         (onProgress : bool) (total i : nat) (ids : list jsstring) : list Event :=
  match ids with
  | [] => []
  | ident :: rest =>
      EvFetch (deleteRequest config scriptName ident)
        :: (if onProgress then [EvProgress (i + 1) total ident] else [])
        ++ pacing total i
        ++ happyEvents config scriptName onProgress total (S i) rest
  end.

Lemma attempt_succeeds config scriptName ident w :
  succeeds (remote w (calls w) (deleteRequest config scriptName ident)) = true ->
  attempt config scriptName ident w =
  (Return Succeeded, sent (deleteRequest config scriptName ident) w).
Proof.
  intros H. rewrite attempt_run. cbv zeta. unfold succeeds in H.
  destruct (requestOutcome _); [reflexivity|discriminate].
Qed.

Lemma deleteLoop_happy config scriptName onProgress total :
  forall ids i acc w,
    (forall n req, succeeds (remote w n req) = true) ->
    deleteLoop config scriptName onProgress total i ids acc w =
    (Return (mkBatch (success acc ++ ids) (failed acc)),
     mkWorld (remote w) (calls w + length ids)
             (log w ++ happyEvents config scriptName onProgress total i ids)).
Proof.
  induction ids as [|ident rest IH]; intros i acc w Hok.
  - cbn. rewrite !app_nil_r, Nat.add_0_r. destruct acc, w; reflexivity.
  - rewrite (deleteLoop_cons config scriptName onProgress total i ident rest
               acc w Succeeded [EvFetch (deleteRequest config scriptName ident)]
               (sent (deleteRequest config scriptName ident) w)
               (attempt_succeeds _ _ _ _ (Hok _ _)) eq_refl).
    rewrite IH by (cbn [remote sent]; exact Hok).
    unfold record, notice. cbn [st_result st_id success failed remote calls
      log sent happyEvents length].
    rewrite <- !app_assoc. cbn [app].
    replace (S (calls w) + length rest) with (calls w + S (length rest)) by lia.
    reflexivity.
Qed.

Lemma happy_fetched config scriptName onProgress total ids : forall i,
  fetched (happyEvents config scriptName onProgress total i ids)
  = List.map (deleteRequest config scriptName) ids.
Proof.
  induction ids as [|ident rest IH]; intros i; [reflexivity|].
  cbn [happyEvents List.map]. unfold pacing.
  change (EvFetch ?r :: ?l) with ([EvFetch r] ++ l).
  rewrite !fetched_app, IH.
  destruct onProgress, (i <? total - 1); reflexivity.
Qed.

Lemma happy_delays config scriptName onProgress ids : forall total i,
  i + length ids = total ->
  delays (happyEvents config scriptName onProgress total i ids)
  = repeat requestDelay (length ids - 1).
Proof.
  induction ids as [|ident rest IH]; intros total i Hlen; [reflexivity|].
  cbn [happyEvents length] in *. unfold pacing.
  change (EvFetch ?r :: ?l) with ([EvFetch r] ++ l).
  rewrite !delays_app, (IH total (S i)) by lia.
  replace (S (length rest) - 1) with (length rest) by lia.
  destruct rest as [|ident' rest'].
  - cbn [length] in *. replace (i <? total - 1) with false
      by (symmetry; apply Nat.ltb_ge; lia).
    destruct onProgress; reflexivity.
  - cbn [length] in *. replace (i <? total - 1) with true
      by (symmetry; apply Nat.ltb_lt; lia).
    replace (S (length rest') - 1) with (length rest') by lia.
    destruct onProgress; reflexivity.
Qed.

Lemma timeoutOf_toDouble z : timeoutOf (toDouble z) = timeoutOf (Int z).
Proof.
  destruct (Z.lt_ge_cases (Z.abs z) 9007199254740992) as [H|H].
  - rewrite (toDouble_small z H). reflexivity.
  - destruct (toDouble_big z H) as [E|(v & Hv & E)]; rewrite E; cbn [timeoutOf].
    + destruct (Z.ltb_spec z 1); [reflexivity|].
      destruct (Z.ltb_spec 2147483647 z); [reflexivity|lia].
    + destruct (Z.ltb_spec z 0).
      * destruct (Z.ltb_spec (- v) 1); [|lia].
        destruct (Z.ltb_spec z 1); [reflexivity|lia].
      * destruct (Z.ltb_spec v 1); [lia|].
        destruct (Z.ltb_spec 2147483647 v); [|lia].
        destruct (Z.ltb_spec z 1); [lia|].
        destruct (Z.ltb_spec 2147483647 z); [reflexivity|lia].
Qed.

Lemma timeoutOf_range ms : (1 <= timeoutOf ms <= 2147483647)%Z.
Proof.
  destruct ms as [|z|b]; cbn [timeoutOf]; try lia.
  destruct (Z.ltb_spec z 1); cbn [orb]; [lia|].
  destruct (Z.ltb_spec 2147483647 z); lia.
Qed.

(** The seconds [(retryAfter || 60)] stands for, when finite. *)
Lemma waitTime_Int retryAfter :
  (exists b, orDefault retryAfter (Int 60) = Infinity b
             /\ waitTime retryAfter = Infinity b)
  \/ (exists n, n <> 0%Z /\ orDefault retryAfter (Int 60) = Int n
                /\ timeoutOf (waitTime retryAfter) = timeoutOf (Int (n * 1000))).
Proof.
  unfold waitTime. destruct retryAfter as [[|z|b]|]; cbn [orDefault].
  - right. exists 60%Z. repeat split; discriminate.
  - destruct (Z.eqb_spec z 0) as [->|Hz].
    + right. exists 60%Z. repeat split; discriminate.
    + right. exists z. split; [exact Hz|]. split; [reflexivity|].
      cbn [mul]. apply timeoutOf_toDouble.
  - left. exists b. split; [reflexivity|]. cbn. destruct b; reflexivity.
  - right. exists 60%Z. repeat split; discriminate.
Qed.

(** The pause on a rate limit is a millisecond or a whole number of seconds,
    never the inter-request interval. *)
Lemma waitTime_pause retryAfter :
  timeoutOf (waitTime retryAfter) = 1%Z
  \/ exists n, (1 <= n)%Z /\ timeoutOf (waitTime retryAfter) = (n * 1000)%Z.
Proof.
  destruct (waitTime_Int retryAfter) as [(b & _ & E)|(n & Hn & _ & E)].
  - left. rewrite E. reflexivity.
  - rewrite E. cbn [timeoutOf].
    destruct (Z.ltb_spec (n * 1000) 1); cbn [orb]; [left; reflexivity|].
    destruct (Z.ltb_spec 2147483647 (n * 1000)); [left; reflexivity|].
    right. exists n. split; [lia|reflexivity].
Qed.

Lemma waitTime_not_requestDelay retryAfter :
  timeoutOf (waitTime retryAfter) <> requestDelay.
Proof.
  unfold requestDelay.
  destruct (waitTime_pause retryAfter) as [E|(n & Hn & E)]; rewrite E; lia.
Qed.

Lemma timeoutOf_requestDelay : timeoutOf (Int requestDelay) = requestDelay.
Proof. reflexivity. Qed.

Lemma attemptTrace_pauses req evs : attemptTrace req evs -> pauses evs = 0.
Proof.
  intros [| |ra]; try reflexivity.
  unfold pauses. cbn. destruct (Z.eq_dec (timeoutOf (waitTime ra)) requestDelay) as [E|E];
    [|reflexivity].
  exfalso. exact (waitTime_not_requestDelay ra E).
Qed.

Lemma notice_pauses onProgress total i st : pauses (notice onProgress total i st) = 0.
Proof.
  unfold notice. destruct (st_result st), onProgress; reflexivity.
Qed.

Lemma loopEvents_pauses config scriptName onProgress steps : forall total i,
  Forall (goodStep config scriptName) steps ->
  i + length steps = total ->
  pauses (loopEvents onProgress total i steps) = length steps - 1.
Proof.
  induction steps as [|st rest IH]; intros total i Hall Hlen; [reflexivity|].
  inversion Hall as [|? ? [Htr _] Hrest]; subst.
  cbn [loopEvents length] in *.
  rewrite !pauses_app, (attemptTrace_pauses _ _ Htr), notice_pauses,
    (IH (i + S (length rest)) (S i) Hrest) by lia.
  unfold pacing. destruct rest as [|st' rest'].
  - cbn [length]. replace (i <? i + 1 - 1) with false
      by (symmetry; apply Nat.ltb_ge; lia). reflexivity.
  - cbn [length]. replace (i <? i + S (S (length rest')) - 1) with true
      by (symmetry; apply Nat.ltb_lt; lia).
    cbn. lia.
Qed.

Lemma attemptTrace_fetched req evs r :
  attemptTrace req evs -> In r (fetched evs) -> r = req.
Proof.
  intros [| |ra]; cbn; intuition congruence.
Qed.

Lemma fetches_app a b : fetches (a ++ b) = fetches a + fetches b.
Proof. unfold fetches. rewrite filter_app, length_app. reflexivity. Qed.

Lemma attemptTrace_fetches req evs :
  attemptTrace req evs -> 1 <= fetches evs <= 3.
Proof. intros [| |ra]; cbn; lia. Qed.

Lemma fetched_fetches evs : fetched evs = [] -> fetches evs = 0.
Proof. rewrite fetches_fetched. intros ->. reflexivity. Qed.

(** Lists of events one after the other, with [sep] between two of them. *)
Fixpoint joinWith (sep : list Event) (segs : list (list Event)) : list Event :=
  match segs with
  | [] => []
  | seg :: rest =>
      match rest with
      | [] => seg
      | _ :: _ => seg ++ sep ++ joinWith sep rest
      end
  end.

Lemma joinWith_cons sep seg rest :
  rest <> [] -> joinWith sep (seg :: rest) = seg ++ sep ++ joinWith sep rest.
Proof. destruct rest; [congruence|reflexivity]. Qed.

(** What the loop does for each identifier, the pauses between identifiers
    left out: the requests and the pause of lines 192-208, then the call of
    the callback. *)
Fixpoint segments (onProgress : bool) (total i : nat) (steps : list Step) :
  list (list Event) :=
  match steps with
  | [] => []
  | st :: rest =>
      (st_events st ++ notice onProgress total i st)
        :: segments onProgress total (S i) rest
  end.

(** The log of the loop is the segments of the identifiers with one pause of
    200 ms between two of them. *)
Lemma loopEvents_join onProgress steps : forall total i,
  i + length steps = total ->
  loopEvents onProgress total i steps
  = joinWith [EvDelay 200] (segments onProgress total i steps).
Proof.
  induction steps as [|st rest IH]; intros total i Hlen; [reflexivity|].
  cbn [loopEvents]. rewrite (IH total (S i)) by (cbn [length] in Hlen; lia).
  change (segments onProgress total i (st :: rest))
    with ((st_events st ++ notice onProgress total i st)
            :: segments onProgress total (S i) rest).
  unfold pacing. destruct rest as [|st' rest'].
  - cbn [length segments joinWith] in *.
    replace (i <? total - 1) with false by (symmetry; apply Nat.ltb_ge; lia).
    rewrite !app_nil_r. reflexivity.
  - rewrite joinWith_cons by (cbn [segments]; discriminate).
    cbn [length] in Hlen.
    replace (i <? total - 1) with true by (symmetry; apply Nat.ltb_lt; lia).
    rewrite <- app_assoc. reflexivity.
Qed.

Lemma segments_each (P : jsstring -> list Event -> Prop) onProgress total steps :
  Forall (fun st => forall i,
              P (st_id st) (st_events st ++ notice onProgress total i st)) steps ->
  forall i, Forall2 P (List.map st_id steps) (segments onProgress total i steps).
Proof.
  induction 1 as [|st rest Hst _ IH]; intros i; cbn; constructor; auto.
Qed.

Lemma segments_each_ids (P : jsstring -> list Event -> Prop) onProgress total
      steps ids i :
  List.map st_id steps = ids ->
  Forall (fun st => forall i,
              P (st_id st) (st_events st ++ notice onProgress total i st)) steps ->
  Forall2 P ids (segments onProgress total i steps).
Proof. intros <- H. apply segments_each. exact H. Qed.

Lemma notice_fetched onProgress total i st :
  fetched (notice onProgress total i st) = [].
Proof. unfold notice. destruct (st_result st), onProgress; reflexivity. Qed.

Lemma notice_delays onProgress total i st :
  delays (notice onProgress total i st) = [].
Proof. unfold notice. destruct (st_result st), onProgress; reflexivity. Qed.

Lemma delays_In ms evs : In (EvDelay ms) evs <-> In ms (delays evs).
Proof.
  induction evs as [|e evs IH]; [reflexivity|].
  change (e :: evs) with ([e] ++ evs). rewrite delays_app, !in_app_iff, IH.
  destruct e; cbn; intuition congruence.
Qed.

(** The segment of an identifier starts with a request for it, holds no
    pause of the interval and between one and three requests, all for it. *)
Lemma goodStep_segment config scriptName onProgress total i st :
  goodStep config scriptName st ->
  let req := deleteRequest config scriptName (st_id st) in
  let seg := st_events st ++ notice onProgress total i st in
  (exists tl, seg = EvFetch req :: tl)
  /\ ~ In (EvDelay 200) seg
  /\ 1 <= fetches seg <= 3
  /\ (forall r, In r (fetched seg) -> r = req).
Proof.
  intros [Htr _] req seg. unfold seg. fold req in Htr.
  split; [|split; [|split]].
  - destruct (attemptTrace_head _ _ Htr) as [tl ->]. eexists. reflexivity.
  - rewrite delays_In, delays_app, notice_delays, app_nil_r.
    destruct Htr as [| |ra]; cbn; try tauto.
    intros [E|[]]. exact (waitTime_not_requestDelay ra E).
  - rewrite fetches_app, (fetched_fetches _ (notice_fetched _ _ _ _)).
    pose proof (attemptTrace_fetches _ _ Htr). lia.
  - intros r. rewrite fetched_app, notice_fetched, app_nil_r.
    apply attemptTrace_fetched. exact Htr.
Qed.

(** The batch as a list of segments. *)
Lemma deleteDeployments_segments config scriptName deploymentIds onProgress w :
  exists steps w',
    deleteDeployments config scriptName deploymentIds onProgress w =
      (Return (loopResult (mkBatch [] []) steps), w')
    /\ List.map st_id steps = deploymentIds
    /\ log w' = log w
                ++ joinWith [EvDelay 200]
                     (segments onProgress (length deploymentIds) 0 steps)
    /\ Forall (goodStep config scriptName) steps.
Proof.
  destruct (deleteDeployments_steps config scriptName deploymentIds onProgress w)
    as (steps & w' & Hrun & Hids & Hlog & _ & Hall).
  exists steps, w'. split; [exact Hrun|]. split; [exact Hids|].
  split; [|exact Hall].
  rewrite Hlog, (loopEvents_join onProgress steps (length deploymentIds) 0);
    [reflexivity|].
  rewrite <- Hids, length_map. reflexivity.
Qed.

(** The pauses of the interval lie between the segments. *)
Lemma joinWith_pauses segs :
  Forall (fun seg => ~ In (EvDelay 200) seg) segs ->
  pauses (joinWith [EvDelay 200] segs) = length segs - 1.
Proof.
  assert (Hseg : forall seg, ~ In (EvDelay 200) seg -> pauses seg = 0).
  { intros seg H. unfold pauses, requestDelay.
    apply count_occ_not_In. rewrite <- delays_In. exact H. }
  induction 1 as [|seg rest Hs Hrest IH]; [reflexivity|].
  destruct rest as [|seg' rest'].
  - cbn. apply Hseg, Hs.
  - rewrite joinWith_cons by discriminate.
    rewrite !pauses_app, IH, (Hseg _ Hs). cbn. lia.
Qed.

(** The segment of an identifier whose request succeeds: the request, then
    the call of the callback with the position counted from one. *)
Definition successSegment (config : CloudflareConfig) (scriptName : jsstring)
           (onProgress : bool) (total : nat) (p : nat * jsstring) : list Event :=
  EvFetch (deleteRequest config scriptName (snd p))
    :: (if onProgress then [EvProgress (fst p + 1) total (snd p)] else []).

Lemma happyEvents_join config scriptName onProgress ids : forall total i,
  i + length ids = total ->
  happyEvents config scriptName onProgress total i ids
  = joinWith [EvDelay 200]
      (List.map (successSegment config scriptName onProgress total)
                (combine (List.seq i (length ids)) ids)).
Proof.
  induction ids as [|ident rest IH]; intros total i Hlen; [reflexivity|].
  cbn [happyEvents]. rewrite (IH total (S i)) by (cbn [length] in Hlen; lia).
  change (List.map (successSegment config scriptName onProgress total)
            (combine (List.seq i (length (ident :: rest))) (ident :: rest)))
    with (successSegment config scriptName onProgress total (i, ident)
            :: List.map (successSegment config scriptName onProgress total)
                 (combine (List.seq (S i) (length rest)) rest)).
  unfold pacing. destruct rest as [|ident' rest'].
  - cbn [length List.seq combine List.map joinWith] in *.
    replace (i <? total - 1) with false by (symmetry; apply Nat.ltb_ge; lia).
    rewrite !app_nil_r. reflexivity.
  - rewrite joinWith_cons by (cbn; discriminate).
    cbn [length] in Hlen.
    replace (i <? total - 1) with true by (symmetry; apply Nat.ltb_lt; lia).
    unfold successSegment at 2. cbn [fst snd app].
    destruct onProgress; reflexivity.
Qed.

(** C5.  When every deletion succeeds, the log of a batch of [N]
    identifiers is, for each identifier in the order of the input, its delete
    request followed by the call of the callback, with one pause of 200 ms
    after each identifier that is not the last: [N] requests, [N - 1] pauses
    (none for an empty batch), all of 200 ms; the batch returns the [N]
    identifiers in the order of the input with an empty [failed].  The pause
    does not depend on outcomes: on any remote side the log is the requests
    and events of each identifier in turn (the first a request for it, all
    requests for it, no pause of 200 ms among them), with exactly one pause
    of 200 ms between those of two consecutive identifiers. *)
Theorem all_succeed_batch config scriptName deploymentIds onProgress :
  let total := length deploymentIds in
  let req := deleteRequest config scriptName in
  (forall w,
      (forall n r, succeeds (remote w n r) = true) ->
      exists w' evs,
        deleteDeployments config scriptName deploymentIds onProgress w
          = (Return (mkBatch deploymentIds []), w')
        /\ log w' = log w ++ evs
        /\ evs = joinWith [EvDelay 200]
                   (List.map
                      (fun p => EvFetch (req (snd p))
                                  :: (if onProgress
                                      then [EvProgress (fst p + 1) total (snd p)]
                                      else []))
                      (combine (List.seq 0 total) deploymentIds))
        /\ fetched evs = List.map req deploymentIds
        /\ fetches evs = total
        /\ delays evs = repeat 200%Z (total - 1)
        /\ count_occ Z.eq_dec (delays evs) 200%Z = total - 1)
  /\ (forall w,
      exists res w' segs,
        deleteDeployments config scriptName deploymentIds onProgress w
          = (Return res, w')
        /\ log w' = log w ++ joinWith [EvDelay 200] segs
        /\ Forall2 (fun ident seg =>
                      (exists tl, seg = EvFetch (req ident) :: tl)
                      /\ (forall r, In r (fetched seg) -> r = req ident)
                      /\ ~ In (EvDelay 200) seg)
                   deploymentIds segs
        /\ count_occ Z.eq_dec (delays (joinWith [EvDelay 200] segs)) 200%Z
           = total - 1).
Proof.
  intros total req. split.
  - intros w Hok. unfold deleteDeployments.
    rewrite deleteLoop_happy by exact Hok. cbn [success failed app].
    eexists _, _. split; [reflexivity|]. cbn [log].
    split; [reflexivity|].
    pose proof (happy_fetched config scriptName onProgress
                  (length deploymentIds) deploymentIds 0) as Hf.
    pose proof (happy_delays config scriptName onProgress deploymentIds
                  (length deploymentIds) 0 eq_refl) as Hd.
    split; [exact (happyEvents_join config scriptName onProgress deploymentIds
                     (length deploymentIds) 0 eq_refl)|].
    split; [exact Hf|]. split; [|split; [exact Hd|]].
    + rewrite fetches_fetched, Hf. apply length_map.
    + rewrite Hd. apply (count_occ_repeat_eq Z.eq_dec). reflexivity.
  - intros w.
    destruct (deleteDeployments_segments config scriptName deploymentIds
                onProgress w) as (steps & w' & Hrun & Hids & Hlog & Hall).
    assert (Hsegs : Forall2 (fun ident seg =>
                      (exists tl, seg = EvFetch (req ident) :: tl)
                      /\ (forall r, In r (fetched seg) -> r = req ident)
                      /\ ~ In (EvDelay 200) seg)
                   deploymentIds (segments onProgress total 0 steps)).
    { rewrite <- Hids. apply segments_each.
      eapply Forall_impl; [|exact Hall]. intros st Hst i.
      destruct (goodStep_segment config scriptName onProgress total i st Hst)
        as (Hhd & Hno & _ & Hreq).
      auto. }
    eexists _, w', _. split; [exact Hrun|]. split; [exact Hlog|].
    split; [exact Hsegs|].
    change (pauses (joinWith [EvDelay 200] (segments onProgress total 0 steps))
            = total - 1).
    rewrite joinWith_pauses.
    + rewrite <- (Forall2_length Hsegs). reflexivity.
    + clear - Hsegs. induction Hsegs as [|? ? ? ? (_ & _ & H) _ IH];
        constructor; assumption.
Qed.

Lemma all_succeed_batch_witness :
  exists w',
    deleteDeployments Scenario.config Scenario.script
                      [lit "id1"; lit "id2"; lit "id3"] true Scenario.allOk
      = (Return (mkBatch [lit "id1"; lit "id2"; lit "id3"] []), w')
    /\ log w'
       = [EvFetch (deleteRequest Scenario.config Scenario.script (lit "id1"));
          EvProgress 1 3 (lit "id1");
          EvDelay 200;
          EvFetch (deleteRequest Scenario.config Scenario.script (lit "id2"));
          EvProgress 2 3 (lit "id2");
          EvDelay 200;
          EvFetch (deleteRequest Scenario.config Scenario.script (lit "id3"));
          EvProgress 3 3 (lit "id3")].
Proof.
  destruct (proj1 (all_succeed_batch Scenario.config Scenario.script
                     [lit "id1"; lit "id2"; lit "id3"] true)
                  Scenario.allOk)
    as (w' & evs & Hrun & Hlog & Hevs & _).
  - intros n r. unfold Scenario.allOk, Scenario.scripted. cbn [remote].
    destruct n; reflexivity.
  - exists w'. split; [exact Hrun|]. rewrite Hlog, Hevs. reflexivity.
Defined.

(* ===================================================================== *)
(** ** The progress callback *)
(* ===================================================================== *)









(* ===================================================================== *)
(** ** The retry on a rate limit *)
(* ===================================================================== *)

Lemma rateLimited_inv answer retryAfter :
  rateLimited (requestOutcome answer) = Some retryAfter ->
  exists response,
    answer = Resolves response
    /\ status response = 429%Z
    /\ retryAfter = retryAfterOf (retryAfterHeader response).
Proof.
  destruct answer as [[m|]|response]; cbn; try discriminate.
  destruct (status response =? 429)%Z eqn:E429.
  - cbn. intros H. inversion H; subst. exists response.
    apply Z.eqb_eq in E429. auto.
  - destruct (status response =? 403)%Z; [discriminate|].
    destruct (status response =? 404)%Z; [discriminate|].
    destruct (json response) as [| | |data]; try discriminate.
    destruct (negb (env_success data)); discriminate.
Qed.

(** [(retryAfter || 60) * 1000] as [setTimeout] takes it, case by case. *)
Lemma pause_cases :
  (forall n, (1 <= n <= 2147483)%Z ->
             timeoutOf (waitTime (Some (Int n))) = (n * 1000)%Z)
  /\ (forall n, (n < 0 \/ 2147483 < n)%Z ->
                timeoutOf (waitTime (Some (Int n))) = 1%Z)
  /\ (forall b, timeoutOf (waitTime (Some (Infinity b))) = 1%Z)
  /\ timeoutOf (waitTime None) = 60000%Z
  /\ timeoutOf (waitTime (Some NaN)) = 60000%Z
  /\ timeoutOf (waitTime (Some (Int 0))) = 60000%Z.
Proof.
  assert (H : forall n, n <> 0%Z ->
                timeoutOf (waitTime (Some (Int n))) = timeoutOf (Int (n * 1000))).
  { intros n Hn. unfold waitTime, orDefault.
    destruct (Z.eqb_spec n 0); [contradiction|]. apply timeoutOf_toDouble. }
  split; [|split; [|split; [|repeat split]]].
  - intros n Hn. rewrite H by lia. cbn [timeoutOf].
    destruct (Z.ltb_spec (n * 1000) 1); [lia|].
    destruct (Z.ltb_spec 2147483647 (n * 1000)); [lia|reflexivity].
  - intros n Hn. rewrite H by lia. cbn [timeoutOf].
    destruct (Z.ltb_spec (n * 1000) 1); [reflexivity|].
    destruct (Z.ltb_spec 2147483647 (n * 1000)); [reflexivity|lia].
  - intros []; reflexivity.
Qed.

(** The answer is the rate-limit status. *)
Definition is429 (answer : FetchResult) : bool :=
  match answer with
  | Resolves response => (status response =? 429)%Z
  | Rejects _ => false
  end.

Lemma rateLimited_is429 answer :
  rateLimited (requestOutcome answer)
  = match answer with
    | Resolves response =>
        if is429 answer then Some (retryAfterOf (retryAfterHeader response))
        else None
    | Rejects _ => None
    end.
Proof.
  destruct answer as [[m|]|response]; try reflexivity. cbn.
  destruct (status response =? 429)%Z; [reflexivity|].
  destruct (status response =? 403)%Z; [reflexivity|].
  destruct (status response =? 404)%Z; [reflexivity|].
  destruct (json response) as [| | |data]; try reflexivity.
  destruct (negb (env_success data)); reflexivity.
Qed.



(** [rule] holds of each step, [n] being the number of requests sent before
    the step. *)
Fixpoint stepsFrom (rule : nat -> Step -> Prop) (n : nat) (steps : list Step) :
  Prop :=
  match steps with
  | [] => True
  | st :: rest => rule n st /\ stepsFrom rule (n + fetches (st_events st)) rest
  end.


(** [rule] holds of each identifier and its segment of the log, [n] being the
    number of requests sent before the segment. *)
Fixpoint eachFrom (rule : nat -> jsstring -> list Event -> Prop) (n : nat)
         (ids : list jsstring) (segs : list (list Event)) : Prop :=
  match ids, segs with
  | [], [] => True
  | ident :: ids', seg :: segs' =>
      rule n ident seg /\ eachFrom rule (n + fetches seg) ids' segs'
  | _, _ => False
  end.

Lemma stepsFrom_eachFrom (rule0 : nat -> Step -> Prop)
      (rule : nat -> jsstring -> list Event -> Prop) onProgress total steps :
  (forall n i st,
      rule0 n st ->
      rule n (st_id st) (st_events st ++ notice onProgress total i st)) ->
  forall n i,
    stepsFrom rule0 n steps ->
    eachFrom rule n (List.map st_id steps) (segments onProgress total i steps).
Proof.
  intros Hrule. induction steps as [|st rest IH]; intros n i H; [exact I|].
  cbn [stepsFrom] in H. destruct H as [Hst Hrest].
  cbn [List.map segments eachFrom]. split; [apply Hrule; exact Hst|].
  rewrite fetches_app, (fetched_fetches _ (notice_fetched _ _ _ _)), Nat.add_0_r.
  apply IH. exact Hrest.
Qed.

(** A log with a single pause splits at that pause only. *)
Lemma split_at_delay a x b : forall pre ms post,
  delays a = [] -> delays b = [] ->
  a ++ EvDelay x :: b = pre ++ EvDelay ms :: post ->
  pre = a /\ ms = x /\ post = b.
Proof.
  induction a as [|e a IH]; intros pre ms post Ha Hb H.
  - destruct pre as [|e' pre]; cbn in H.
    + inversion H. auto.
    + inversion H; subst. rewrite delays_app in Hb. cbn in Hb.
      apply app_eq_nil in Hb. destruct Hb as [_ Hb]. discriminate.
  - change (e :: a) with ([e] ++ a) in Ha. rewrite delays_app in Ha.
    apply app_eq_nil in Ha. destruct Ha as [He Ha].
    destruct pre as [|e' pre]; cbn in H.
    + inversion H; subst. discriminate.
    + inversion H; subst.
      destruct (IH _ _ _ Ha Hb H2) as (-> & -> & ->). auto.
Qed.

Lemma no_delay_no_split seg pre ms post :
  delays seg = [] -> seg <> pre ++ EvDelay ms :: post.
Proof.
  intros H ->. rewrite delays_app in H. apply app_eq_nil in H.
  destruct H as [_ H]. discriminate.
Qed.

(** The rule of the retry on a rate limit, for the segment [seg] of the
    identifier whose delete request is [req], [n] requests having been sent
    before and [rm] being the remote side.
    - Every request of the segment is [req].
    - A first answer other than 429: one request, no pause.
    - A first answer 429: the identifier is requested again, at least twice
      and at most three times in all.
    - The first two answers 429: there is a pause.
    - At a pause: it is the only one; every request before it was answered
      with 429, and the pause is [(retryAfter || 60) * 1000] as the timer
      takes it, for the [Retry-After] of one of these answers; exactly one
      request follows. *)
Definition retryRule (rm : nat -> Request -> FetchResult) (req : Request)
           (n : nat) (seg : list Event) : Prop :=
  (forall r, In r (fetched seg) -> r = req)
  /\ (is429 (rm n req) = false -> fetched seg = [req] /\ delays seg = [])
  /\ (is429 (rm n req) = true -> 2 <= fetches seg <= 3)
  /\ (is429 (rm n req) = true -> is429 (rm (S n) req) = true -> delays seg <> [])
  /\ (forall pre ms post,
         seg = pre ++ EvDelay ms :: post ->
         delays pre = [] /\ delays post = [] /\ fetched post = [req]
         /\ (forall k, k < fetches pre -> is429 (rm (n + k) req) = true)
         /\ exists k response,
             k < fetches pre
             /\ rm (n + k) req = Resolves response
             /\ status response = 429%Z
             /\ ms = timeoutOf
                       (waitTime (retryAfterOf (retryAfterHeader response)))).





(* --------------------------------------------------------------------- *)
(** *** The retry block of the later revision *)

Definition revisedResultOf (o : Outcome CloudflareResponse) : Revised.TryResult :=
  match o with
  | Return _ => Revised.Succeeded
  | Throw error =>
      Revised.Failure (formatError error) (isRateLimitError error)
                      (match error with
                       | RateLimitError retryAfter => retryAfter
                       | _ => None
                       end)
  end.

Lemma revised_tryDelete_run config scriptName ident w :
  Revised.tryDelete config scriptName ident w =
  (Return (revisedResultOf
             (requestOutcome (remote w (calls w)
                                (deleteRequest config scriptName ident)))),
   sent (deleteRequest config scriptName ident) w).
Proof.
  unfold Revised.tryDelete, Revised.tryDeleteWith, tryCatch, bind.
  rewrite deleteDeployment_run. destruct (requestOutcome _); reflexivity.
Qed.

(** In the later revision a rate-limited first attempt is followed by the
    pause for its own [Retry-After] and by exactly one more attempt, whose
    result is the one recorded; any other first attempt is final. *)
Lemma revised_attempt_run config scriptName ident w :
  let req := deleteRequest config scriptName ident in
  let first := requestOutcome (remote w (calls w) req) in
  let second := requestOutcome (remote w (S (calls w)) req) in
  Revised.attemptWith deleteDeployment config scriptName ident w =
  match rateLimited first with
  | None => (Return (revisedResultOf first), sent req w)
  | Some retryAfter =>
      (Return (revisedResultOf second),
       sent req (emit (EvDelay (timeoutOf (waitTime retryAfter))) (sent req w)))
  end.
Proof.
  intros req first second. unfold Revised.attemptWith, bind.
  fold (Revised.tryDelete config scriptName ident).
  rewrite revised_tryDelete_run. fold req first.
  destruct first as [data|[ra|m c errs|m|]]; cbn [revisedResultOf rateLimited
    isRateLimitError]; try reflexivity.
  unfold delay. fold (Revised.tryDelete config scriptName ident).
  rewrite revised_tryDelete_run. reflexivity.
Qed.

(** C3 on the code of [cloudflare-api.ts].  Three batches of the single
    identifier [a], each beside the same batch in the later revision of the
    class.
    - 429, then success: the second request deletes the resource, yet [a] is
      recorded as failed with the message of the first attempt and the
      callback is not called; the later revision records the success.
    - 429, then 404: [a] is recorded with the message of the first attempt,
      not with that of the retry; the later revision records the 404.
    - 429, 429, then success: a third request is sent and [a] is recorded as
      succeeded; the later revision stops after two and records the
      failure. *)
Theorem retry_block_evaluated :
  let a := lit "a" in
  let req := deleteRequest Scenario.config Scenario.script a in
  let old answers :=
    deleteDeployments Scenario.config Scenario.script [a] true
                      (Scenario.scripted answers) in
  let new answers :=
    Revised.deleteDeployments Scenario.config Scenario.script [a] true
                              (Scenario.scripted answers) in
  let s1 := [Scenario.tooMany None; Scenario.ok []] in
  let s2 := [Scenario.tooMany None; Scenario.notFound] in
  let s3 := [Scenario.tooMany (Some "5"%string);
             Scenario.tooMany (Some "5"%string); Scenario.ok []] in
  (fst (old s1) = Return (mkBatch [] [(a, rateLimitMessage)])
   /\ log (snd (old s1)) = [EvFetch req; EvFetch req]
   /\ fst (new s1) = Return (mkBatch [a] [])
   /\ log (snd (new s1))
      = [EvFetch req; EvDelay 60000; EvFetch req; EvProgress 1 1 a])
  /\ (fst (old s2) = Return (mkBatch [] [(a, rateLimitMessage)])
      /\ fst (new s2) = Return (mkBatch [] [(a, notFoundMessage)]))
  /\ (fst (old s3) = Return (mkBatch [a] [])
      /\ log (snd (old s3))
         = [EvFetch req; EvFetch req; EvDelay 5000; EvFetch req;
            EvProgress 1 1 a]
      /\ fst (new s3) = Return (mkBatch [] [(a, rateLimitMessage)])
      /\ log (snd (new s3)) = [EvFetch req; EvDelay 5000; EvFetch req]).
Proof.
  cbv zeta. repeat split; vm_compute; reflexivity.
Qed.

(* ===================================================================== *)
(** ** Classification of the responses *)
(* ===================================================================== *)

(** The kinds of failure the specification names.  The code tells them
    apart by the class of the error and by its [statusCode], as
    [deleteCommand] does for 403. *)
Inductive ErrorKind :=
| NotFound
| PermissionDenied
| RateLimited (retryAfterSeconds : option number)
| Transport.

Definition kindOf (e : Thrown) : ErrorKind :=
  match e with
  | RateLimitError retryAfter => RateLimited retryAfter
  | CloudflareAPIError _ (Some c) _ =>
      if (c =? 403)%Z then PermissionDenied
      else if (c =? 404)%Z then NotFound
      else Transport
  | _ => Transport
  end.

Lemma takeWhile_all f s : forallb f s = true -> takeWhile f s = s.
Proof.
  induction s as [|c s IH]; cbn; [reflexivity|].
  destruct (f c); cbn; [|discriminate]. intros H. rewrite IH; auto.
Qed.

(** [parseInt] of a non-empty run of decimal digits is the double nearest
    to its value. *)
Lemma parseInt_digits ds :
  ds <> [] -> forallb isDigit ds = true ->
  parseInt ds = toDouble (digitsValue 0 ds).
Proof.
  destruct ds as [|d ds]; [congruence|]. intros _ H.
  pose proof H as Hall. cbn [forallb] in H. apply andb_prop in H.
  destruct H as [Hd Hds]. unfold isDigit in Hd. apply andb_prop in Hd.
  destruct Hd as [H1 H2]. apply N.leb_le in H1. apply N.leb_le in H2.
  assert (Hcases : (d = 48 \/ d = 49 \/ d = 50 \/ d = 51 \/ d = 52 \/ d = 53
                    \/ d = 54 \/ d = 55 \/ d = 56 \/ d = 57)%N) by lia.
  unfold parseInt.
  repeat (destruct Hcases as [->|Hcases]); try subst d;
    cbn [dropWhile isSpace N.leb N.eqb N.compare Pos.compare Pos.compare_cont
         Pos.eqb andb orb];
    rewrite (takeWhile_all _ _ Hall); reflexivity.
Qed.

Lemma digitsValue_nonneg ds : forall acc,
  forallb isDigit ds = true -> (0 <= acc)%Z -> (0 <= digitsValue acc ds)%Z.
Proof.
  induction ds as [|d ds IH]; intros acc Hd Hacc; [exact Hacc|].
  cbn [forallb] in Hd. apply andb_prop in Hd. destruct Hd as [Hd Hds].
  unfold isDigit in Hd. apply andb_prop in Hd. destruct Hd as [H1 _].
  apply N.leb_le in H1.
  cbn [digitsValue]. apply IH; [exact Hds|]. lia.
Qed.

Lemma digit_not_space c : isDigit c = true -> isSpace c = false.
Proof.
  unfold isDigit. intros H. apply andb_prop in H. destruct H as [H1 H2].
  apply N.leb_le in H1. apply N.leb_le in H2.
  assert (Hcases : (c = 48 \/ c = 49 \/ c = 50 \/ c = 51 \/ c = 52 \/ c = 53
                    \/ c = 54 \/ c = 55 \/ c = 56 \/ c = 57)%N) by lia.
  repeat (destruct Hcases as [->|Hcases]); try subst c; reflexivity.
Qed.

Lemma parseInt_no_number c h :
  isSpace c = false -> c <> 45%N -> c <> 43%N -> isDigit c = false ->
  parseInt (c :: h) = NaN.
Proof.
  intros Hsp H45 H43 Hd. unfold parseInt. cbn [dropWhile]. rewrite Hsp.
  destruct c as [|p];
    [cbv beta iota; cbn [takeWhile]; rewrite Hd; reflexivity|].
  do 6 (try (destruct p as [p|p|]));
    try (exfalso; apply H45; reflexivity);
    try (exfalso; apply H43; reflexivity);
    cbv beta iota; cbn [takeWhile]; rewrite Hd; reflexivity.
Qed.

(** C7, as the code has it.  When [fetch] resolves, [request] classifies
    the response by its status first, whatever the body: 429 throws the
    rate-limit error, 403 the permission error, 404 the not-found error.  The
    rate-limit error carries what [parseInt] makes of the [Retry-After]
    header: nothing when the header is missing or empty; for a header of
    decimal digits the double nearest to their value, which is that value
    below 2^53; NaN for a header that starts with no white space, sign or
    digit.  With any other status: a body that is no JSON text throws an
    error of the transport kind with the sanitized status text; the body
    [null], and a failed envelope whose first message is not a string, throw
    a [TypeError], which is of the transport kind too; any other envelope
    whose [success] is false throws an error of the transport kind whose
    message is the sanitized [errors[0].message], or [Unknown API error]
    when there is no such message or it is empty; an envelope whose
    [success] is true is returned. *)
Theorem request_classification config endpoint httpMethod w response :
  remote w (calls w) (requestFor config endpoint httpMethod) = Resolves response ->
  let outcome := fst (request config endpoint httpMethod w) in
  let other := status response <> 429%Z /\ status response <> 403%Z
               /\ status response <> 404%Z in
  (status response = 429%Z ->
   outcome = Throw (RateLimitError (retryAfterOf (retryAfterHeader response)))
   /\ (forall e, outcome = Throw e ->
                 kindOf e = RateLimited (retryAfterOf (retryAfterHeader response))))
  /\ (retryAfterOf None = None /\ retryAfterOf (Some []) = None)
  /\ (forall ds, ds <> [] -> forallb isDigit ds = true ->
                 retryAfterOf (Some ds) = Some (toDouble (digitsValue 0 ds))
                 /\ ((digitsValue 0 ds < 9007199254740992)%Z ->
                     retryAfterOf (Some ds) = Some (Int (digitsValue 0 ds))))
  /\ (forall c h, isSpace c = false -> c <> 45%N -> c <> 43%N ->
                  isDigit c = false ->
                  retryAfterOf (Some (c :: h)) = Some NaN)
  /\ (status response = 403%Z ->
      outcome = Throw (CloudflareAPIError permissionDeniedMessage (Some 403%Z) None)
      /\ forall e, outcome = Throw e -> kindOf e = PermissionDenied)
  /\ (status response = 404%Z ->
      outcome = Throw (CloudflareAPIError notFoundMessage (Some 404%Z) None)
      /\ forall e, outcome = Throw e -> kindOf e = NotFound)
  /\ (other -> json response = NotJson ->
      outcome = Throw (CloudflareAPIError
                         (sanitize (lit "Failed to parse API response: "
                                      ++ statusText response))
                         (Some (status response)) None)
      /\ forall e, outcome = Throw e -> kindOf e = Transport)
  /\ (other -> json response = JsonNull ->
      outcome = Throw (OtherError nullBodyMessage)
      /\ forall e, outcome = Throw e -> kindOf e = Transport)
  /\ (other -> json response = JsonMessageNotString ->
      outcome = Throw (OtherError notStringMessage)
      /\ forall e, outcome = Throw e -> kindOf e = Transport)
  /\ (other -> forall data, json response = Json data ->
      env_success data = false ->
      outcome = Throw (CloudflareAPIError
                         (sanitize (firstErrorMessage (env_errors data)))
                         (Some (status response)) (env_errors data))
      /\ (forall e, outcome = Throw e -> kindOf e = Transport)
      /\ (forall first rest,
             env_errors data = Some (first :: rest) ->
             message first <> [] ->
             firstErrorMessage (env_errors data) = message first)
      /\ (env_errors data = None \/ env_errors data = Some []
          \/ (exists first rest, env_errors data = Some (first :: rest)
                                 /\ message first = []) ->
          firstErrorMessage (env_errors data) = lit "Unknown API error"))
  /\ (other -> forall data, json response = Json data ->
      env_success data = true -> outcome = Return data).
Proof.
  intros Hr outcome other. subst outcome other.
  rewrite request_run, Hr. cbn [fst requestOutcome].
  split; [|split; [|split; [|split; [|split; [|split; [|split; [|split;
    [|split; [|split]]]]]]]]].
  - intros Hs. rewrite Hs. cbn [Z.eqb Pos.eqb]. split; [reflexivity|].
    intros e He. inversion He; subst. reflexivity.
  - split; reflexivity.
  - intros ds Hne Hd.
    assert (E : retryAfterOf (Some ds) = Some (toDouble (digitsValue 0 ds))).
    { destruct ds as [|c ds]; [congruence|]. cbn [retryAfterOf].
      rewrite parseInt_digits; [reflexivity|discriminate|exact Hd]. }
    split; [exact E|]. intros Hlt. rewrite E, toDouble_small; [reflexivity|].
    pose proof (digitsValue_nonneg ds 0 Hd ltac:(lia)). lia.
  - intros c h Hsp H45 H43 Hd. cbn [retryAfterOf].
    rewrite parseInt_no_number by assumption. reflexivity.
  - intros Hs. rewrite Hs. cbn [Z.eqb Pos.eqb]. split; [reflexivity|].
    intros e He. inversion He; subst. reflexivity.
  - intros Hs. rewrite Hs. cbn [Z.eqb Pos.eqb]. split; [reflexivity|].
    intros e He. inversion He; subst. reflexivity.
  - intros (H429 & H403 & H404) Hj.
    apply Z.eqb_neq in H429, H403, H404. rewrite H429, H403, H404, Hj.
    split; [reflexivity|]. intros e He. inversion He; subst.
    cbn [kindOf]. rewrite H403, H404. reflexivity.
  - intros (H429 & H403 & H404) Hj.
    apply Z.eqb_neq in H429, H403, H404. rewrite H429, H403, H404, Hj.
    split; [reflexivity|]. intros e He. inversion He; subst. reflexivity.
  - intros (H429 & H403 & H404) Hj.
    apply Z.eqb_neq in H429, H403, H404. rewrite H429, H403, H404, Hj.
    split; [reflexivity|]. intros e He. inversion He; subst. reflexivity.
  - intros (H429 & H403 & H404) data Hj Hsucc.
    apply Z.eqb_neq in H429, H403, H404. rewrite H429, H403, H404, Hj, Hsucc.
    cbn [negb]. split; [reflexivity|]. split; [|split].
    + intros e He. inversion He; subst. cbn [kindOf].
      rewrite H403, H404. reflexivity.
    + intros first rest He Hm. rewrite He. cbn [firstErrorMessage].
      destruct (message first); [congruence|reflexivity].
    + intros [He|[He|(first & rest & He & Hm)]]; rewrite He; try reflexivity.
      cbn [firstErrorMessage]. rewrite Hm. reflexivity.
  - intros (H429 & H403 & H404) data Hj Hsucc.
    apply Z.eqb_neq in H429, H403, H404. rewrite H429, H403, H404, Hj, Hsucc.
    reflexivity.
Qed.

Lemma request_classification_witness :
  fst (request Scenario.config
               (deploymentEndpoint Scenario.config Scenario.script (lit "a"))
               (lit "DELETE")
               (Scenario.scripted [Scenario.tooMany (Some "120"%string)]))
  = Throw (RateLimitError (Some (Int 120))).
Proof.
  pose (w := Scenario.scripted [Scenario.tooMany (Some "120"%string)]).
  destruct (request_classification Scenario.config
              (deploymentEndpoint Scenario.config Scenario.script (lit "a"))
              (lit "DELETE") w
              (mkResponse 429 (lit "Too Many Requests") (Some (lit "120"))
                          NotJson)
              eq_refl) as [H429 _].
  exact (proj1 (H429 eq_refl)).
Defined.

(** C7 as stated fails on each of these answers to one delete request.
    - Status 400, a failed envelope whose first message echoes a token: the
      message surfaced is not [errors[0].message], the token is redacted.
    - Status 400, a failed envelope without errors: there is no
      [errors[0].message]; the message is [Unknown API error].
    - Status 403 with a failed envelope: the permission error, not the
      transport one; its message is not that of the envelope.
    - Status 429 with an HTTP date in [Retry-After]: the error carries NaN,
      not an integer; with sixteen digits it carries another integer than
      the header has.
    - Status 200 with the body [null], which is not the expected envelope:
      the error is a [TypeError], not the error of the client. *)
Lemma classification_claim_fails :
  let answerTo response :=
    fst (request Scenario.config
                 (deploymentEndpoint Scenario.config Scenario.script (lit "a"))
                 (lit "DELETE") (Scenario.scripted [Resolves response])) in
  let failed errors := Json (mkEnvelope false [] errors) in
  let echo := mkApiError 10000 (lit "Invalid header value: Bearer s3cr3t") in
  (answerTo (mkResponse 400 (lit "Bad Request") None (failed (Some [echo])))
   = Throw (CloudflareAPIError (lit "Invalid header value: Bearer [REDACTED]")
                               (Some 400%Z) (Some [echo]))
   /\ lit "Invalid header value: Bearer [REDACTED]" <> message echo)
  /\ answerTo (mkResponse 400 (lit "Bad Request") None (failed None))
     = Throw (CloudflareAPIError (lit "Unknown API error") (Some 400%Z) None)
  /\ (answerTo (mkResponse 403 (lit "Forbidden") None (failed (Some [echo])))
      = Throw (CloudflareAPIError permissionDeniedMessage (Some 403%Z) None)
      /\ kindOf (CloudflareAPIError permissionDeniedMessage (Some 403%Z) None)
         = PermissionDenied)
  /\ answerTo (mkResponse 429 (lit "Too Many Requests")
                          (Some (lit "Wed, 21 Oct 2015 07:28:00 GMT")) NotJson)
     = Throw (RateLimitError (Some NaN))
  /\ answerTo (mkResponse 429 (lit "Too Many Requests")
                          (Some (lit "9007199254740993")) NotJson)
     = Throw (RateLimitError (Some (Int 9007199254740992)))
  /\ answerTo (mkResponse 200 (lit "OK") None JsonNull)
     = Throw (OtherError nullBodyMessage).
Proof.
  cbv zeta. repeat split; try (vm_compute; reflexivity).
  vm_compute. discriminate.
Qed.

(* ===================================================================== *)
(** ** Sanitized messages *)
(* ===================================================================== *)

(** C10.  [sanitize] is idempotent: sanitizing a sanitized message changes
    nothing; in particular the redaction marker itself is left as it is. *)
Theorem sanitize_idempotent :
  (forall m, sanitize (sanitize m) = sanitize m)
  /\ sanitize (lit "Bearer [REDACTED]") = lit "Bearer [REDACTED]".
Proof.
  split; [intros m; apply replaceBearer_idempotent|reflexivity].
Qed.

Lemma fixed_messages_clean :
  clean rateLimitMessage /\ clean permissionDeniedMessage /\ clean notFoundMessage.
Proof. repeat split; vm_compute; reflexivity. Qed.

(** Every error [request] throws on a response carries a message that
    [sanitize] leaves as it is. *)
Lemma request_errors_clean config endpoint httpMethod w response e :
  remote w (calls w) (requestFor config endpoint httpMethod) = Resolves response ->
  fst (request config endpoint httpMethod w) = Throw e ->
  exists m, messageOf e = Some m /\ clean m.
Proof.
  intros Hr. rewrite request_run, Hr. cbn [fst requestOutcome].
  destruct fixed_messages_clean as (Hrl & Hpd & Hnf).
  destruct (status response =? 429)%Z.
  { intros H. inversion H; subst. eexists. split; [reflexivity|exact Hrl]. }
  destruct (status response =? 403)%Z.
  { intros H. inversion H; subst. eexists. split; [reflexivity|exact Hpd]. }
  destruct (status response =? 404)%Z.
  { intros H. inversion H; subst. eexists. split; [reflexivity|exact Hnf]. }
  destruct (json response) as [| | |data].
  - intros H. inversion H; subst. eexists. split; [reflexivity|].
    apply sanitize_idem.
  - intros H. inversion H; subst. eexists. split; [reflexivity|].
    vm_compute. reflexivity.
  - intros H. inversion H; subst. eexists. split; [reflexivity|].
    vm_compute. reflexivity.
  - destruct (negb (env_success data)); [|discriminate].
    intros H. inversion H; subst. eexists. split; [reflexivity|].
    apply sanitize_idem.
Qed.

Lemma failuresOf_clean config scriptName steps :
  Forall (goodStep config scriptName) steps ->
  Forall (fun p => clean (snd p)) (failuresOf steps).
Proof.
  induction 1 as [|st rest [_ Hclean] _ IH]; [constructor|].
  cbn [failuresOf]. unfold cleanResult in Hclean.
  destruct (st_result st); [exact IH|]. constructor; assumption.
Qed.

(** Every message of the batch report went through [sanitize], whatever
    was thrown, a rejection of [fetch] included. *)
Lemma batch_errors_clean config scriptName deploymentIds onProgress w res w' :
  deleteDeployments config scriptName deploymentIds onProgress w = (Return res, w') ->
  Forall (fun p => clean (snd p)) (failed res).
Proof.
  destruct (deleteDeployments_steps config scriptName deploymentIds onProgress w)
    as (steps & w1 & Hrun & _ & _ & _ & Hall).
  rewrite Hrun. intros H. inversion H; subst.
  rewrite loopResult_eq. cbn [failed app].
  eapply failuresOf_clean; eauto.
Qed.

(** A rejection of [fetch] that echoes the [Authorization] header. *)
Definition leaked : jsstring := lit "Invalid header value: Bearer s3cr3t".

(** C8 on the code.  [request] has no handler around [fetch]: when [fetch]
    itself rejects with a message that echoes the bearer credential, the
    listing step throws that message as it is and [deleteCommand] logs it,
    token included.  The batch path sanitizes the very same rejection in
    [formatError]. *)
Theorem listing_error_unsanitized :
  let w := Scenario.scripted [Rejects (RejectError leaked)] in
  let options := mkOptions false false true in
  let term := mkTerminal (fun _ => true) true in
  fst (listDeployments Scenario.config Scenario.script w)
    = Throw (OtherError leaked)
  /\ fst (deleteCommand Scenario.config Scenario.script options term w) = Aborted
  /\ log (snd (deleteCommand Scenario.config Scenario.script options term w))
     = [EvFetch (listRequest Scenario.config Scenario.script);
        EvLogError leaked]
  /\ sanitize leaked = lit "Invalid header value: Bearer [REDACTED]"
  /\ fst (deleteDeployments Scenario.config Scenario.script [lit "a"] false w)
     = Return (mkBatch []
                 [(lit "a", lit "Invalid header value: Bearer [REDACTED]")]).
Proof.
  cbv zeta. repeat split; vm_compute; reflexivity.
Qed.

(* ===================================================================== *)
(** ** Selection and dispatch in [deleteCommand] *)
(* ===================================================================== *)

(** The entries at the ticked positions, the first of the list being at
    position [index]. *)
Fixpoint tickedFrom (ticks : nat -> bool) (index : nat)
         (deployments : list Deployment) : list Deployment :=
  match deployments with
  | [] => []
  | d :: rest =>
      if ticks index then d :: tickedFrom ticks (S index) rest
      else tickedFrom ticks (S index) rest
  end.

Lemma checkboxFrom_enabled ticks deployments : forall index,
  checkboxFrom ticks (S index) (choicesFrom (S index) deployments)
  = tickedFrom ticks (S index) deployments.
Proof.
  induction deployments as [|d rest IH]; intros index; [reflexivity|].
  cbn [choicesFrom checkboxFrom tickedFrom value disabled Nat.eqb negb].
  rewrite andb_true_r, IH. reflexivity.
Qed.

(** The picker never returns the entry at position 0. *)
Lemma selectDeploymentsToDelete_eq ticks deployments :
  selectDeploymentsToDelete ticks deployments
  = tickedFrom ticks 1 (skipn 1 deployments).
Proof.
  unfold selectDeploymentsToDelete, checkbox.
  destruct deployments as [|d rest]; [reflexivity|].
  cbn [length Nat.eqb choicesFrom checkboxFrom disabled negb skipn].
  rewrite andb_false_r. apply checkboxFrom_enabled.
Qed.

Lemma tickedFrom_In ticks deployments : forall index d,
  In d (tickedFrom ticks index deployments) -> In d deployments.
Proof.
  induction deployments as [|d0 rest IH]; intros index d H; [contradiction|].
  cbn [tickedFrom] in H. destruct (ticks index).
  - destruct H as [H|H]; [left; exact H|right; eapply IH; eauto].
  - right. eapply IH; eauto.
Qed.

Lemma tickedFrom_NoDup ticks deployments : forall index,
  NoDup (List.map id deployments) ->
  NoDup (List.map id (tickedFrom ticks index deployments)).
Proof.
  induction deployments as [|d0 rest IH]; intros index H; [constructor|].
  inversion H as [|? ? Hnotin Hrest]; subst. cbn [tickedFrom].
  destruct (ticks index); [|apply IH; exact Hrest].
  cbn [List.map]. constructor; [|apply IH; exact Hrest].
  intros Hin. apply Hnotin. apply in_map_iff in Hin.
  destruct Hin as (d & Hd & Hin). apply in_map_iff. exists d.
  split; [exact Hd|]. eapply tickedFrom_In; eauto.
Qed.

Lemma tickedFrom_count ticks deployments x : forall index,
  countIn (List.map id (tickedFrom ticks index deployments)) x
  <= countIn (List.map id deployments) x.
Proof.
  unfold countIn.
  induction deployments as [|d0 rest IH]; intros index; [constructor|].
  cbn [tickedFrom List.map count_occ]. specialize (IH (S index)).
  destruct (ticks index); cbn [List.map count_occ];
    destruct (jsstring_eq_dec (id d0) x); lia.
Qed.

Lemma tickedFrom_all ticks deployments : forall index,
  (forall n, ticks n = true) -> tickedFrom ticks index deployments = deployments.
Proof.
  induction deployments as [|d0 rest IH]; intros index H; [reflexivity|].
  cbn [tickedFrom]. rewrite H, IH by exact H. reflexivity.
Qed.

Lemma selectToDelete_In options term deployments d :
  In d (selectToDelete options term deployments) ->
  In d (skipn 1 deployments).
Proof.
  unfold selectToDelete. destruct (all options); [auto|].
  rewrite selectDeploymentsToDelete_eq. apply tickedFrom_In.
Qed.

(** What [printFailed] adds to the log. *)
Definition printed (failures : list (jsstring * jsstring)) : list Event :=
  List.map (fun p => EvPrintFailed (firstn 8 (fst p)) (snd p)) failures.

Lemma printFailed_run failures : forall w,
  printFailed failures w =
  (Return tt, mkWorld (remote w) (calls w) (log w ++ printed failures)).
Proof.
  induction failures as [|[ident error] rest IH]; intros w.
  - cbn. rewrite app_nil_r. destruct w; reflexivity.
  - cbn [printFailed]. unfold bind. rewrite IH. unfold emit.
    cbn [remote calls log printed List.map fst snd].
    rewrite <- app_assoc. reflexivity.
Qed.

(** The two ways [deleteCommand] goes once the listing has returned: it
    stops before any deletion, or it hands the identifiers of [toDelete] to
    the engine, as they are. *)
Lemma deleteCommand_cases config scriptName options term w deployments :
  fst (listDeployments config scriptName w) = Return deployments ->
  let w1 := sent (listRequest config scriptName) w in
  let toDelete := selectToDelete options term deployments in
  (snd (deleteCommand config scriptName options term w) = w1
   /\ forall res,
       fst (deleteCommand config scriptName options term w) <> Completed res)
  \/ (exists res w2,
         deleteDeployments config scriptName (List.map id toDelete) true w1
           = (Return res, w2)
         /\ deleteCommand config scriptName options term w
            = (Completed res,
               mkWorld (remote w2) (calls w2)
                       (log w2 ++ printed (failed res)))).
Proof.
  intros Hlist w1 toDelete.
  assert (Hrun : listDeployments config scriptName w = (Return deployments, w1)).
  { rewrite listDeployments_run in *. cbn [fst] in Hlist. rewrite Hlist.
    reflexivity. }
  unfold deleteCommand, deleteCommandBody, bind. rewrite Hrun.
  fold toDelete.
  destruct (length deployments =? 0);
    [left; split; [reflexivity|discriminate]|].
  destruct (length deployments =? 1);
    [left; split; [reflexivity|discriminate]|].
  destruct (length toDelete =? 0);
    [left; split; [reflexivity|discriminate]|].
  destruct (dryRun options);
    [left; split; [reflexivity|discriminate]|].
  destruct (negb _); [left; split; [reflexivity|discriminate]|].
  right.
  destruct (deleteDeployments_steps config scriptName (List.map id toDelete)
              true w1) as (steps & w2 & Hdel & _).
  exists (loopResult (mkBatch [] []) steps), w2. split; [exact Hdel|].
  rewrite Hdel, printFailed_run. reflexivity.
Qed.

Lemma deleteRequest_inj config scriptName x y :
  deleteRequest config scriptName x = deleteRequest config scriptName y -> x = y.
Proof.
  unfold deleteRequest, requestFor, deploymentEndpoint. intros H.
  injection H as H. apply app_inv_head in H.
  injection H as H. exact H.
Qed.

Lemma listRequest_not_delete config scriptName x :
  listRequest config scriptName <> deleteRequest config scriptName x.
Proof.
  intros H. apply (f_equal method) in H. vm_compute in H. discriminate.
Qed.

Lemma loopEvents_fetched_from config scriptName onProgress total steps :
  forall i r,
    Forall (goodStep config scriptName) steps ->
    In r (fetched (loopEvents onProgress total i steps)) ->
    exists x, In x (List.map st_id steps)
              /\ r = deleteRequest config scriptName x.
Proof.
  induction steps as [|st rest IH]; intros i r Hall Hin; [contradiction|].
  inversion Hall as [|? ? [Htr _] Hrest]; subst.
  cbn [loopEvents] in Hin. rewrite !fetched_app in Hin.
  apply in_app_or in Hin. destruct Hin as [Hin|Hin].
  - exists (st_id st). split; [left; reflexivity|].
    eapply attemptTrace_fetched; eauto.
  - apply in_app_or in Hin. destruct Hin as [Hin|Hin].
    { unfold notice in Hin. destruct (st_result st), onProgress; contradiction. }
    apply in_app_or in Hin. destruct Hin as [Hin|Hin].
    { unfold pacing in Hin. destruct (i <? total - 1); contradiction. }
    destruct (IH _ _ Hrest Hin) as (x & Hx & Hr).
    exists x. split; [right; exact Hx|exact Hr].
Qed.

Lemma printed_fetched failures : fetched (printed failures) = [].
Proof. induction failures as [|p rest IH]; [reflexivity|exact IH]. Qed.

(** The requests [deleteCommand] sends once the listing has returned: the
    listing itself and delete requests for identifiers of [toDelete]. *)
Lemma deleteCommand_fetched config scriptName options term w deployments :
  fst (listDeployments config scriptName w) = Return deployments ->
  exists evs,
    log (snd (deleteCommand config scriptName options term w)) = log w ++ evs
    /\ forall r, In r (fetched evs) ->
         r = listRequest config scriptName
         \/ exists x,
             In x (List.map id (selectToDelete options term deployments))
             /\ r = deleteRequest config scriptName x.
Proof.
  intros Hlist.
  destruct (deleteCommand_cases config scriptName options term w deployments
              Hlist) as [[Hw _]|(res & w2 & Hdel & Hcmd)].
  - exists [EvFetch (listRequest config scriptName)]. rewrite Hw.
    split; [reflexivity|]. intros r [Hr|[]]. left. symmetry. exact Hr.
  - destruct (deleteDeployments_steps config scriptName
                (List.map id (selectToDelete options term deployments)) true
                (sent (listRequest config scriptName) w))
      as (steps & w2' & Hrun & Hids & Hlog & _ & Hall).
    rewrite Hrun in Hdel. inversion Hdel; subst res w2'.
    eexists. rewrite Hcmd. cbn [snd log]. rewrite Hlog.
    unfold sent. cbn [log]. rewrite <- !app_assoc. split; [reflexivity|].
    intros r Hin. cbn [app] in Hin.
    change (EvFetch ?q :: ?l) with ([EvFetch q] ++ l) in Hin.
    rewrite !fetched_app, printed_fetched, app_nil_r in Hin.
    destruct Hin as [Hin|Hin]; [left; symmetry; exact Hin|]. right.
    destruct (loopEvents_fetched_from config scriptName _ _ steps _ _ Hall Hin)
      as (x & Hx & Hr).
    exists x. rewrite <- Hids. auto.
Qed.

(** C1, as the code has it.  When the identifier at position 0 of the
    listing does not recur further down the list, it is not selected in
    either mode (the command works on [deployments.slice(1)] and the picker
    disables position 0), [deleteCommand] never sends a delete request for
    it, and it is in neither list of the report.  The exclusion is made by
    [deleteCommand] and the picker alone: the entry point of the engine has
    no check, and sends a delete request for every identifier it is given,
    that of position 0 included. *)
Theorem active_excluded_by_command config scriptName options term w
        deployments active :
  fst (listDeployments config scriptName w) = Return deployments ->
  hd_error deployments = Some active ->
  ~ In (id active) (List.map id (skipn 1 deployments)) ->
  ~ In (id active) (List.map id (selectToDelete options term deployments))
  /\ (exists evs,
         log (snd (deleteCommand config scriptName options term w))
           = log w ++ evs
         /\ ~ In (deleteRequest config scriptName (id active)) (fetched evs))
  /\ (forall res,
         fst (deleteCommand config scriptName options term w) = Completed res ->
         ~ In (id active) (success res) /\ ~ In (id active) (failedIds res))
  /\ (forall ids onProgress w0,
         In (id active) ids ->
         In (EvFetch (deleteRequest config scriptName (id active)))
            (log (snd (deleteDeployments config scriptName ids onProgress w0)))).
Proof.
  intros Hlist Hhd Hnotin.
  assert (Hsel : ~ In (id active)
                   (List.map id (selectToDelete options term deployments))).
  { intros Hin. apply Hnotin. apply in_map_iff in Hin.
    destruct Hin as (d & Hd & Hin). apply selectToDelete_In in Hin.
    apply in_map_iff. exists d. auto. }
  split; [exact Hsel|]. split; [|split].
  - destruct (deleteCommand_fetched config scriptName options term w
                deployments Hlist) as (evs & Hlog & Hfetched).
    exists evs. split; [exact Hlog|]. intros Hin.
    destruct (Hfetched _ Hin) as [Hr|(x & Hx & Hr)].
    + symmetry in Hr. exact (listRequest_not_delete _ _ _ Hr).
    + apply deleteRequest_inj in Hr. subst x. exact (Hsel Hx).
  - intros res Hres.
    destruct (deleteCommand_cases config scriptName options term w
                deployments Hlist) as [[_ Hno]|(res' & w2 & Hdel & Hcmd)].
    + exfalso. exact (Hno _ Hres).
    + rewrite Hcmd in Hres. cbn [fst] in Hres. inversion Hres; subst res'.
      destruct (batch_report_partition_aux config scriptName
                  (List.map id (selectToDelete options term deployments))
                  true (sent (listRequest config scriptName) w) res w2 Hdel)
        as [Hperm _].
      split; intros Hin; apply Hsel;
        apply (Permutation_in _ (Permutation_sym Hperm));
        apply in_or_app; [left|right]; exact Hin.
  - intros ids onProgress w0 Hin.
    destruct (deleteDeployments_steps config scriptName ids onProgress w0)
      as (steps & w' & Hrun & Hids & Hlog & _ & Hall).
    rewrite Hrun. cbn [snd]. rewrite Hlog. apply in_or_app. right.
    eapply loopEvents_fetched; [exact Hall|]. rewrite Hids. exact Hin.
Qed.

Lemma active_excluded_by_command_witness :
  let deployments := [Scenario.deployment "id0"; Scenario.deployment "id1";
                      Scenario.deployment "id1"] in
  let w := Scenario.scripted [Scenario.ok deployments] in
  let options := mkOptions false true true in
  let term := mkTerminal (fun _ => true) true in
  fst (deleteCommand Scenario.config Scenario.script options term w)
    = Completed (mkBatch [lit "id1"; lit "id1"] [])
  /\ ~ In (lit "id0") (List.map id (selectToDelete options term deployments))
  /\ ~ In (lit "id0") [lit "id1"; lit "id1"]
  /\ exists evs,
       log (snd (deleteCommand Scenario.config Scenario.script options term w))
         = log w ++ evs
       /\ ~ In (deleteRequest Scenario.config Scenario.script (lit "id0"))
               (fetched evs).
Proof.
  intros deployments w options term.
  assert (Hrun : fst (deleteCommand Scenario.config Scenario.script options
                        term w)
                 = Completed (mkBatch [lit "id1"; lit "id1"] []))
    by (vm_compute; reflexivity).
  destruct (active_excluded_by_command Scenario.config Scenario.script
              options term w deployments (Scenario.deployment "id0"))
    as (Hsel & Hsent & Hres & _).
  - reflexivity.
  - reflexivity.
  - simpl. intuition discriminate.
  - split; [exact Hrun|]. split; [exact Hsel|].
    split; [exact (proj1 (Hres _ Hrun))|exact Hsent].
Defined.

(** C1 as stated fails in two places.  At the entry point of the engine:
    given the identifier of position 0, it deletes it.  In [deleteCommand],
    where the exclusion is by position: when the listing carries the
    identifier of position 0 a second time, the command run on all
    deployments sends a delete request for it and reports it deleted. *)
Lemma active_not_protected :
  let id0 := Scenario.deployment "id0" in
  let run := deleteDeployments Scenario.config Scenario.script
               [lit "id0"] false Scenario.allOk in
  let command := deleteCommand Scenario.config Scenario.script
                   (mkOptions false true true)
                   (mkTerminal (fun _ => true) true)
                   (Scenario.scripted [Scenario.ok [id0; id0]]) in
  (id id0 = lit "id0"
   /\ fst run = Return (mkBatch [lit "id0"] [])
   /\ fetched (log (snd run))
      = [deleteRequest Scenario.config Scenario.script (lit "id0")])
  /\ (hd_error [id0; id0] = Some id0
      /\ In (id id0) (List.map id (selectToDelete (mkOptions false true true)
                                     (mkTerminal (fun _ => true) true)
                                     [id0; id0]))
      /\ fst command = Completed (mkBatch [lit "id0"] [])
      /\ fetched (log (snd command))
         = [listRequest Scenario.config Scenario.script;
            deleteRequest Scenario.config Scenario.script (lit "id0")]).
Proof.
  cbv zeta. repeat split; try (vm_compute; reflexivity).
  left. reflexivity.
Qed.

(** C9, as the code has it.  In interactive mode the selection is the list
    of the entries at the ticked positions from 1 on, in the order of the
    listing, each ticked position once; when the command goes on to delete,
    the engine is run on the identifiers of exactly that list, with no step
    in between that removes a repeated identifier.  An identifier is
    submitted at most as often as the listing carries it beyond position 0:
    once at most when the listed identifiers are pairwise distinct. *)
Theorem interactive_dispatch config scriptName options term w deployments :
  all options = false ->
  fst (listDeployments config scriptName w) = Return deployments ->
  let toDelete := tickedFrom (ticked term) 1 (skipn 1 deployments) in
  selectToDelete options term deployments = toDelete
  /\ (forall res,
         fst (deleteCommand config scriptName options term w) = Completed res ->
         exists w2,
           deleteDeployments config scriptName (List.map id toDelete) true
                             (sent (listRequest config scriptName) w)
             = (Return res, w2)
           /\ Permutation (List.map id toDelete) (success res ++ failedIds res))
  /\ (forall x, countIn (List.map id toDelete) x
                <= countIn (List.map id (skipn 1 deployments)) x)
  /\ (NoDup (List.map id deployments) -> NoDup (List.map id toDelete)).
Proof.
  intros Hall Hlist toDelete.
  assert (Hsel : selectToDelete options term deployments = toDelete).
  { unfold selectToDelete. rewrite Hall. apply selectDeploymentsToDelete_eq. }
  split; [exact Hsel|]. split; [|split].
  - intros res Hres.
    destruct (deleteCommand_cases config scriptName options term w
                deployments Hlist) as [[_ Hno]|(res' & w2 & Hdel & Hcmd)].
    + exfalso. exact (Hno _ Hres).
    + rewrite Hcmd in Hres. cbn [fst] in Hres. inversion Hres; subst res'.
      rewrite Hsel in Hdel. exists w2. split; [exact Hdel|].
      exact (proj1 (batch_report_partition_aux _ _ _ _ _ _ _ Hdel)).
  - intros x. apply tickedFrom_count.
  - intros Hnd. apply tickedFrom_NoDup.
    destruct deployments as [|d0 rest]; [constructor|].
    cbn [List.map skipn] in *. inversion Hnd; assumption.
Qed.

Lemma interactive_dispatch_witness :
  let deployments := [Scenario.deployment "id0"; Scenario.deployment "id1";
                      Scenario.deployment "id2"] in
  let w := Scenario.scripted [Scenario.ok deployments] in
  let options := mkOptions false true false in
  let term := mkTerminal (fun n => Nat.eqb n 0 || Nat.eqb n 2) true in
  selectToDelete options term deployments = [Scenario.deployment "id2"]
  /\ NoDup (List.map id [Scenario.deployment "id2"]).
Proof.
  intros deployments w options term.
  destruct (interactive_dispatch Scenario.config Scenario.script options term
              w deployments eq_refl eq_refl) as (Hsel & _ & _ & Hnd).
  split; [exact Hsel|]. apply Hnd.
  repeat constructor; simpl; intuition discriminate.
Defined.

(** C9 as stated fails when the listing carries one identifier at two
    ticked positions: both entries are selected and the identifier is
    submitted, and requested, twice. *)
Lemma selection_keeps_duplicates :
  let deployments := [Scenario.deployment "id0"; Scenario.deployment "id1";
                      Scenario.deployment "id1"] in
  let w := Scenario.scripted [Scenario.ok deployments; Scenario.ok [];
                              Scenario.notFound] in
  let options := mkOptions false true false in
  let term := mkTerminal (fun _ => true) true in
  let run := deleteCommand Scenario.config Scenario.script options term w in
  List.map id (selectToDelete options term deployments)
    = [lit "id1"; lit "id1"]
  /\ fst run = Completed (mkBatch [lit "id1"] [(lit "id1", notFoundMessage)])
  /\ fetched (log (snd run))
     = [listRequest Scenario.config Scenario.script;
        deleteRequest Scenario.config Scenario.script (lit "id1");
        deleteRequest Scenario.config Scenario.script (lit "id1")].
Proof.
  cbv zeta. repeat split; vm_compute; reflexivity.
Qed.

(* --------------------------------------------------------------------- *)
(** *** What [sanitize] leaves behind *)

Example sanitize_header :
  show (sanitize (lit "sent Authorization: bearer   abc.DEF-123; retry"))
  = "sent Authorization: Bearer [REDACTED] retry"%string.
Proof. reflexivity. Qed.

Example sanitize_two_tokens :
  show (sanitize (lit "BEARER x and Bearer y"))
  = "Bearer [REDACTED] and Bearer [REDACTED]"%string.
Proof. reflexivity. Qed.

Example sanitize_needs_a_token :
  show (sanitize (lit "Bearer ")) = "Bearer "%string.
Proof. reflexivity. Qed.

(** No suffix of the marker other than the marker itself starts a match,
    whatever follows it. *)
Lemma redacted_inner pre suf t :
  pre ++ suf = redacted ++ t ->
  pre = []
  \/ (exists pre', pre = redacted ++ pre' /\ t = pre' ++ suf)
  \/ matchAt suf = None.
Proof.
  unfold redacted. intros H.
  destruct pre as [|p0 pre]; [left; reflexivity|right].
  cbn [app] in H. injection H as -> H.
  repeat (destruct pre as [|? pre];
          [right; cbn [app] in H; subst suf; reflexivity
          | cbn [app] in H; injection H as -> H]).
  left. exists pre. split; [reflexivity|]. symmetry. exact H.
Qed.

(** After [sanitize], the pattern matches only where a marker stands, and
    what it matches there is the marker: no other bearer credential is
    left. *)
Lemma sanitize_redacts_all_aux : forall n s,
  length s < n ->
  forall pre suf r,
    sanitize s = pre ++ suf -> matchAt suf = Some r -> suf = redacted ++ r.
Proof.
  unfold sanitize.
  induction n as [|n IH]; intros s Hn pre suf r Hs Hm; [lia|].
  destruct s as [|c s].
  - rewrite replaceBearer_nil in Hs. symmetry in Hs.
    apply app_eq_nil in Hs. destruct Hs as [_ ->]. discriminate.
  - destruct (matchAt (c :: s)) as [r0|] eqn:E.
    + rewrite (replaceBearer_match _ _ _ E) in Hs. symmetry in Hs.
      pose proof (matchAt_shorter _ _ E) as Hlen. cbn [length] in Hlen, Hn.
      destruct (redacted_inner _ _ _ Hs) as [->|[(pre' & -> & Ht)|Hnone]].
      * cbn [app] in Hs. subst suf.
        pose proof (replaceBearer_boundary _ (matchAt_boundary _ _ E)) as Hb.
        rewrite (matchAt_redacted _ Hb) in Hm. inversion Hm; subst.
        reflexivity.
      * apply (IH r0 ltac:(lia) pre' suf r Ht Hm).
      * congruence.
    + rewrite (replaceBearer_nomatch _ _ E) in Hs.
      destruct pre as [|p pre].
      * cbn [app] in Hs. subst suf.
        rewrite (matchAt_replaceBearer_None _ _ E) in Hm. discriminate.
      * cbn [app] in Hs. injection Hs as -> Hs. cbn [length] in Hn.
        apply (IH s ltac:(lia) pre suf r Hs Hm).
Qed.

Lemma sanitize_redacts_all m pre suf r :
  sanitize m = pre ++ suf -> matchAt suf = Some r -> suf = redacted ++ r.
Proof. apply (sanitize_redacts_all_aux (S (length m))). lia. Qed.

(* ===================================================================== *)
(** ** More on [sanitize] *)
(* ===================================================================== *)

(** The pattern matches somewhere in [s]. *)
Fixpoint hasMatch (s : jsstring) : bool :=
  match s with
  | [] => false
  | _ :: s' =>
      match matchAt s with
      | Some _ => true
      | None => hasMatch s'
      end
  end.

(** X1.  A message in which the pattern matches nowhere is returned by
    [sanitize] as it is. *)
Theorem sanitize_without_match m : hasMatch m = false -> sanitize m = m.
Proof.
  unfold sanitize. induction m as [|c m IH]; [reflexivity|].
  cbn [hasMatch]. destruct (matchAt (c :: m)) eqn:E; [discriminate|].
  intros H. rewrite (replaceBearer_nomatch _ _ E), IH by exact H. reflexivity.
Qed.

Lemma sanitize_without_match_witness :
  sanitize notFoundMessage = notFoundMessage.
Proof.
  apply (sanitize_without_match notFoundMessage). vm_compute. reflexivity.
Defined.

(** X2.  A message in which the pattern matches somewhere comes out of
    [sanitize] with the redaction marker in it. *)
Theorem sanitize_marks_match m :
  hasMatch m = true -> exists pre post, sanitize m = pre ++ redacted ++ post.
Proof.
  unfold sanitize. induction m as [|c m IH]; [discriminate|].
  cbn [hasMatch]. destruct (matchAt (c :: m)) as [r|] eqn:E.
  - intros _. exists [], (replaceBearer r).
    rewrite (replaceBearer_match _ _ _ E). reflexivity.
  - intros H. destruct (IH H) as (pre & post & Hs).
    exists (c :: pre), post. rewrite (replaceBearer_nomatch _ _ E), Hs.
    reflexivity.
Qed.

Lemma sanitize_marks_match_witness :
  exists pre post, sanitize leaked = pre ++ redacted ++ post.
Proof.
  apply (sanitize_marks_match leaked). vm_compute. reflexivity.
Defined.

(** X3.  In a sanitized message the pattern matches only where a marker
    stands, and what it matches there is exactly the marker: whatever followed
    the word Bearer in the message is gone. *)
Theorem sanitize_only_markers m pre suf r :
  sanitize m = pre ++ suf -> matchAt suf = Some r ->
  suf = redacted ++ r /\ atBoundary r = true.
Proof.
  intros Hs Hm. split; [eapply sanitize_redacts_all; eauto|].
  eapply matchAt_boundary; eauto.
Qed.

Lemma sanitize_only_markers_witness :
  lit "Bearer [REDACTED] and more" = redacted ++ lit " and more"
  /\ atBoundary (lit " and more") = true.
Proof.
  apply (sanitize_only_markers (lit "token: bearer abc123 and more")
                               (lit "token: ") (lit "Bearer [REDACTED] and more")
                               (lit " and more")).
  - vm_compute. reflexivity.
  - vm_compute. reflexivity.
Defined.

(** X4.  Every message of a batch report is one [sanitize] leaves as it
    is, and the pattern matches in it only at redaction markers: no bearer
    credential reaches the report, whatever was thrown during the batch. *)
Theorem report_messages_redacted config scriptName deploymentIds onProgress w
        res w' ident msg :
  deleteDeployments config scriptName deploymentIds onProgress w = (Return res, w') ->
  In (ident, msg) (failed res) ->
  sanitize msg = msg
  /\ forall pre suf r,
       msg = pre ++ suf -> matchAt suf = Some r -> suf = redacted ++ r.
Proof.
  intros Hrun Hin.
  pose proof (batch_errors_clean _ _ _ _ _ _ _ Hrun) as Hall.
  rewrite Forall_forall in Hall. specialize (Hall _ Hin). cbn [snd] in Hall.
  split; [exact Hall|]. intros pre suf r Hsplit Hm.
  apply (sanitize_redacts_all msg pre suf r); [|exact Hm].
  rewrite Hall. exact Hsplit.
Qed.

Lemma report_messages_redacted_witness :
  sanitize (lit "Invalid header value: Bearer [REDACTED]")
  = lit "Invalid header value: Bearer [REDACTED]".
Proof.
  pose (w := Scenario.scripted [Rejects (RejectError leaked)]).
  refine (proj1 (report_messages_redacted Scenario.config Scenario.script
                   [lit "a"] false w
                   (mkBatch [] [(lit "a",
                                 lit "Invalid header value: Bearer [REDACTED]")])
                   (snd (deleteDeployments Scenario.config Scenario.script
                                           [lit "a"] false w))
                   (lit "a") (lit "Invalid header value: Bearer [REDACTED]")
                   _ _)).
  - vm_compute. reflexivity.
  - left. reflexivity.
Defined.

(* ===================================================================== *)
(** ** More on the client *)
(* ===================================================================== *)

(** X5.  [request] returns exactly when [fetch] resolves with a status
    other than 429, 403 and 404 and a body that parses to an envelope whose
    [success] is true; what it returns is that envelope.  The status is not
    looked at otherwise: a success envelope under status 500 is returned like
    one under 200. *)
Theorem request_returns_iff config endpoint httpMethod w data :
  fst (request config endpoint httpMethod w) = Return data
  <-> exists response,
        remote w (calls w) (requestFor config endpoint httpMethod)
          = Resolves response
        /\ status response <> 429%Z /\ status response <> 403%Z
        /\ status response <> 404%Z
        /\ json response = Json data /\ env_success data = true.
Proof.
  rewrite request_run. cbn [fst]. unfold requestOutcome.
  destruct (remote w (calls w) _) as [[m|]|response].
  - split; [discriminate|]. intros (r & Hr & _). discriminate.
  - split; [discriminate|]. intros (r & Hr & _). discriminate.
  - destruct (Z.eqb_spec (status response) 429).
    { split; [discriminate|]. intros (r & Hr & H & _). inversion Hr; subst.
      contradiction. }
    destruct (Z.eqb_spec (status response) 403).
    { split; [discriminate|]. intros (r & Hr & _ & H & _). inversion Hr; subst.
      contradiction. }
    destruct (Z.eqb_spec (status response) 404).
    { split; [discriminate|]. intros (r & Hr & _ & _ & H & _).
      inversion Hr; subst. contradiction. }
    destruct (json response) as [| | |d] eqn:Hj.
    + split; [discriminate|].
      intros (r & Hr & _ & _ & _ & Hd & _). inversion Hr; subst. congruence.
    + split; [discriminate|].
      intros (r & Hr & _ & _ & _ & Hd & _). inversion Hr; subst. congruence.
    + split; [discriminate|].
      intros (r & Hr & _ & _ & _ & Hd & _). inversion Hr; subst. congruence.
    + destruct (env_success d) eqn:Hs; cbn [negb].
      * split.
        -- intros H. inversion H; subst. exists response. auto 10.
        -- intros (r & Hr & _ & _ & _ & Hd & _). inversion Hr; subst.
           rewrite Hj in Hd. inversion Hd; subst. reflexivity.
      * split; [discriminate|].
        intros (r & Hr & _ & _ & _ & Hd & Hs'). inversion Hr; subst.
        rewrite Hj in Hd. inversion Hd; subst. congruence.
Qed.

Lemma request_returns_iff_witness :
  fst (request Scenario.config (lit "/x") (lit "GET")
               (Scenario.scripted
                  [Resolves (mkResponse 500 (lit "Internal Server Error") None
                               (Json (mkEnvelope true [] None)))]))
  = Return (mkEnvelope true [] None).
Proof.
  apply (proj2 (request_returns_iff Scenario.config (lit "/x") (lit "GET")
                  (Scenario.scripted
                     [Resolves (mkResponse 500 (lit "Internal Server Error")
                                  None (Json (mkEnvelope true [] None)))])
                  (mkEnvelope true [] None))).
  eexists. split; [reflexivity|]. cbn [status json env_success].
  repeat split; discriminate.
Defined.

(** X6.  A failed envelope with no usable first message (no [errors], an
    empty [errors], or an empty first message) is reported by [request] as
    Unknown API error. *)
Theorem request_unknown_api_error config endpoint httpMethod w response data :
  remote w (calls w) (requestFor config endpoint httpMethod) = Resolves response ->
  status response <> 429%Z -> status response <> 403%Z ->
  status response <> 404%Z ->
  json response = Json data -> env_success data = false ->
  (env_errors data = None \/ env_errors data = Some []
   \/ exists first rest, env_errors data = Some (first :: rest)
                         /\ message first = []) ->
  fst (request config endpoint httpMethod w)
  = Throw (CloudflareAPIError (lit "Unknown API error")
                              (Some (status response)) (env_errors data)).
Proof.
  intros Hr H429 H403 H404 Hj Hs Herr.
  rewrite request_run, Hr. cbn [fst requestOutcome].
  apply Z.eqb_neq in H429, H403, H404. rewrite H429, H403, H404, Hj, Hs.
  cbn [negb]. do 2 f_equal.
  destruct Herr as [->|[->|(first & rest & -> & Hm)]]; cbn [firstErrorMessage];
    try rewrite Hm; reflexivity.
Qed.

Lemma request_unknown_api_error_witness :
  fst (request Scenario.config (lit "/x") (lit "GET")
               (Scenario.scripted [Scenario.apiFailure []]))
  = Throw (CloudflareAPIError (lit "Unknown API error") (Some 400%Z) (Some [])).
Proof.
  apply (request_unknown_api_error Scenario.config (lit "/x") (lit "GET")
           (Scenario.scripted [Scenario.apiFailure []])
           (mkResponse 400 (lit "Bad Request") None
                       (Json (mkEnvelope false [] (Some []))))
           (mkEnvelope false [] (Some [])));
    try reflexivity; try discriminate.
  right. left. reflexivity.
Defined.

(** X7.  [listDeployments] and [deleteDeployment] each send exactly one
    request, whatever the answer: there is no retry inside the client.  The
    request goes to the deployments of the script under the account, with
    method GET, respectively to the deployment itself with method DELETE, and
    carries the token as a bearer credential. *)
Theorem client_sends_one_request config scriptName ident w :
  snd (listDeployments config scriptName w)
  = mkWorld (remote w) (S (calls w))
      (log w ++ [EvFetch (mkRequest
                  (lit "https://api.cloudflare.com/client/v4/accounts/"
                     ++ accountId config ++ lit "/workers/scripts/"
                     ++ scriptName ++ lit "/deployments")
                  (lit "GET") (lit "Bearer " ++ apiToken config))])
  /\ snd (deleteDeployment config scriptName ident w)
     = mkWorld (remote w) (S (calls w))
         (log w ++ [EvFetch (mkRequest
                     (lit "https://api.cloudflare.com/client/v4/accounts/"
                        ++ accountId config ++ lit "/workers/scripts/"
                        ++ scriptName ++ lit "/deployments/" ++ ident)
                     (lit "DELETE") (lit "Bearer " ++ apiToken config))]).
Proof.
  rewrite listDeployments_run, deleteDeployment_run. cbn [snd].
  unfold sent, listRequest, deleteRequest, requestFor, deploymentEndpoint,
    deploymentsEndpoint.
  split; [reflexivity|]. rewrite <- !app_assoc. reflexivity.
Qed.

(** X8.  [tryDelete] never throws.  It reports success exactly when
    [deleteDeployment] returns; a failure carries a message [sanitize] leaves
    as it is, and is flagged as a rate limit exactly when the request was
    answered with status 429. *)
Theorem tryDelete_contains_failure config scriptName ident w :
  exists res,
    tryDelete config scriptName ident w
      = (Return res, snd (deleteDeployment config scriptName ident w))
    /\ (res = Succeeded
        <-> fst (deleteDeployment config scriptName ident w) = Return tt)
    /\ (forall error flag,
           res = Failure error flag ->
           clean error
           /\ (flag = true
               <-> exists response,
                     remote w (calls w) (deleteRequest config scriptName ident)
                       = Resolves response
                     /\ status response = 429%Z)).
Proof.
  rewrite tryDelete_run, deleteDeployment_run. cbn [fst snd].
  eexists. split; [reflexivity|].
  set (answer := remote w (calls w) (deleteRequest config scriptName ident)).
  destruct (requestOutcome answer) as [data|e] eqn:E; cbn [tryResultOf].
  - split; [tauto|]. intros error flag H. discriminate.
  - split; [split; discriminate|].
    intros error flag H. inversion H; subst. split; [apply formatError_clean|].
    split.
    + intros Hflag. destruct e as [ra| | |]; try discriminate.
      destruct (rateLimited_inv answer ra) as (response & Hr & Hs & _).
      { rewrite E. reflexivity. }
      exists response. auto.
    + intros (response & Hr & Hs). rewrite Hr in E. cbn [requestOutcome] in E.
      rewrite Hs in E. cbn in E. inversion E; subst. reflexivity.
Qed.

(* ===================================================================== *)
(** ** More on the batch of [cloudflare-api.ts] *)
(* ===================================================================== *)

Lemma notice_fetches onProgress total i st :
  fetches (notice onProgress total i st) = 0.
Proof. unfold notice. destruct (st_result st), onProgress; reflexivity. Qed.

Lemma pacing_fetches total i : fetches (pacing total i) = 0.
Proof. unfold pacing. destruct (i <? total - 1); reflexivity. Qed.

Lemma loopEvents_fetch_bounds lo hi onProgress total steps : forall i,
  Forall (fun st => lo <= fetches (st_events st) <= hi) steps ->
  lo * length steps <= fetches (loopEvents onProgress total i steps)
                    <= hi * length steps.
Proof.
  induction steps as [|st rest IH]; intros i Hall.
  - cbn. lia.
  - inversion Hall as [|? ? Hst Hrest]; subst. specialize (IH (S i) Hrest).
    cbn [loopEvents length].
    rewrite !fetches_app, notice_fetches, pacing_fetches. lia.
Qed.

(** One list keeps the order of another: it is obtained by dropping
    elements. *)
Inductive subseq {A : Type} : list A -> list A -> Prop :=
| subseq_nil : subseq [] []
| subseq_drop x l1 l2 : subseq l1 l2 -> subseq l1 (x :: l2)
| subseq_keep x l1 l2 : subseq l1 l2 -> subseq (x :: l1) (x :: l2).

Lemma subseq_filter_map {A B} (f : A -> B) (p : A -> bool) l :
  subseq (List.map f (filter p l)) (List.map f l).
Proof.
  induction l as [|a l IH]; [constructor|].
  cbn. destruct (p a); cbn; constructor; exact IH.
Qed.

(** X9.  The engine sends nothing but delete requests for identifiers of
    its input, at least one and at most three for each identifier given: its
    log is, for each identifier of the input in turn, a segment holding
    between one and three requests, all of them delete requests for that
    identifier, with a pause of 200 ms between two segments. *)
Theorem batch_request_bounds config scriptName deploymentIds onProgress w :
  exists res w' evs,
    deleteDeployments config scriptName deploymentIds onProgress w
      = (Return res, w')
    /\ log w' = log w ++ evs
    /\ length deploymentIds <= fetches evs <= 3 * length deploymentIds
    /\ (forall r, In r (fetched evs) ->
          exists x, In x deploymentIds /\ r = deleteRequest config scriptName x)
    /\ exists segs,
         evs = joinWith [EvDelay 200] segs
         /\ Forall2 (fun ident seg =>
                       1 <= fetches seg <= 3
                       /\ forall r, In r (fetched seg) ->
                                    r = deleteRequest config scriptName ident)
                    deploymentIds segs.
Proof.
  destruct (deleteDeployments_steps config scriptName deploymentIds onProgress w)
    as (steps & w' & Hrun & Hids & Hlog & _ & Hall).
  eexists _, w', _. split; [exact Hrun|]. split; [exact Hlog|].
  split; [|split].
  - rewrite <- Hids, length_map.
    replace (length steps) with (1 * length steps) at 1 by lia.
    apply loopEvents_fetch_bounds.
    eapply Forall_impl; [|exact Hall]. intros st [Htr _].
    eapply attemptTrace_fetches; eauto.
  - intros r Hin. rewrite <- Hids.
    eapply loopEvents_fetched_from; eauto.
  - exists (segments onProgress (length deploymentIds) 0 steps). split.
    + apply loopEvents_join. rewrite <- Hids, length_map. reflexivity.
    + apply segments_each_ids; [exact Hids|].
      eapply Forall_impl; [|exact Hall]. intros st Hst i.
      destruct (goodStep_segment config scriptName onProgress
                  (length deploymentIds) i st Hst) as (_ & _ & Hn & Hreq).
      split; [exact Hn|exact Hreq].
Qed.

(** X10.  Both lists of the report keep the order of the input: the
    succeeded identifiers, and the identifiers of the failures, are the input
    with some identifiers dropped. *)
Theorem report_keeps_order config scriptName deploymentIds onProgress w :
  exists res w',
    deleteDeployments config scriptName deploymentIds onProgress w
      = (Return res, w')
    /\ subseq (success res) deploymentIds
    /\ subseq (failedIds res) deploymentIds.
Proof.
  destruct (deleteDeployments_steps config scriptName deploymentIds onProgress w)
    as (steps & w' & Hrun & Hids & _).
  eexists _, w'. split; [exact Hrun|].
  rewrite loopResult_eq. unfold failedIds. cbn [success failed app].
  rewrite failuresOf_ids, <- Hids. split; apply subseq_filter_map.
Qed.

(* ===================================================================== *)
(** ** The batch of the later revision *)
(* ===================================================================== *)

(** The result of the later [tryDelete] without its [retryAfter]: what the
    loop looks at when it records it. *)
Definition plainResult (r : Revised.TryResult) : TryResult :=
  match r with
  | Revised.Succeeded => Succeeded
  | Revised.Failure error flag _ => Failure error flag
  end.

(** The requests and the pause of the later retry block for one
    identifier. *)
Inductive retryTrace (req : Request) : list Event -> Prop :=
| retry_single : retryTrace req [EvFetch req]
| retry_once retryAfter :
    retryTrace req [EvFetch req; EvDelay (timeoutOf (waitTime retryAfter)); EvFetch req].

(** The requests and the pause of the later retry block for one identifier,
    [n] requests having been sent before. *)
Definition retryEvents (rm : nat -> Request -> FetchResult) (n : nat)
           (req : Request) : list Event :=
  match rateLimited (requestOutcome (rm n req)) with
  | None => [EvFetch req]
  | Some retryAfter =>
      [EvFetch req; EvDelay (timeoutOf (waitTime retryAfter)); EvFetch req]
  end.

(** The later retry block obeys the rule stated for the retry. *)
Lemma retryEvents_rule rm req n tail :
  fetched tail = [] -> delays tail = [] ->
  retryRule rm req n (retryEvents rm n req ++ tail).
Proof.
  intros Hf Hd.
  assert (Hfs : forall L, fetched (L ++ tail) = fetched L)
    by (intros L; rewrite fetched_app, Hf; apply app_nil_r).
  assert (Hds : forall L, delays (L ++ tail) = delays L)
    by (intros L; rewrite delays_app, Hd; apply app_nil_r).
  assert (Hns : forall L, fetches (L ++ tail) = fetches L)
    by (intros L; rewrite !fetches_fetched, Hfs; reflexivity).
  unfold retryEvents. rewrite rateLimited_is429.
  destruct (rm n req) as [e1|r1] eqn:A1;
    [|destruct (is429 (Resolves r1)) eqn:E1].
  - unfold retryRule. rewrite Hfs, Hds, Hns, A1.
    split; [cbn; intuition congruence|]. split; [auto|].
    split; [discriminate|]. split; [discriminate|].
    intros pre ms post H. exfalso.
    eapply no_delay_no_split; [|exact H]. rewrite Hds. reflexivity.
  - unfold retryRule. rewrite Hfs, Hds, Hns, A1, E1.
    split; [cbn; intuition congruence|]. split; [discriminate|].
    split; [cbn; lia|]. split; [discriminate|].
    intros pre ms post H.
    change ([EvFetch req] ++
            EvDelay (timeoutOf (waitTime (retryAfterOf (retryAfterHeader r1))))
              :: ([EvFetch req] ++ tail)
            = pre ++ EvDelay ms :: post) in H.
    apply split_at_delay in H; [|reflexivity|rewrite Hds; reflexivity].
    destruct H as (-> & -> & ->).
    split; [reflexivity|]. split; [rewrite Hds; reflexivity|].
    split; [rewrite Hfs; reflexivity|].
    cbn [fetches filter isFetch length]. split.
    + intros k Hk. assert (k = 0) as -> by lia.
      rewrite Nat.add_0_r, A1. exact E1.
    + exists 0, r1. rewrite Nat.add_0_r.
      cbn [is429] in E1. apply Z.eqb_eq in E1. auto.
  - unfold retryRule. rewrite Hfs, Hds, Hns, A1, E1.
    split; [cbn; intuition congruence|]. split; [auto|].
    split; [discriminate|]. split; [discriminate|].
    intros pre ms post H. exfalso.
    eapply no_delay_no_split; [|exact H]. rewrite Hds. reflexivity.
Qed.

Section RevisedRuns.

(** [deleteDeployment] and [deleteVersion] differ by their endpoint only. *)
Variable endpointOf : CloudflareConfig -> jsstring -> jsstring -> jsstring.

Definition deleteVia (config : CloudflareConfig)
           (scriptName ident : jsstring) : M unit :=
  request config (endpointOf config scriptName ident) (lit "DELETE") ;;; ret tt.

Definition viaRequest (config : CloudflareConfig)
           (scriptName ident : jsstring) : Request :=
  requestFor config (endpointOf config scriptName ident) (lit "DELETE").

Lemma deleteVia_run config scriptName ident w :
  deleteVia config scriptName ident w =
  (match requestOutcome (remote w (calls w)
                           (viaRequest config scriptName ident)) with
   | Return _ => Return tt
   | Throw e => Throw e
   end,
   sent (viaRequest config scriptName ident) w).
Proof.
  unfold deleteVia, bind. rewrite request_run.
  fold (viaRequest config scriptName ident).
  destruct (requestOutcome _); reflexivity.
Qed.

Lemma tryDeleteVia_run config scriptName ident w :
  Revised.tryDeleteWith deleteVia config scriptName ident w =
  (Return (revisedResultOf
             (requestOutcome (remote w (calls w)
                                (viaRequest config scriptName ident)))),
   sent (viaRequest config scriptName ident) w).
Proof.
  unfold Revised.tryDeleteWith, tryCatch, bind. rewrite deleteVia_run.
  destruct (requestOutcome _); reflexivity.
Qed.

Lemma attemptVia_run config scriptName ident w :
  let req := viaRequest config scriptName ident in
  let first := requestOutcome (remote w (calls w) req) in
  let second := requestOutcome (remote w (S (calls w)) req) in
  Revised.attemptWith deleteVia config scriptName ident w =
  match rateLimited first with
  | None => (Return (revisedResultOf first), sent req w)
  | Some retryAfter =>
      (Return (revisedResultOf second),
       sent req (emit (EvDelay (timeoutOf (waitTime retryAfter))) (sent req w)))
  end.
Proof.
  intros req first second. unfold Revised.attemptWith, bind.
  rewrite tryDeleteVia_run. fold req first.
  destruct first as [data|[ra|m c errs|m|]]; cbn [revisedResultOf rateLimited
    isRateLimitError]; try reflexivity.
  unfold delay. rewrite tryDeleteVia_run. reflexivity.
Qed.

Lemma attemptVia_step config scriptName ident w :
  exists res evs,
    Revised.attemptWith deleteVia config scriptName ident w =
      (Return res, mkWorld (remote w) (calls w + fetches evs) (log w ++ evs))
    /\ retryTrace (viaRequest config scriptName ident) evs
    /\ cleanResult (plainResult res).
Proof.
  pose proof (attemptVia_run config scriptName ident w) as H. cbv zeta in H.
  set (req := viaRequest config scriptName ident) in *.
  assert (Hclean : forall o, cleanResult (plainResult (revisedResultOf o))).
  { intros [data|e]; cbn; [exact I|apply formatError_clean]. }
  destruct (rateLimited (requestOutcome (remote w (calls w) req))) as [ra|].
  - eexists _, [EvFetch req; EvDelay (timeoutOf (waitTime ra)); EvFetch req]. split.
    + rewrite H. unfold sent, emit; cbn [remote calls log fetches filter
        isFetch length]. rewrite <- !app_assoc. cbn [app].
      replace (calls w + 2) with (S (S (calls w))) by lia. reflexivity.
    + split; [constructor|apply Hclean].
  - eexists _, [EvFetch req]. split.
    + rewrite H. unfold sent; cbn [remote calls log fetches filter isFetch
        length].
      replace (calls w + 1) with (S (calls w)) by lia. reflexivity.
    + split; [constructor|apply Hclean].
Qed.

Lemma loopVia_cons config scriptName onProgress total i ident rest acc w
      res evs w1 :
  Revised.attemptWith deleteVia config scriptName ident w = (Return res, w1) ->
  log w1 = log w ++ evs ->
  let st := mkStep ident (plainResult res) evs in
  let w2 := mkWorld (remote w1) (calls w1)
                    (log w ++ evs ++ notice onProgress total i st
                       ++ pacing total i) in
  Revised.loopWith deleteVia config scriptName onProgress total i
                   (ident :: rest) acc w =
  Revised.loopWith deleteVia config scriptName onProgress total (S i) rest
                   (record acc st) w2.
Proof.
  intros H Hlog st w2. cbn [Revised.loopWith]. unfold bind at 1. rewrite H.
  unfold w2, st, record, notice, pacing. cbn [st_result st_id].
  destruct w1 as [rm1 c1 l1]. cbn [log remote calls] in *. subst l1.
  destruct res as [|error rl ra]; cbn [plainResult].
  - unfold bind, callProgress, ret, delay, emit; cbn [log remote calls].
    destruct onProgress, (i <? total - 1);
      cbn [log remote calls app]; rewrite <- ?app_assoc, ?app_nil_r;
      reflexivity.
  - unfold bind, ret, delay, emit; cbn [log remote calls].
    destruct (i <? total - 1);
      cbn [log remote calls app]; rewrite <- ?app_assoc, ?app_nil_r;
      reflexivity.
Qed.

Definition retryStep (config : CloudflareConfig) (scriptName : jsstring)
           (st : Step) : Prop :=
  retryTrace (viaRequest config scriptName (st_id st)) (st_events st)
  /\ cleanResult (st_result st).

Lemma loopVia_steps config scriptName onProgress total :
  forall ids i acc w,
  exists steps w',
    Revised.loopWith deleteVia config scriptName onProgress total i ids acc w =
      (Return (loopResult acc steps), w')
    /\ List.map st_id steps = ids
    /\ log w' = log w ++ loopEvents onProgress total i steps
    /\ remote w' = remote w
    /\ Forall (retryStep config scriptName) steps.
Proof.
  induction ids as [|ident rest IH]; intros i acc w.
  - exists [], w. cbn. rewrite app_nil_r. repeat split; constructor.
  - destruct (attemptVia_step config scriptName ident w)
      as (res & evs & Hrun & Htr & Hclean).
    rewrite (loopVia_cons _ _ _ _ _ _ _ _ _ _ _ _ Hrun eq_refl).
    match goal with |- context [Revised.loopWith _ _ _ _ _ _ _ ?a ?w2] =>
      destruct (IH (S i) a w2) as (steps & w' & Hloop & Hids & Hlog & Hrem & Hall)
    end.
    exists (mkStep ident (plainResult res) evs :: steps), w'.
    split; [exact Hloop|]. split; [cbn; rewrite Hids; reflexivity|].
    split; [|split].
    + rewrite Hlog. cbn [log loopEvents st_events].
      rewrite <- !app_assoc. reflexivity.
    + rewrite Hrem. reflexivity.
    + constructor; [split; assumption|assumption].
Qed.

Lemma retryTrace_facts req evs :
  retryTrace req evs ->
  1 <= fetches evs <= 2 /\ pauses evs = 0 /\ progressCalls evs = []
  /\ forall r, In r (fetched evs) -> r = req.
Proof.
  intros [|ra].
  - cbn. repeat split; try lia. intros r [H|[]]. auto.
  - repeat split; try (cbn; lia); try reflexivity.
    + unfold pauses. cbn.
      destruct (Z.eq_dec (timeoutOf (waitTime ra)) requestDelay) as [E|E]; [|reflexivity].
      exfalso. exact (waitTime_not_requestDelay ra E).
    + cbn. intuition congruence.
Qed.

Lemma loopEvents_pauses_retry config scriptName onProgress steps :
  forall total i,
    Forall (retryStep config scriptName) steps ->
    i + length steps = total ->
    pauses (loopEvents onProgress total i steps) = length steps - 1.
Proof.
  induction steps as [|st rest IH]; intros total i Hall Hlen; [reflexivity|].
  inversion Hall as [|? ? [Htr _] Hrest]; subst.
  destruct (retryTrace_facts _ _ Htr) as (_ & Hp & _).
  cbn [loopEvents length] in *.
  rewrite !pauses_app, Hp, notice_pauses,
    (IH (i + S (length rest)) (S i) Hrest) by lia.
  unfold pacing. destruct rest as [|st' rest'].
  - cbn [length]. replace (i <? i + 1 - 1) with false
      by (symmetry; apply Nat.ltb_ge; lia). reflexivity.
  - cbn [length]. replace (i <? i + S (S (length rest')) - 1) with true
      by (symmetry; apply Nat.ltb_lt; lia).
    cbn. lia.
Qed.

Lemma loopEvents_fetched_retry config scriptName onProgress total steps :
  forall i r,
    Forall (retryStep config scriptName) steps ->
    In r (fetched (loopEvents onProgress total i steps)) ->
    exists x, In x (List.map st_id steps) /\ r = viaRequest config scriptName x.
Proof.
  induction steps as [|st rest IH]; intros i r Hall Hin; [contradiction|].
  inversion Hall as [|? ? [Htr _] Hrest]; subst.
  destruct (retryTrace_facts _ _ Htr) as (_ & _ & _ & Hreq).
  cbn [loopEvents] in Hin. rewrite !fetched_app in Hin.
  apply in_app_or in Hin. destruct Hin as [Hin|Hin].
  - exists (st_id st). split; [left; reflexivity|auto].
  - apply in_app_or in Hin. destruct Hin as [Hin|Hin].
    { unfold notice in Hin. destruct (st_result st), onProgress; contradiction. }
    apply in_app_or in Hin. destruct Hin as [Hin|Hin].
    { unfold pacing in Hin. destruct (i <? total - 1); contradiction. }
    destruct (IH _ _ Hrest Hin) as (x & Hx & Hr).
    exists x. split; [right; exact Hx|exact Hr].
Qed.

Lemma attemptVia_exact config scriptName ident w :
  let evs := retryEvents (remote w) (calls w)
                         (viaRequest config scriptName ident) in
  exists res,
    Revised.attemptWith deleteVia config scriptName ident w =
      (Return res, mkWorld (remote w) (calls w + fetches evs) (log w ++ evs)).
Proof.
  pose proof (attemptVia_run config scriptName ident w) as H. cbv zeta in H.
  cbv zeta. unfold retryEvents.
  set (req := viaRequest config scriptName ident) in *.
  destruct (rateLimited (requestOutcome (remote w (calls w) req))) as [ra|].
  - eexists. rewrite H. unfold sent, emit; cbn [remote calls log fetches filter
      isFetch length]. rewrite <- !app_assoc. cbn [app].
    replace (calls w + 2) with (S (S (calls w))) by lia. reflexivity.
  - eexists. rewrite H. unfold sent; cbn [remote calls log fetches filter
      isFetch length].
    replace (calls w + 1) with (S (calls w)) by lia. reflexivity.
Qed.

Lemma loopVia_exact config scriptName onProgress total rm :
  forall ids i acc w,
  remote w = rm ->
  exists steps w',
    Revised.loopWith deleteVia config scriptName onProgress total i ids acc w =
      (Return (loopResult acc steps), w')
    /\ List.map st_id steps = ids
    /\ log w' = log w ++ loopEvents onProgress total i steps
    /\ stepsFrom (fun n st =>
                    st_events st
                    = retryEvents rm n (viaRequest config scriptName (st_id st)))
                 (calls w) steps.
Proof.
  induction ids as [|ident rest IH]; intros i acc w Hrm.
  - exists [], w. cbn. rewrite app_nil_r. repeat split.
  - destruct (attemptVia_exact config scriptName ident w) as (res & Hrun).
    cbv zeta in Hrun. rewrite Hrm in Hrun.
    set (evs := retryEvents rm (calls w)
                            (viaRequest config scriptName ident)) in *.
    rewrite (loopVia_cons _ _ _ _ _ _ _ _ _ _ _ _ Hrun eq_refl).
    match goal with |- context [Revised.loopWith _ _ _ _ _ _ _ ?a ?w2] =>
      destruct (IH (S i) a w2 eq_refl)
        as (steps & w' & Hloop & Hids & Hlog & Hall)
    end.
    exists (mkStep ident (plainResult res) evs :: steps), w'.
    split; [exact Hloop|]. split; [cbn; rewrite Hids; reflexivity|].
    split.
    + rewrite Hlog. cbn [log loopEvents st_events].
      rewrite <- !app_assoc. reflexivity.
    + cbn [stepsFrom st_events st_id]. split; [reflexivity|exact Hall].
Qed.

(** The later batch obeys the rule on the retry, identifier by
    identifier. *)
Lemma batchVia_rule config scriptName ids onProgress w :
  exists res w' segs,
    Revised.batchWith deleteVia config scriptName ids onProgress w
      = (Return res, w')
    /\ log w' = log w ++ joinWith [EvDelay 200] segs
    /\ eachFrom (fun n ident seg =>
                   retryRule (remote w) (viaRequest config scriptName ident)
                             n seg)
                (calls w) ids segs.
Proof.
  unfold Revised.batchWith.
  destruct (loopVia_exact config scriptName onProgress (length ids) (remote w)
              ids 0 (mkBatch [] []) w eq_refl)
    as (steps & w' & Hrun & Hids & Hlog & Hall).
  eexists _, w', (segments onProgress (length ids) 0 steps).
  split; [exact Hrun|]. split.
  - rewrite Hlog, (loopEvents_join onProgress steps (length ids) 0);
      [reflexivity|].
    rewrite <- Hids, length_map. reflexivity.
  - pose proof (stepsFrom_eachFrom
                  (fun n st =>
                     st_events st
                     = retryEvents (remote w) n
                         (viaRequest config scriptName (st_id st)))
                  (fun n ident seg =>
                     retryRule (remote w) (viaRequest config scriptName ident)
                               n seg)
                  onProgress (length ids) steps) as Heach.
    rewrite Hids in Heach. apply Heach; [|exact Hall].
    intros n i st Hst. cbv beta in Hst. rewrite Hst.
    apply retryEvents_rule; [apply notice_fetched|apply notice_delays].
Qed.

(** What the later batch guarantees, over the request it sends for an
    identifier. *)
Lemma batchVia_spec config scriptName ids onProgress w :
  exists res w' evs,
    Revised.batchWith deleteVia config scriptName ids onProgress w
      = (Return res, w')
    /\ log w' = log w ++ evs
    /\ Permutation ids (success res ++ failedIds res)
    /\ length ids <= fetches evs <= 2 * length ids
    /\ pauses evs = length ids - 1
    /\ (forall r, In r (fetched evs) ->
          exists x, In x ids /\ r = viaRequest config scriptName x)
    /\ Forall (fun p => clean (snd p)) (failed res)
    /\ exists segs,
         evs = joinWith [EvDelay 200] segs
         /\ Forall2 (fun ident seg =>
                       1 <= fetches seg <= 2
                       /\ forall r, In r (fetched seg) ->
                                    r = viaRequest config scriptName ident)
                    ids segs.
Proof.
  unfold Revised.batchWith.
  destruct (loopVia_steps config scriptName onProgress (length ids) ids 0
              (mkBatch [] []) w) as (steps & w' & Hrun & Hids & Hlog & _ & Hall).
  eexists _, w', _. split; [exact Hrun|]. split; [exact Hlog|].
  split; [rewrite <- Hids; apply report_permutation|].
  split; [|split; [|split; [|split]]].
  - rewrite <- Hids, length_map.
    replace (length steps) with (1 * length steps) at 1 by lia.
    apply loopEvents_fetch_bounds.
    eapply Forall_impl; [|exact Hall]. intros st [Htr _].
    apply (retryTrace_facts _ _ Htr).
  - rewrite <- Hids, length_map.
    apply (loopEvents_pauses_retry config scriptName); [exact Hall|reflexivity].
  - intros r Hin. rewrite <- Hids.
    eapply loopEvents_fetched_retry; eauto.
  - rewrite loopResult_eq. cbn [failed app].
    clear Hrun Hids Hlog. induction Hall as [|st rest [_ Hc] _ IH];
      [constructor|].
    cbn [failuresOf]. unfold cleanResult in Hc.
    destruct (st_result st); [exact IH|]. constructor; assumption.
  - exists (segments onProgress (length ids) 0 steps). split.
    + apply loopEvents_join. rewrite <- Hids, length_map. reflexivity.
    + apply segments_each_ids; [exact Hids|].
      eapply Forall_impl; [|exact Hall]. intros st [Htr _] i.
      destruct (retryTrace_facts _ _ Htr) as (Hn & _ & _ & Hreq).
      rewrite fetches_app, (fetched_fetches _ (notice_fetched _ _ _ _)),
        Nat.add_0_r.
      split; [exact Hn|]. intros r.
      rewrite fetched_app, notice_fetched, app_nil_r. apply Hreq.
Qed.

End RevisedRuns.

(** The request [deleteVersion] sends. *)
Definition versionRequest (config : CloudflareConfig)
           (scriptName versionId : jsstring) : Request :=
  requestFor config (Revised.versionEndpoint config scriptName versionId)
             (lit "DELETE").

(** The later retry block, for a delete call [deleteOne] that sends
    [requestOf]: a first attempt not answered with 429 is final; one answered
    with 429 is followed by the pause the timer takes for its own
    [Retry-After] and by one more attempt, whose result is the one kept. *)
Definition retriesOnce
           (deleteOne : CloudflareConfig -> jsstring -> jsstring -> M unit)
           (requestOf : CloudflareConfig -> jsstring -> jsstring -> Request) :
  Prop :=
  forall config scriptName ident w,
    let req := requestOf config scriptName ident in
    let first := requestOutcome (remote w (calls w) req) in
    let second := requestOutcome (remote w (S (calls w)) req) in
    Revised.attemptWith deleteOne config scriptName ident w =
    match rateLimited first with
    | None => (Return (revisedResultOf first), sent req w)
    | Some retryAfter =>
        (Return (revisedResultOf second),
         sent req (emit (EvDelay (timeoutOf (waitTime retryAfter))) (sent req w)))
    end.

(** X11.  In the later revision, for versions and for deployments alike, a
    first attempt that is not rate limited is final, and a rate-limited one
    is followed by one pause and by exactly one more attempt, whose outcome,
    success or failure with its own message, is the one recorded.  The timer
    is set to [(retryAfter || 60) * 1000] for the [Retry-After] of that first
    answer, and the pause is what the timer makes of it: that many
    milliseconds when the number is from 1 to [2^31 - 1], which is the case
    for a suggestion of 1 to 2147483 seconds and for the default of 60
    seconds taken when there is no number or zero, and one millisecond
    otherwise (a negative, larger or infinite product). *)
Theorem revised_retries_once :
  retriesOnce Revised.deleteVersion versionRequest
  /\ retriesOnce deleteDeployment deleteRequest
  /\ (forall retryAfter,
         (1 <= timeoutOf (waitTime retryAfter) <= 2147483647)%Z)
  /\ (forall n, (1 <= n <= 2147483)%Z ->
                timeoutOf (waitTime (Some (Int n))) = (n * 1000)%Z)
  /\ (forall n, (n < 0 \/ 2147483 < n)%Z ->
                timeoutOf (waitTime (Some (Int n))) = 1%Z)
  /\ (forall b, timeoutOf (waitTime (Some (Infinity b))) = 1%Z)
  /\ timeoutOf (waitTime None) = 60000%Z
  /\ timeoutOf (waitTime (Some NaN)) = 60000%Z
  /\ timeoutOf (waitTime (Some (Int 0))) = 60000%Z.
Proof.
  split; [|split; [|split; [|exact pause_cases]]].
  - intros config scriptName ident w.
    exact (attemptVia_run Revised.versionEndpoint config scriptName ident w).
  - intros config scriptName ident w.
    exact (attemptVia_run deploymentEndpoint config scriptName ident w).
  - intros retryAfter. apply timeoutOf_range.
Qed.

Lemma revised_retries_once_witness :
  timeoutOf (waitTime (Some (Int 5))) = 5000%Z
  /\ timeoutOf (waitTime (Some (Int (-5)))) = 1%Z.
Proof.
  destruct revised_retries_once as (_ & _ & _ & Hsec & Hbig & _).
  split; [apply (Hsec 5%Z); lia|apply (Hbig (-5)%Z); lia].
Defined.

(** What a batch of the later revision guarantees. *)
Definition revisedBatchSpec
           (batch : CloudflareConfig -> jsstring -> list jsstring -> bool ->
                    M BatchResult)
           (requestOf : CloudflareConfig -> jsstring -> jsstring -> Request) :
  Prop :=
  forall config scriptName ids onProgress w,
  exists res w' evs,
    batch config scriptName ids onProgress w = (Return res, w')
    /\ log w' = log w ++ evs
    /\ Permutation ids (success res ++ failedIds res)
    /\ length ids <= fetches evs <= 2 * length ids
    /\ pauses evs = length ids - 1
    /\ (forall r, In r (fetched evs) ->
          exists x, In x ids /\ r = requestOf config scriptName x)
    /\ Forall (fun p => clean (snd p)) (failed res)
    /\ exists segs,
         evs = joinWith [EvDelay 200] segs
         /\ Forall2 (fun ident seg =>
                       1 <= fetches seg <= 2
                       /\ forall r, In r (fetched seg) ->
                                    r = requestOf config scriptName ident)
                    ids segs.

(** X12.  [deleteVersions] and the later [deleteDeployments] never throw;
    their report is a rearrangement of the input; they send only delete
    requests for identifiers of the input, at least one and at most two for
    each identifier: the log is, for each identifier of the input in turn, a
    segment holding one or two requests, all of them delete requests for
    that identifier, with a pause of 200 ms between two segments; they pause
    for the inter-request interval once after each identifier but the last;
    and every message of the report is one [sanitize] leaves as it is. *)
Theorem revised_batches :
  revisedBatchSpec Revised.deleteVersions versionRequest
  /\ revisedBatchSpec Revised.deleteDeployments deleteRequest.
Proof.
  split; intros config scriptName ids onProgress w.
  - exact (batchVia_spec Revised.versionEndpoint config scriptName ids
             onProgress w).
  - exact (batchVia_spec deploymentEndpoint config scriptName ids
             onProgress w).
Qed.

(** What was stated of the retry of [cloudflare-api.ts], of a batch that
    sends [requestOf] for an identifier. *)
Definition obeysRetryRule
           (batch : CloudflareConfig -> jsstring -> list jsstring -> bool ->
                    M BatchResult)
           (requestOf : CloudflareConfig -> jsstring -> jsstring -> Request) :
  Prop :=
  forall config scriptName ids onProgress w,
  exists res w' segs,
    batch config scriptName ids onProgress w = (Return res, w')
    /\ log w' = log w ++ joinWith [EvDelay 200] segs
    /\ eachFrom (fun n ident seg =>
                   retryRule (remote w) (requestOf config scriptName ident)
                             n seg)
                (calls w) ids segs.

(** X23.  The later revision obeys, identifier by identifier, the same rule
    on the retry as [cloudflare-api.ts] does: an identifier whose first
    attempt is answered with 429 is attempted again; there is at most one
    pause for an identifier, taken when the first two answers are 429
    (here: as soon as the first one is); every attempt before the pause was
    answered with 429 and the pause is [(retryAfter || 60) * 1000]
    milliseconds, as the timer takes it, for the [Retry-After] of one of
    these answers; exactly one attempt follows the pause. *)
Theorem revised_retry_rule :
  obeysRetryRule Revised.deleteVersions versionRequest
  /\ obeysRetryRule Revised.deleteDeployments deleteRequest.
Proof.
  split; intros config scriptName ids onProgress w.
  - exact (batchVia_rule Revised.versionEndpoint config scriptName ids
             onProgress w).
  - exact (batchVia_rule deploymentEndpoint config scriptName ids
             onProgress w).
Qed.

(** The remote side never answers with status 429. *)
Definition neverRateLimited (w : World) : Prop :=
  forall n req response, remote w n req = Resolves response ->
                         status response <> 429%Z.

Lemma neverRateLimited_outcome w n req :
  neverRateLimited w -> rateLimited (requestOutcome (remote w n req)) = None.
Proof.
  intros H. destruct (rateLimited (requestOutcome (remote w n req)))
    as [ra|] eqn:E; [|reflexivity].
  destruct (rateLimited_inv _ _ E) as (response & Hr & Hs & _).
  exfalso. exact (H _ _ _ Hr Hs).
Qed.

Lemma plainResult_revisedResultOf o : plainResult (revisedResultOf o) = tryResultOf o.
Proof. destruct o; reflexivity. Qed.

Lemma loops_agree config scriptName onProgress total :
  forall ids i acc w,
    neverRateLimited w ->
    Revised.loopWith deleteDeployment config scriptName onProgress total i
                     ids acc w
    = deleteLoop config scriptName onProgress total i ids acc w.
Proof.
  induction ids as [|ident rest IH]; intros i acc w Hw; [reflexivity|].
  set (req := deleteRequest config scriptName ident).
  assert (Hnone : rateLimited (requestOutcome (remote w (calls w) req)) = None)
    by (apply neverRateLimited_outcome; exact Hw).
  assert (Hold : attempt config scriptName ident w
                 = (Return (tryResultOf (requestOutcome (remote w (calls w) req))),
                    sent req w)).
  { rewrite attempt_run. cbv zeta. fold req. rewrite Hnone. reflexivity. }
  assert (Hnew : Revised.attemptWith deleteDeployment config scriptName ident w
                 = (Return (revisedResultOf
                              (requestOutcome (remote w (calls w) req))),
                    sent req w)).
  { pose proof (attemptVia_run deploymentEndpoint config scriptName ident w)
      as H. cbv zeta in H.
    change (viaRequest deploymentEndpoint config scriptName ident) with req in H.
    rewrite Hnone in H. exact H. }
  rewrite (deleteLoop_cons _ _ _ _ _ _ _ _ _ _ [EvFetch req] _ Hold eq_refl).
  pose proof (loopVia_cons deploymentEndpoint config scriptName onProgress
                total i ident rest acc w _ [EvFetch req] _ Hnew eq_refl) as H.
  cbv zeta in H. rewrite plainResult_revisedResultOf in H.
  etransitivity; [exact H|]. apply IH. exact Hw.
Qed.

Lemma calm_loop config scriptName onProgress total :
  forall ids i acc w,
    neverRateLimited w ->
    i + length ids = total ->
    exists evs,
      log (snd (deleteLoop config scriptName onProgress total i ids acc w))
        = log w ++ evs
      /\ fetched evs = List.map (deleteRequest config scriptName) ids
      /\ delays evs = repeat requestDelay (length ids - 1).
Proof.
  induction ids as [|ident rest IH]; intros i acc w Hw Hlen.
  - exists []. cbn. rewrite app_nil_r. auto.
  - set (req := deleteRequest config scriptName ident).
    assert (Hold : attempt config scriptName ident w
                   = (Return (tryResultOf
                                (requestOutcome (remote w (calls w) req))),
                      sent req w)).
    { rewrite attempt_run. cbv zeta. fold req.
      rewrite (neverRateLimited_outcome w (calls w) req Hw). reflexivity. }
    rewrite (deleteLoop_cons _ _ _ _ _ _ _ _ _ _ [EvFetch req] _ Hold eq_refl).
    cbn [length] in Hlen.
    assert (Hlen' : S i + length rest = total) by lia.
    match goal with |- context [deleteLoop _ _ _ _ _ _ ?a ?w2] =>
      destruct (IH (S i) a w2 Hw Hlen') as (evs & Hlog & Hf & Hd)
    end.
    rewrite Hlog. cbn [log]. eexists. rewrite <- !app_assoc.
    split; [reflexivity|].
    rewrite !fetched_app, !delays_app, Hf, Hd. cbn [length].
    unfold notice, pacing. cbn [st_result st_id].
    replace (S (length rest) - 1) with (length rest) by lia.
    destruct rest as [|ident' rest'].
    + cbn [length] in *. replace (i <? total - 1) with false
        by (symmetry; apply Nat.ltb_ge; lia).
      destruct (tryResultOf _), onProgress; split; reflexivity.
    + cbn [length] in *. replace (i <? total - 1) with true
        by (symmetry; apply Nat.ltb_lt; lia).
      replace (S (length rest') - 1) with (length rest') by lia.
      destruct (tryResultOf _), onProgress; split; reflexivity.
Qed.

(** X13.  On a remote side that never answers 429 the two revisions of
    [deleteDeployments] do the same thing: the same report and the same
    requests, pauses and callback calls.  Each identifier is then requested
    exactly once, in the order of the input, and the only pauses are the
    inter-request ones, failures included. *)
Theorem revisions_agree_without_rate_limit config scriptName deploymentIds
        onProgress w :
  neverRateLimited w ->
  Revised.deleteDeployments config scriptName deploymentIds onProgress w
    = deleteDeployments config scriptName deploymentIds onProgress w
  /\ exists evs,
      log (snd (deleteDeployments config scriptName deploymentIds onProgress w))
        = log w ++ evs
      /\ fetched evs = List.map (deleteRequest config scriptName) deploymentIds
      /\ delays evs = repeat requestDelay (length deploymentIds - 1).
Proof.
  intros Hw. split.
  - apply loops_agree. exact Hw.
  - apply calm_loop; [exact Hw|reflexivity].
Qed.

Lemma revisions_agree_without_rate_limit_witness :
  Revised.deleteDeployments Scenario.config Scenario.script
                            [lit "a"; lit "b"] true
                            (Scenario.scripted [Scenario.notFound])
  = deleteDeployments Scenario.config Scenario.script [lit "a"; lit "b"] true
                      (Scenario.scripted [Scenario.notFound]).
Proof.
  apply (revisions_agree_without_rate_limit Scenario.config Scenario.script
           [lit "a"; lit "b"] true (Scenario.scripted [Scenario.notFound])).
  intros n req response H. unfold Scenario.scripted in H. cbn [remote] in H.
  destruct n as [|[|n]]; cbn in H; inversion H; subst; cbn; discriminate.
Defined.

(* ===================================================================== *)
(** ** More on [deleteCommand] and the picker *)
(* ===================================================================== *)

Lemma logCaught_log e w :
  exists extra,
    log (logCaught e w) = log w ++ EvLogError (loggedMessage e) :: extra
    /\ fetched extra = [].
Proof.
  unfold logCaught, emit. cbn [log].
  destruct (isCloudflareAPIError e); [|exists []; split; reflexivity].
  destruct (statusCodeOf e) as [c|]; [|exists []; split; reflexivity].
  destruct (c =? 403)%Z; [|exists []; split; reflexivity].
  exists [EvLogInfo permissionHint]. cbn [log]. rewrite <- app_assoc.
  split; reflexivity.
Qed.

Lemma listRequest_method config scriptName :
  method (listRequest config scriptName) <> lit "DELETE".
Proof. cbn. discriminate. Qed.

(** X14.  [deleteCommand] sends a DELETE request only if the run is not a
    dry run, the deletion was forced or confirmed at the terminal, and the
    listing returned at least two deployments of which at least one was
    selected.  In particular a dry run, a declined confirmation, a failed
    listing and a listing of one deployment delete nothing. *)
Theorem delete_requires_consent config scriptName options term w evs r :
  log (snd (deleteCommand config scriptName options term w)) = log w ++ evs ->
  In r (fetched evs) -> method r = lit "DELETE" ->
  dryRun options = false
  /\ (force options = true \/ confirms term = true)
  /\ exists deployments,
      fst (listDeployments config scriptName w) = Return deployments
      /\ 2 <= length deployments
      /\ selectToDelete options term deployments <> [].
Proof.
  intros Hlog Hin Hm.
  assert (Hquiet : forall w2 extra,
             log w2 = log w ++ EvFetch (listRequest config scriptName) :: extra ->
             fetched extra = [] ->
             snd (deleteCommand config scriptName options term w) = w2 ->
             False).
  { intros w2 extra Hw2 Hex Hsnd. rewrite Hsnd, Hw2 in Hlog.
    apply app_inv_head in Hlog. subst evs. cbn [fetched flat_map] in Hin.
    fold (fetched extra) in Hin. rewrite Hex in Hin.
    destruct Hin as [Hin|[]]. subst r.
    exact (listRequest_method _ _ Hm). }
  assert (Hsent : log (sent (listRequest config scriptName) w)
                  = log w ++ [EvFetch (listRequest config scriptName)])
    by reflexivity.
  unfold deleteCommand, deleteCommandBody, bind in Hquiet.
  rewrite listDeployments_run in *. cbn [fst].
  destruct (requestOutcome _) as [data|e].
  - destruct (length (env_result data) =? 0) eqn:E0;
      [exfalso; eapply Hquiet; [exact Hsent|reflexivity|reflexivity]|].
    destruct (length (env_result data) =? 1) eqn:E1;
      [exfalso; eapply Hquiet; [exact Hsent|reflexivity|reflexivity]|].
    destruct (length (selectToDelete options term (env_result data)) =? 0)
      eqn:Es; [exfalso; eapply Hquiet; [exact Hsent|reflexivity|reflexivity]|].
    destruct (dryRun options) eqn:Ed;
      [exfalso; eapply Hquiet; [exact Hsent|reflexivity|reflexivity]|].
    destruct (negb (if all options then confirmDeleteAll term (force options)
                    else confirmDeletion term (force options))) eqn:Ec;
      [exfalso; eapply Hquiet; [exact Hsent|reflexivity|reflexivity]|].
    split; [reflexivity|]. split.
    + apply negb_false_iff in Ec. unfold confirmDeleteAll, confirmDeletion in Ec.
      destruct (force options); [left; reflexivity|right].
      destruct (all options); exact Ec.
    + exists (env_result data). split; [reflexivity|].
      apply Nat.eqb_neq in E0, E1, Es. split; [lia|].
      intros Hnil. rewrite Hnil in Es. apply Es. reflexivity.
  - exfalso. destruct (logCaught_log e (sent (listRequest config scriptName) w))
      as (extra & Hl & Hex).
    eapply (Hquiet _ (EvLogError (loggedMessage e) :: extra)).
    + rewrite Hl, Hsent, <- app_assoc. reflexivity.
    + exact Hex.
    + reflexivity.
Qed.

Lemma delete_requires_consent_witness :
  dryRun (mkOptions false true true) = false
  /\ (force (mkOptions false true true) = true
      \/ confirms (mkTerminal (fun _ => false) false) = true)
  /\ exists deployments,
      fst (listDeployments Scenario.config Scenario.script
             (Scenario.scripted
                [Scenario.ok [Scenario.deployment "id0";
                              Scenario.deployment "id1"]]))
        = Return deployments
      /\ 2 <= length deployments
      /\ selectToDelete (mkOptions false true true)
                        (mkTerminal (fun _ => false) false) deployments <> [].
Proof.
  apply (delete_requires_consent Scenario.config Scenario.script
           (mkOptions false true true) (mkTerminal (fun _ => false) false)
           (Scenario.scripted
              [Scenario.ok [Scenario.deployment "id0";
                            Scenario.deployment "id1"]])
           [EvFetch (listRequest Scenario.config Scenario.script);
            EvFetch (deleteRequest Scenario.config Scenario.script (lit "id1"));
            EvProgress 1 1 (lit "id1")]
           (deleteRequest Scenario.config Scenario.script (lit "id1"))).
  - vm_compute. reflexivity.
  - right. left. reflexivity.
  - reflexivity.
Defined.

(** X15.  With the flag for all deployments, no dry run, and the deletion
    forced or confirmed, a listing of at least two deployments on a remote
    side where every request succeeds ends with every deployment but the
    first deleted: the report holds the identifiers from position 1 on, in
    the order of the listing, with no failure; one DELETE request was sent for
    each of them after the listing request, with a pause between two of
    them. *)
Theorem delete_all_end_to_end config scriptName options term w deployments :
  all options = true -> dryRun options = false ->
  (force options = true \/ confirms term = true) ->
  (forall n req, succeeds (remote w n req) = true) ->
  fst (listDeployments config scriptName w) = Return deployments ->
  2 <= length deployments ->
  let ids := List.map id (skipn 1 deployments) in
  fst (deleteCommand config scriptName options term w)
    = Completed (mkBatch ids [])
  /\ exists evs,
      log (snd (deleteCommand config scriptName options term w)) = log w ++ evs
      /\ fetched evs
         = listRequest config scriptName
             :: List.map (deleteRequest config scriptName) ids
      /\ delays evs = repeat requestDelay (length deployments - 2).
Proof.
  intros Hall Hdry Hconsent Hok Hlist Hlen ids.
  assert (Hrun : listDeployments config scriptName w
                 = (Return deployments, sent (listRequest config scriptName) w)).
  { rewrite listDeployments_run in *. cbn [fst] in Hlist. rewrite Hlist.
    reflexivity. }
  assert (Hsel : selectToDelete options term deployments = skipn 1 deployments).
  { unfold selectToDelete. rewrite Hall. reflexivity. }
  assert (Hidlen : length ids = length deployments - 1).
  { unfold ids. rewrite length_map, length_skipn. reflexivity. }
  unfold deleteCommand, deleteCommandBody, bind. rewrite Hrun, Hsel, Hall, Hdry.
  replace (length deployments =? 0) with false
    by (symmetry; apply Nat.eqb_neq; lia).
  replace (length deployments =? 1) with false
    by (symmetry; apply Nat.eqb_neq; lia).
  replace (length (skipn 1 deployments) =? 0) with false
    by (symmetry; apply Nat.eqb_neq; rewrite length_skipn; lia).
  replace (negb (confirmDeleteAll term (force options))) with false
    by (unfold confirmDeleteAll; destruct Hconsent as [->| ->];
        [reflexivity|destruct (force options); reflexivity]).
  fold ids. unfold deleteDeployments.
  rewrite deleteLoop_happy by (cbn [remote sent]; exact Hok).
  cbn [success failed app printFailed]. unfold ret. cbn [fst snd log sent].
  split; [reflexivity|].
  eexists. rewrite <- app_assoc. split; [reflexivity|].
  change (?a :: ?l) with ([a] ++ l) at 1.
  rewrite fetched_app, delays_app, happy_fetched,
    (happy_delays config scriptName true ids (length ids) 0 eq_refl).
  split; [reflexivity|]. rewrite Hidlen. cbn [delays flat_map app].
  replace (length deployments - 1 - 1) with (length deployments - 2) by lia.
  reflexivity.
Qed.

Lemma delete_all_end_to_end_witness :
  fst (deleteCommand Scenario.config Scenario.script
         (mkOptions false true true) (mkTerminal (fun _ => false) false)
         (Scenario.scripted
            [Scenario.ok [Scenario.deployment "id0"; Scenario.deployment "id1";
                          Scenario.deployment "id2"; Scenario.deployment "id3";
                          Scenario.deployment "id4"]]))
  = Completed (mkBatch [lit "id1"; lit "id2"; lit "id3"; lit "id4"] []).
Proof.
  refine (proj1 (delete_all_end_to_end Scenario.config Scenario.script
                   (mkOptions false true true)
                   (mkTerminal (fun _ => false) false)
                   (Scenario.scripted
                      [Scenario.ok [Scenario.deployment "id0";
                                    Scenario.deployment "id1";
                                    Scenario.deployment "id2";
                                    Scenario.deployment "id3";
                                    Scenario.deployment "id4"]])
                   [Scenario.deployment "id0"; Scenario.deployment "id1";
                    Scenario.deployment "id2"; Scenario.deployment "id3";
                    Scenario.deployment "id4"]
                   eq_refl eq_refl (or_introl eq_refl) _ eq_refl _)).
  - intros n req. unfold Scenario.scripted. cbn [remote].
    destruct n as [|[|n]]; reflexivity.
  - cbn. lia.
Defined.

(** X16.  When the listing is answered with 403, 404 or 429,
    [deleteCommand] sends nothing more (the listing is not retried), logs the
    message of the error, adds the hint about the permissions of the token
    for 403 only, and ends aborted. *)
Theorem listing_rejected config scriptName options term w response :
  remote w (calls w) (listRequest config scriptName) = Resolves response ->
  (status response = 403%Z \/ status response = 404%Z
   \/ status response = 429%Z) ->
  fst (deleteCommand config scriptName options term w) = Aborted
  /\ log (snd (deleteCommand config scriptName options term w))
     = log w
         ++ EvFetch (listRequest config scriptName)
         :: EvLogError (if (status response =? 403)%Z then permissionDeniedMessage
                        else if (status response =? 404)%Z then notFoundMessage
                        else rateLimitMessage)
         :: (if (status response =? 403)%Z then [EvLogInfo permissionHint]
             else []).
Proof.
  intros Hr Hs. unfold deleteCommand, deleteCommandBody, bind.
  rewrite listDeployments_run, Hr. cbn [requestOutcome].
  destruct Hs as [Hs|[Hs|Hs]]; rewrite Hs; cbn [Z.eqb Pos.eqb fst snd];
    unfold logCaught, emit, sent; cbn [isCloudflareAPIError statusCodeOf
      loggedMessage messageOf log Z.eqb Pos.eqb];
    rewrite <- ?app_assoc; split; reflexivity.
Qed.

Lemma listing_rejected_witness :
  let run := deleteCommand Scenario.config Scenario.script
               (mkOptions false true true) (mkTerminal (fun _ => true) true)
               (Scenario.scripted [Scenario.forbidden]) in
  fst run = Aborted
  /\ log (snd run)
     = [EvFetch (listRequest Scenario.config Scenario.script);
        EvLogError permissionDeniedMessage;
        EvLogInfo
          (lit "Make sure your API token has " ++ [34%N]
             ++ lit "Workers Scripts: Read" ++ [34%N] ++ lit " and " ++ [34%N]
             ++ lit "Workers Scripts: Edit" ++ [34%N] ++ lit " permissions.")].
Proof.
  exact (listing_rejected Scenario.config Scenario.script
           (mkOptions false true true) (mkTerminal (fun _ => true) true)
           (Scenario.scripted [Scenario.forbidden])
           (mkResponse 403 (lit "Forbidden") None NotJson) eq_refl
           (or_introl eq_refl)).
Defined.

(** X17.  With the flag for all deployments and the force flag the command
    does not depend on the terminal: whatever is ticked or answered there,
    it does the same thing. *)
Theorem forced_all_ignores_terminal config scriptName options term1 term2 w :
  all options = true -> force options = true ->
  deleteCommand config scriptName options term1 w
  = deleteCommand config scriptName options term2 w.
Proof.
  intros Hall Hforce. unfold deleteCommand, deleteCommandBody, selectToDelete,
    confirmDeleteAll, confirmDeletion.
  rewrite Hall, Hforce. reflexivity.
Qed.

Lemma forced_all_ignores_terminal_witness :
  deleteCommand Scenario.config Scenario.script (mkOptions false true true)
                (mkTerminal (fun _ => true) true) Scenario.allOk
  = deleteCommand Scenario.config Scenario.script (mkOptions false true true)
                  (mkTerminal (fun _ => false) false) Scenario.allOk.
Proof.
  exact (forced_all_ignores_terminal Scenario.config Scenario.script
           (mkOptions false true true) (mkTerminal (fun _ => true) true)
           (mkTerminal (fun _ => false) false) Scenario.allOk eq_refl eq_refl).
Defined.

Lemma tickedFrom_subseq ticks deployments : forall index,
  subseq (tickedFrom ticks index deployments) deployments.
Proof.
  induction deployments as [|d rest IH]; intros index; [constructor|].
  cbn [tickedFrom]. destruct (ticks index); constructor; apply IH.
Qed.

Lemma tickedFrom_none ticks deployments : forall index,
  (forall n, ticks n = false) -> tickedFrom ticks index deployments = [].
Proof.
  induction deployments as [|d rest IH]; intros index H; [reflexivity|].
  cbn [tickedFrom]. rewrite H. apply IH. exact H.
Qed.

(** X18.  What [selectDeploymentsToDelete] returns is the listing from
    position 1 on with some entries dropped, in the order of the listing: the
    entry at position 0 is never returned, even when it is ticked.  Ticking
    everything returns the whole listing but its first entry, which is what
    the flag for all deployments selects; ticking nothing, or an empty
    listing, returns nothing. *)
Theorem picker_selection ticks deployments :
  subseq (selectDeploymentsToDelete ticks deployments) (skipn 1 deployments)
  /\ ((forall n, ticks n = true) ->
      selectDeploymentsToDelete ticks deployments = skipn 1 deployments)
  /\ ((forall n, ticks n = false) ->
      selectDeploymentsToDelete ticks deployments = [])
  /\ selectDeploymentsToDelete ticks [] = [].
Proof.
  rewrite selectDeploymentsToDelete_eq.
  split; [apply tickedFrom_subseq|]. split; [apply tickedFrom_all|].
  split; [apply tickedFrom_none|reflexivity].
Qed.

Lemma picker_selection_witness :
  selectDeploymentsToDelete (fun _ => true)
    [Scenario.deployment "id0"; Scenario.deployment "id1"]
  = [Scenario.deployment "id1"].
Proof.
  apply (proj1 (proj2 (picker_selection (fun _ => true)
                         [Scenario.deployment "id0";
                          Scenario.deployment "id1"]))).
  intros n. reflexivity.
Defined.

(* ===================================================================== *)
(** ** [lib/wrangler-wrapper.ts] *)
(* ===================================================================== *)

Module Wrangler.

(** [s.startsWith(p)] and [s.includes(p)], on code units. *)
Fixpoint startsWith (p s : jsstring) : bool :=
  match p, s with
  | [], _ => true
  | a :: p', c :: s' => (a =? c)%N && startsWith p' s'
  | _ :: _, [] => false
  end.

Fixpoint includes (p s : jsstring) : bool :=
  startsWith p s
  || match s with
     | [] => false
     | _ :: s' => includes p s'
     end.

(** [s.trim()]: white space and line terminators are removed at both
    ends. *)
Definition trim (s : jsstring) : jsstring :=
  rev (dropWhile isSpace (rev (dropWhile isSpace s))).

(** What [.] matches in a regular expression without the [s] flag: anything
    but a line terminator. *)
Definition notLineTerminator (c : codeunit) : bool :=
  negb ((c =? 10) || (c =? 13) || (c =? 8232) || (c =? 8233))%N.

(** [errorMessage.match(/Error: (.+)/)], its first group: the search goes
    from left to right for the literal followed by at least one character of
    the same line, and the group takes the rest of that line. *)
Fixpoint firstErrorLine (s : jsstring) : option jsstring :=
  match s with
  | [] => None
  | _ :: s' =>
      if startsWith (lit "Error: ") s then
        match takeWhile notLineTerminator (skipn 7 s) with
        | [] => firstErrorLine s'
        | m => Some m
        end
      else firstErrorLine s'
  end.

(** The regular expression matches at the very start of [s]: the literal,
    then at least one character of the same line. *)
Definition errorLineHere (s : jsstring) : bool :=
  startsWith (lit "Error: ") s
  && match skipn 7 s with
     | c :: _ => notLineTerminator c
     | [] => false
     end.

(** [s] is at the end of a line: it is empty or starts with a line
    terminator. *)
Definition lineEnds (s : jsstring) : bool :=
  match s with
  | [] => true
  | c :: _ => negb (notLineTerminator c)
  end.

Record WranglerConfig := mkWranglerConfig {
  apiToken : jsstring;
  accountId : jsstring
}.

(** A call of [execAsync]: the command line, and the two variables the
    wrapper adds to the environment. *)
Record ShellCall := mkShellCall {
  command : jsstring;
  envToken : jsstring;
  envAccount : jsstring
}.

(** What [execAsync] does: it resolves with the two outputs, or rejects;
    [errorText] is what the [catch] block reads off the rejection,
    [error.message] or [String(error)]. *)
Inductive ExecResult :=
| ExecResolves (stdout stderr : jsstring)
| ExecRejects (errorText : jsstring).

Inductive ShellEvent :=
| ShExec (call : ShellCall)
| ShProgress (completed total : nat) (ident : jsstring).

(** The shell answers the [n]-th command of the run as it likes. *)
Record Shell := mkShell {
  shell : nat -> ShellCall -> ExecResult;
  runs : nat;
  shLog : list ShellEvent
}.

(** How a call of [deleteVersion] ends: every throw is of a new [Error]. *)
Inductive Ended :=
| Returned
| ThrewError (message : jsstring).

(** The [catch] block of [deleteVersion]. *)
Definition failureMessage (errorMessage : jsstring) : jsstring :=
  if includes (lit "Error:") errorMessage then
    match firstErrorLine errorMessage with
    | Some m => m
    | None => errorMessage
    end
  else lit "Failed to delete version using wrangler: " ++ errorMessage.

Definition commandFor (config : WranglerConfig)
           (scriptName versionId : jsstring) : jsstring :=
  lit "npx -y wrangler@latest versions delete " ++ scriptName ++ lit " "
    ++ versionId ++ lit " --account-id " ++ accountId config.

Section WithLowerCase.

(** [String.prototype.toLowerCase], a built-in that depends on the Unicode
    tables of the engine. *)
Variable toLowerCase : jsstring -> jsstring.

(** The two nested conditions on [stderr]. *)
Definition stderrIsFatal (stderr : jsstring) : bool :=
  match stderr with
  | [] => false
  | _ =>
      negb (includes (lit "warning") stderr)
      && negb (includes (lit "WARN") stderr)
      && (negb (includes (lit "warn") (toLowerCase stderr))
          && (0 <? length (trim stderr)))
  end.

(** [deleteVersion(scriptName, versionId)]. *)
Definition deleteVersion (config : WranglerConfig)
           (scriptName versionId : jsstring) (w : Shell) : Ended * Shell :=
  let call := mkShellCall (commandFor config scriptName versionId)
                          (apiToken config) (accountId config) in
  let w' := mkShell (shell w) (S (runs w)) (shLog w ++ [ShExec call]) in
  match shell w (runs w) call with
  | ExecResolves _ stderr =>
      if stderrIsFatal stderr then (ThrewError (failureMessage stderr), w')
      else (Returned, w')
  | ExecRejects errorText => (ThrewError (failureMessage errorText), w')
  end.

(** The loop of [deleteVersions], from index [i] on. *)
Fixpoint versionsLoop (config : WranglerConfig) (scriptName : jsstring)
         (onProgress : bool) (total i : nat) (ids : list jsstring)
         (acc : BatchResult) (w : Shell) : BatchResult * Shell :=
  match ids with
  | [] => (acc, w)
  | ident :: rest =>
      match deleteVersion config scriptName ident w with
      | (Returned, w1) =>
          let w2 := if onProgress
                    then mkShell (shell w1) (runs w1)
                                 (shLog w1 ++ [ShProgress (i + 1) total ident])
                    else w1 in
          versionsLoop config scriptName onProgress total (S i) rest
                       (mkBatch (success acc ++ [ident]) (failed acc)) w2
      | (ThrewError errorMessage, w1) =>
          versionsLoop config scriptName onProgress total (S i) rest
                       (mkBatch (success acc)
                                (failed acc ++ [(ident, errorMessage)])) w1
      end
  end.

(** [deleteVersions(scriptName, versionIds, onProgress)]. *)
Definition deleteVersions (config : WranglerConfig) (scriptName : jsstring)
           (versionIds : list jsstring) (onProgress : bool) (w : Shell) :
  BatchResult * Shell :=
  versionsLoop config scriptName onProgress (length versionIds) 0 versionIds
               (mkBatch [] []) w.

End WithLowerCase.

(** Lower case of the ASCII letters, for examples. *)
Definition asciiLower (s : jsstring) : jsstring :=
  List.map (fun c => if ((65 <=? c) && (c <=? 90))%N then (c + 32)%N else c) s.

End Wrangler.

(* --------------------------------------------------------------------- *)
(** *** Properties of the wrapper *)

Lemma startsWith_split p : forall s,
  Wrangler.startsWith p s = true -> s = p ++ skipn (length p) s.
Proof.
  induction p as [|a p IH]; intros s H; [reflexivity|].
  destruct s as [|c s]; [discriminate|]. cbn in H.
  apply andb_prop in H. destruct H as [Hac Hp]. apply N.eqb_eq in Hac. subst c.
  cbn. f_equal. apply IH. exact Hp.
Qed.

Lemma startsWith_prefix p q : forall s,
  Wrangler.startsWith (p ++ q) s = true -> Wrangler.startsWith p s = true.
Proof.
  induction p as [|a p IH]; intros s H; [reflexivity|].
  destruct s as [|c s]; [discriminate|]. cbn in *.
  apply andb_prop in H. destruct H as [Hac Hp]. rewrite Hac. cbn.
  apply IH. exact Hp.
Qed.

Lemma includes_here p s :
  Wrangler.startsWith p s = true -> Wrangler.includes p s = true.
Proof. intros H. destruct s; cbn [Wrangler.includes]; rewrite H; reflexivity. Qed.

Lemma includes_later p c s :
  Wrangler.includes p s = true -> Wrangler.includes p (c :: s) = true.
Proof. intros H. cbn [Wrangler.includes]. rewrite H. apply orb_true_r. Qed.

Lemma includes_nil_r p : p <> [] -> Wrangler.includes p [] = false.
Proof. destruct p; [congruence|reflexivity]. Qed.

Lemma takeWhile_forallb f s : forallb f (takeWhile f s) = true.
Proof.
  induction s as [|c s IH]; [reflexivity|]. cbn.
  destruct (f c) eqn:E; [cbn; rewrite E; exact IH|reflexivity].
Qed.

Lemma takeWhile_dropWhile f s : takeWhile f s ++ dropWhile f s = s.
Proof.
  induction s as [|c s IH]; [reflexivity|]. cbn.
  destruct (f c); [cbn; rewrite IH|]; reflexivity.
Qed.

Lemma firstErrorLine_spec s : forall m,
  Wrangler.firstErrorLine s = Some m ->
  m <> [] /\ forallb Wrangler.notLineTerminator m = true
  /\ Wrangler.includes (lit "Error:") s = true
  /\ exists pre post, s = pre ++ lit "Error: " ++ m ++ post.
Proof.
  induction s as [|c s IH]; intros m H; [discriminate|].
  assert (Hrec : Wrangler.firstErrorLine s = Some m ->
                 m <> [] /\ forallb Wrangler.notLineTerminator m = true
                 /\ Wrangler.includes (lit "Error:") (c :: s) = true
                 /\ exists pre post, c :: s = pre ++ lit "Error: " ++ m ++ post).
  { intros H'. destruct (IH _ H') as (Hne & Hall & Hinc & pre & post & Hs).
    split; [exact Hne|]. split; [exact Hall|].
    split; [apply includes_later; exact Hinc|].
    exists (c :: pre), post. rewrite Hs. reflexivity. }
  cbn [Wrangler.firstErrorLine] in H.
  destruct (Wrangler.startsWith (lit "Error: ") (c :: s)) eqn:Est; [|auto].
  destruct (takeWhile Wrangler.notLineTerminator (skipn 7 (c :: s)))
    as [|m0 ms] eqn:Etw; [auto|].
  inversion H; subst m. split; [discriminate|].
  split; [rewrite <- Etw; apply takeWhile_forallb|]. split.
  - apply includes_here.
    apply (startsWith_prefix (lit "Error:") (lit " ")). exact Est.
  - exists [], (dropWhile Wrangler.notLineTerminator (skipn 7 (c :: s))).
    change (c :: s = lit "Error: " ++ (m0 :: ms)
                       ++ dropWhile Wrangler.notLineTerminator (skipn 7 (c :: s))).
    rewrite <- Etw, takeWhile_dropWhile. exact (startsWith_split _ _ Est).
Qed.

Lemma wrangler_failure_message_nonempty errorMessage :
  Wrangler.failureMessage errorMessage <> [].
Proof.
  unfold Wrangler.failureMessage.
  destruct (Wrangler.includes (lit "Error:") errorMessage) eqn:Einc;
    [|discriminate].
  destruct (Wrangler.firstErrorLine errorMessage) as [m|] eqn:Ef.
  - apply (firstErrorLine_spec _ _ Ef).
  - intros ->. cbn in Einc. discriminate.
Qed.

Lemma firstErrorLine_here s :
  Wrangler.errorLineHere s = true ->
  Wrangler.firstErrorLine s
  = Some (takeWhile Wrangler.notLineTerminator (skipn 7 s)).
Proof.
  unfold Wrangler.errorLineHere. intros H. apply andb_prop in H.
  destruct H as [Hst Hc].
  destruct s as [|c s]; [discriminate|].
  cbn [Wrangler.firstErrorLine]. rewrite Hst.
  destruct (skipn 7 (c :: s)) as [|c' t]; [discriminate|].
  cbn [takeWhile]. rewrite Hc. reflexivity.
Qed.

Lemma firstErrorLine_skip c s :
  Wrangler.errorLineHere (c :: s) = false ->
  Wrangler.firstErrorLine (c :: s) = Wrangler.firstErrorLine s.
Proof.
  unfold Wrangler.errorLineHere. intros H.
  cbn [Wrangler.firstErrorLine].
  destruct (Wrangler.startsWith (lit "Error: ") (c :: s)); [|reflexivity].
  cbn [andb] in H.
  destruct (skipn 7 (c :: s)) as [|c' t]; [reflexivity|].
  cbn [takeWhile]. rewrite H. reflexivity.
Qed.

Lemma startsWith_app p s : Wrangler.startsWith p (p ++ s) = true.
Proof.
  induction p as [|a p IH]; [reflexivity|]. cbn.
  rewrite N.eqb_refl. exact IH.
Qed.

Lemma includes_app p pre s : Wrangler.includes p (pre ++ p ++ s) = true.
Proof.
  induction pre as [|c pre IH].
  - cbn [app]. apply includes_here, startsWith_app.
  - cbn [app]. apply includes_later. exact IH.
Qed.

Lemma takeWhile_line m post :
  forallb Wrangler.notLineTerminator m = true ->
  Wrangler.lineEnds post = true ->
  takeWhile Wrangler.notLineTerminator (m ++ post) = m.
Proof.
  intros Hm Hpost. induction m as [|c m IH].
  - destruct post as [|c post]; [reflexivity|]. cbn in *.
    destruct (Wrangler.notLineTerminator c); [discriminate|reflexivity].
  - cbn in *. apply andb_prop in Hm. destruct Hm as [Hc Hm].
    rewrite Hc, IH by exact Hm. reflexivity.
Qed.

Lemma dropWhile_line s :
  Wrangler.lineEnds (dropWhile Wrangler.notLineTerminator s) = true.
Proof.
  induction s as [|c s IH]; [reflexivity|]. cbn [dropWhile].
  destruct (Wrangler.notLineTerminator c) eqn:E; [exact IH|].
  cbn. rewrite E. reflexivity.
Qed.

(** The group is the rest of the line after the first place where the
    expression matches. *)
Lemma firstErrorLine_first pre : forall s m post,
  s = pre ++ lit "Error: " ++ m ++ post ->
  m <> [] -> forallb Wrangler.notLineTerminator m = true ->
  Wrangler.lineEnds post = true ->
  (forall k, k < length pre -> Wrangler.errorLineHere (skipn k s) = false) ->
  Wrangler.firstErrorLine s = Some m.
Proof.
  induction pre as [|c pre IH]; intros s m post Hs Hne Hm Hpost Hfirst.
  - cbn [app] in Hs. rewrite firstErrorLine_here.
    + subst s. change (skipn 7 (lit "Error: " ++ m ++ post)) with (m ++ post).
      rewrite takeWhile_line by assumption. reflexivity.
    + subst s. unfold Wrangler.errorLineHere. rewrite startsWith_app.
      change (skipn 7 (lit "Error: " ++ m ++ post)) with (m ++ post).
      destruct m as [|c m]; [congruence|]. cbn in *.
      apply andb_prop in Hm. apply Hm.
  - subst s. cbn [app].
    rewrite firstErrorLine_skip
      by (apply (Hfirst 0); cbn [length]; lia).
    apply (IH _ m post eq_refl Hne Hm Hpost).
    intros k Hk. apply (Hfirst (S k)). cbn [length]. lia.
Qed.

(** What [firstErrorLine] finds, and where. *)
Lemma firstErrorLine_place s :
  match Wrangler.firstErrorLine s with
  | Some m =>
      exists pre post,
        s = pre ++ lit "Error: " ++ m ++ post
        /\ m <> [] /\ forallb Wrangler.notLineTerminator m = true
        /\ Wrangler.lineEnds post = true
        /\ forall k, k < length pre ->
                     Wrangler.errorLineHere (skipn k s) = false
  | None => forall k, Wrangler.errorLineHere (skipn k s) = false
  end.
Proof.
  induction s as [|c s IH].
  - cbn. intros [|k]; reflexivity.
  - destruct (Wrangler.errorLineHere (c :: s)) eqn:Ehere.
    + rewrite (firstErrorLine_here _ Ehere).
      exists [], (dropWhile Wrangler.notLineTerminator (skipn 7 (c :: s))).
      unfold Wrangler.errorLineHere in Ehere. apply andb_prop in Ehere.
      destruct Ehere as [Hst Hc].
      split; [|split; [|split; [|split]]].
      * cbn [app]. rewrite takeWhile_dropWhile.
        exact (startsWith_split _ _ Hst).
      * destruct (skipn 7 (c :: s)) as [|c' t]; [discriminate|].
        cbn [takeWhile]. rewrite Hc. discriminate.
      * apply takeWhile_forallb.
      * apply dropWhile_line.
      * intros k Hk. cbn in Hk. lia.
    + rewrite (firstErrorLine_skip _ _ Ehere).
      destruct (Wrangler.firstErrorLine s) as [m|].
      * destruct IH as (pre & post & Hs & Hne & Hm & Hpost & Hfirst).
        exists (c :: pre), post. split; [cbn [app]; rewrite <- Hs; reflexivity|].
        split; [exact Hne|]. split; [exact Hm|]. split; [exact Hpost|].
        intros [|k] Hk; [exact Ehere|]. cbn [skipn]. apply Hfirst.
        cbn [length] in Hk. lia.
      * intros [|k]; [exact Ehere|]. cbn [skipn]. apply IH.
Qed.

(** X19.  The message [deleteVersion] throws is never empty.  An error
    text without the word Error followed by a colon is reported whole, after
    a fixed prefix.  A text holding that word is searched for the first
    place where Error, a colon and a space are followed by at least one
    character of the same line: the report is the whole rest of that line,
    from after the space to the line terminator or the end of the text, and
    nothing else; every text with such a place gets this report, and one
    that holds the word but no such place is reported whole, without
    prefix. *)
Theorem wrangler_failure_message errorMessage :
  Wrangler.failureMessage errorMessage <> []
  /\ (Wrangler.includes (lit "Error:") errorMessage = false ->
      Wrangler.failureMessage errorMessage
      = lit "Failed to delete version using wrangler: " ++ errorMessage)
  /\ (forall pre m post,
         errorMessage = pre ++ lit "Error: " ++ m ++ post ->
         m <> [] ->
         forallb Wrangler.notLineTerminator m = true ->
         Wrangler.lineEnds post = true ->
         (forall k, k < length pre ->
                    Wrangler.errorLineHere (skipn k errorMessage) = false) ->
         Wrangler.failureMessage errorMessage = m)
  /\ (Wrangler.includes (lit "Error:") errorMessage = true ->
      (forall k, Wrangler.errorLineHere (skipn k errorMessage) = false) ->
      Wrangler.failureMessage errorMessage = errorMessage)
  /\ (Wrangler.includes (lit "Error:") errorMessage = true ->
      (exists pre m post,
          errorMessage = pre ++ lit "Error: " ++ m ++ post
          /\ m <> []
          /\ forallb Wrangler.notLineTerminator m = true
          /\ Wrangler.lineEnds post = true
          /\ (forall k, k < length pre ->
                        Wrangler.errorLineHere (skipn k errorMessage) = false))
      \/ (forall k, Wrangler.errorLineHere (skipn k errorMessage) = false)).
Proof.
  split; [apply wrangler_failure_message_nonempty|].
  unfold Wrangler.failureMessage. split; [|split; [|split]].
  - intros ->. reflexivity.
  - intros pre m post Hs Hne Hm Hpost Hfirst.
    rewrite (firstErrorLine_first pre _ m post Hs Hne Hm Hpost Hfirst).
    rewrite Hs.
    change (lit "Error: " ++ m ++ post)
      with (lit "Error:" ++ lit " " ++ m ++ post).
    rewrite includes_app. reflexivity.
  - intros Hinc Hnone. rewrite Hinc.
    pose proof (firstErrorLine_place errorMessage) as Hplace.
    destruct (Wrangler.firstErrorLine errorMessage) as [m|]; [|reflexivity].
    destruct Hplace as (pre & post & Hs & Hne & Hm & _).
    exfalso. specialize (Hnone (length pre)).
    rewrite Hs, skipn_app, skipn_all, Nat.sub_diag in Hnone.
    cbn [skipn app] in Hnone. unfold Wrangler.errorLineHere in Hnone.
    rewrite startsWith_app in Hnone.
    change (skipn 7 (lit "Error: " ++ m ++ post)) with (m ++ post) in Hnone.
    destruct m as [|c m]; [congruence|]. cbn in Hnone, Hm.
    apply andb_prop in Hm. destruct Hm as [Hc _]. congruence.
  - intros _. pose proof (firstErrorLine_place errorMessage) as Hplace.
    destruct (Wrangler.firstErrorLine errorMessage) as [m|].
    + left. destruct Hplace as (pre & post & H). exists pre, m, post. exact H.
    + right. exact Hplace.
Qed.

Lemma wrangler_failure_message_witness :
  Wrangler.failureMessage
    (lit "Error:" ++ [10%N] ++ lit "Error: " ++ [10%N]
       ++ lit "X Error: version not found" ++ [10%N] ++ lit "Error: late")
  = lit "version not found".
Proof.
  apply (proj1 (proj2 (proj2 (wrangler_failure_message
           (lit "Error:" ++ [10%N] ++ lit "Error: " ++ [10%N]
              ++ lit "X Error: version not found" ++ [10%N]
              ++ lit "Error: late"))))
           (lit "Error:" ++ [10%N] ++ lit "Error: " ++ [10%N] ++ lit "X ")
           (lit "version not found")
           ([10%N] ++ lit "Error: late")).
  - reflexivity.
  - discriminate.
  - reflexivity.
  - reflexivity.
  - intros k Hk.
    do 17 (destruct k as [|k]; [vm_compute; reflexivity|]).
    exfalso. simpl in Hk. lia.
Defined.

(** X20.  When the command exits normally, [deleteVersion] returns unless
    the error output is fatal: it tolerates an empty or blank error output,
    and any error output that holds the word warning, the word WARN, or warn
    in any letter case after lowering; any other error output makes it throw,
    with the message the [catch] block makes of that output.  The standard
    output is never looked at. *)
Theorem wrangler_tolerates_warnings toLowerCase config scriptName versionId w
        stdout stderr :
  Wrangler.shell w (Wrangler.runs w)
    (Wrangler.mkShellCall (Wrangler.commandFor config scriptName versionId)
                          (Wrangler.apiToken config) (Wrangler.accountId config))
    = Wrangler.ExecResolves stdout stderr ->
  let tolerated :=
    stderr = [] \/ Wrangler.trim stderr = []
    \/ Wrangler.includes (lit "warning") stderr = true
    \/ Wrangler.includes (lit "WARN") stderr = true
    \/ Wrangler.includes (lit "warn") (toLowerCase stderr) = true in
  (tolerated ->
   fst (Wrangler.deleteVersion toLowerCase config scriptName versionId w)
     = Wrangler.Returned)
  /\ (~ tolerated ->
      fst (Wrangler.deleteVersion toLowerCase config scriptName versionId w)
        = Wrangler.ThrewError (Wrangler.failureMessage stderr)).
Proof.
  intros Hexec tolerated. unfold Wrangler.deleteVersion. rewrite Hexec.
  unfold Wrangler.stderrIsFatal, tolerated.
  destruct stderr as [|c stderr]; [split; [reflexivity|tauto]|].
  set (e := c :: stderr).
  destruct (Wrangler.includes (lit "warning") e) eqn:E1;
    [split; [reflexivity|tauto]|].
  destruct (Wrangler.includes (lit "WARN") e) eqn:E2;
    [split; [reflexivity|tauto]|].
  destruct (Wrangler.includes (lit "warn") (toLowerCase e)) eqn:E3;
    [split; [reflexivity|tauto]|].
  cbn [negb andb].
  destruct (Wrangler.trim e) as [|t ts] eqn:E4.
  - split; [reflexivity|tauto].
  - cbn [length Nat.ltb Nat.leb]. split; [|reflexivity].
    intros [H|[H|[H|[H|H]]]]; discriminate.
Qed.

Lemma wrangler_tolerates_warnings_witness :
  fst (Wrangler.deleteVersion Wrangler.asciiLower
         (Wrangler.mkWranglerConfig (lit "s3cr3t") (lit "acc"))
         (lit "worker") (lit "v1")
         (Wrangler.mkShell
            (fun _ _ => Wrangler.ExecResolves (lit "done")
                          (lit "Warning: wrangler is out of date"))
            0 []))
  = Wrangler.Returned.
Proof.
  refine (proj1 (wrangler_tolerates_warnings Wrangler.asciiLower
                   (Wrangler.mkWranglerConfig (lit "s3cr3t") (lit "acc"))
                   (lit "worker") (lit "v1")
                   (Wrangler.mkShell
                      (fun _ _ => Wrangler.ExecResolves (lit "done")
                                    (lit "Warning: wrangler is out of date"))
                      0 [])
                   (lit "done") (lit "Warning: wrangler is out of date")
                   eq_refl) _).
  right. right. right. right. vm_compute. reflexivity.
Defined.

(** The commands among some events of the shell, in order. *)
Definition execs (evs : list Wrangler.ShellEvent) : list Wrangler.ShellCall :=
  flat_map (fun e => match e with
                     | Wrangler.ShExec call => [call]
                     | _ => []
                     end) evs.

(** The identifiers the callback was called with, in order. *)
Definition notified (evs : list Wrangler.ShellEvent) : list jsstring :=
  flat_map (fun e => match e with
                     | Wrangler.ShProgress _ _ ident => [ident]
                     | _ => []
                     end) evs.

(** The call [deleteVersion] makes for an identifier. *)
Definition callFor (config : Wrangler.WranglerConfig)
           (scriptName versionId : jsstring) : Wrangler.ShellCall :=
  Wrangler.mkShellCall (Wrangler.commandFor config scriptName versionId)
                       (Wrangler.apiToken config) (Wrangler.accountId config).

Lemma wrangler_deleteVersion_run toLowerCase config scriptName versionId w :
  snd (Wrangler.deleteVersion toLowerCase config scriptName versionId w)
  = Wrangler.mkShell (Wrangler.shell w) (S (Wrangler.runs w))
      (Wrangler.shLog w ++ [Wrangler.ShExec (callFor config scriptName versionId)])
  /\ forall m,
      fst (Wrangler.deleteVersion toLowerCase config scriptName versionId w)
        = Wrangler.ThrewError m -> m <> [].
Proof.
  unfold Wrangler.deleteVersion. fold (callFor config scriptName versionId).
  destruct (Wrangler.shell w (Wrangler.runs w) _) as [out err|text].
  - destruct (Wrangler.stderrIsFatal toLowerCase err);
      (split; [reflexivity|]); intros m H; inversion H; subst.
    apply wrangler_failure_message_nonempty.
  - split; [reflexivity|]. intros m H. inversion H; subst.
    apply wrangler_failure_message_nonempty.
Qed.

Lemma versionsLoop_spec toLowerCase config scriptName onProgress total :
  forall ids i acc w,
    let run := Wrangler.versionsLoop toLowerCase config scriptName onProgress
                                     total i ids acc w in
    exists oks bads evs,
      success (fst run) = success acc ++ oks
      /\ failed (fst run) = failed acc ++ bads
      /\ Permutation ids (oks ++ List.map fst bads)
      /\ subseq oks ids /\ subseq (List.map fst bads) ids
      /\ Forall (fun p => snd p <> []) bads
      /\ Wrangler.shLog (snd run) = Wrangler.shLog w ++ evs
      /\ execs evs = List.map (callFor config scriptName) ids
      /\ notified evs = (if onProgress then oks else [])
      /\ Wrangler.runs (snd run) = Wrangler.runs w + length ids.
Proof.
  induction ids as [|ident rest IH]; intros i acc w run.
  - exists [], [], []. subst run. cbn. rewrite !app_nil_r, Nat.add_0_r.
    repeat split; try constructor. destruct onProgress; reflexivity.
  - subst run. cbn [Wrangler.versionsLoop].
    destruct (wrangler_deleteVersion_run toLowerCase config scriptName ident w)
      as [Hw Hne].
    destruct (Wrangler.deleteVersion toLowerCase config scriptName ident w)
      as [[|m] w1] eqn:Edel; cbn [fst snd] in Hw, Hne; subst w1.
    + assert (Hstep : forall w2 pre,
                 Wrangler.shLog w2 = Wrangler.shLog w ++ pre ->
                 Wrangler.runs w2 = S (Wrangler.runs w) ->
                 execs pre = [callFor config scriptName ident] ->
                 notified pre = (if onProgress then [ident] else []) ->
                 let run := Wrangler.versionsLoop toLowerCase config scriptName
                              onProgress total (S i) rest
                              (mkBatch (success acc ++ [ident]) (failed acc))
                              w2 in
                 exists oks bads evs,
                   success (fst run) = success acc ++ oks
                   /\ failed (fst run) = failed acc ++ bads
                   /\ Permutation (ident :: rest) (oks ++ List.map fst bads)
                   /\ subseq oks (ident :: rest)
                   /\ subseq (List.map fst bads) (ident :: rest)
                   /\ Forall (fun p => snd p <> []) bads
                   /\ Wrangler.shLog (snd run) = Wrangler.shLog w ++ evs
                   /\ execs evs
                      = List.map (callFor config scriptName) (ident :: rest)
                   /\ notified evs = (if onProgress then oks else [])
                   /\ Wrangler.runs (snd run)
                      = Wrangler.runs w + length (ident :: rest)).
      { intros w2 pre Hl2 Hr2 Hex2 Hno2 run.
        destruct (IH (S i) (mkBatch (success acc ++ [ident]) (failed acc)) w2)
          as (oks & bads & evs & Hs & Hf & Hperm & Hso & Hsb & Hall & Hlog
              & Hex & Hno & Hruns).
        fold run in Hs, Hf, Hlog, Hruns. cbn [success failed] in Hs, Hf.
        exists (ident :: oks), bads, (pre ++ evs).
        rewrite Hs, Hf, Hlog, Hruns, Hl2, Hr2, <- !app_assoc.
        split; [reflexivity|]. split; [reflexivity|].
        split; [cbn; constructor; exact Hperm|].
        split; [constructor; exact Hso|]. split; [constructor; exact Hsb|].
        split; [exact Hall|]. split; [reflexivity|].
        unfold execs, notified in *. rewrite !flat_map_app, Hex2, Hno2, Hex, Hno.
        split; [reflexivity|]. split; [destruct onProgress; reflexivity|].
        cbn [length]. lia. }
      destruct onProgress.
      * eapply Hstep; cbn [Wrangler.shLog Wrangler.runs];
          [rewrite <- app_assoc; reflexivity|reflexivity|reflexivity
          |reflexivity].
      * eapply Hstep; cbn [Wrangler.shLog Wrangler.runs];
          [reflexivity|reflexivity|reflexivity|reflexivity].
    + destruct (IH (S i) (mkBatch (success acc)
                                  (failed acc ++ [(ident, m)]))
                   (Wrangler.mkShell (Wrangler.shell w) (S (Wrangler.runs w))
                      (Wrangler.shLog w
                         ++ [Wrangler.ShExec (callFor config scriptName ident)])))
        as (oks & bads & evs & Hs & Hf & Hperm & Hso & Hsb & Hall & Hlog
            & Hex & Hno & Hruns).
      cbn [success failed Wrangler.shLog Wrangler.runs] in Hs, Hf, Hlog, Hruns.
      exists oks, ((ident, m) :: bads),
        (Wrangler.ShExec (callFor config scriptName ident) :: evs).
      rewrite Hs, Hf, Hlog, Hruns, <- !app_assoc.
      split; [reflexivity|]. split; [reflexivity|].
      split; [cbn; apply Permutation_cons_app; exact Hperm|].
      split; [constructor; exact Hso|].
      split; [cbn; constructor; exact Hsb|].
      split; [constructor; [apply Hne; reflexivity|exact Hall]|].
      split; [reflexivity|].
      cbn [execs notified flat_map app List.map length].
      fold (execs evs). fold (notified evs). rewrite Hex, Hno.
      split; [reflexivity|]. split; [reflexivity|lia].
Qed.

(** X21.  [deleteVersions] of the wrapper runs exactly one command per
    identifier, in the order of the input and whatever the outcome: there is
    no retry and no pause.  Each command is the wrangler command for that
    identifier, with the token passed in the environment and not on the
    command line.  The report is a rearrangement of the input that keeps its
    order in both lists, no message in it is empty, and the callback, when
    there is one, is called once for each succeeded identifier, in order. *)
Theorem wrangler_batch toLowerCase config scriptName versionIds onProgress w :
  let run := Wrangler.deleteVersions toLowerCase config scriptName versionIds
                                     onProgress w in
  Permutation versionIds (success (fst run) ++ failedIds (fst run))
  /\ subseq (success (fst run)) versionIds
  /\ subseq (failedIds (fst run)) versionIds
  /\ Forall (fun p => snd p <> []) (failed (fst run))
  /\ Wrangler.runs (snd run) = Wrangler.runs w + length versionIds
  /\ exists evs,
      Wrangler.shLog (snd run) = Wrangler.shLog w ++ evs
      /\ execs evs
         = List.map (fun ident =>
                       Wrangler.mkShellCall
                         (lit "npx -y wrangler@latest versions delete "
                            ++ scriptName ++ lit " " ++ ident
                            ++ lit " --account-id " ++ Wrangler.accountId config)
                         (Wrangler.apiToken config) (Wrangler.accountId config))
                    versionIds
      /\ notified evs = (if onProgress then success (fst run) else []).
Proof.
  intros run.
  destruct (versionsLoop_spec toLowerCase config scriptName onProgress
              (length versionIds) versionIds 0 (mkBatch [] []) w)
    as (oks & bads & evs & Hs & Hf & Hperm & Hso & Hsb & Hall & Hlog & Hex
        & Hno & Hruns).
  fold (Wrangler.deleteVersions toLowerCase config scriptName versionIds
          onProgress w) in *. fold run in Hs, Hf, Hlog, Hruns.
  cbn [success failed app] in Hs, Hf. unfold failedIds. rewrite Hs, Hf.
  repeat (split; [assumption|]).
  exists evs. split; [exact Hlog|]. split; [exact Hex|exact Hno].
Qed.

(* ===================================================================== *)
(** ** From the [Retry-After] header to the pause *)
(* ===================================================================== *)

(** X22.  The pause the engine takes on a 429, read off the [Retry-After]
    header, as the timer takes it.  A header made of decimal digits of value
    [n] gives [n] seconds when [n] is from 1 to 2147483, 60 seconds when [n]
    is zero, and one millisecond when [n] is larger: the product, exact,
    rounded or infinite, is more than [2^31 - 1].  A missing or empty header
    and a header that does not start with white space, a sign or a digit (an
    HTTP date for instance) give 60 seconds.  The pause is never less than a
    millisecond nor more than [2^31 - 1] milliseconds. *)
Theorem retry_after_pause :
  (forall ds, ds <> [] -> forallb isDigit ds = true ->
              timeoutOf (waitTime (retryAfterOf (Some ds)))
              = if (digitsValue 0 ds =? 0)%Z then 60000%Z
                else if (digitsValue 0 ds <=? 2147483)%Z
                     then (digitsValue 0 ds * 1000)%Z
                     else 1%Z)
  /\ timeoutOf (waitTime (retryAfterOf None)) = 60000%Z
  /\ timeoutOf (waitTime (retryAfterOf (Some []))) = 60000%Z
  /\ (forall c h, isSpace c = false -> c <> 45%N -> c <> 43%N ->
                  isDigit c = false ->
                  timeoutOf (waitTime (retryAfterOf (Some (c :: h)))) = 60000%Z)
  /\ (forall header,
         (1 <= timeoutOf (waitTime (retryAfterOf header)) <= 2147483647)%Z).
Proof.
  destruct pause_cases as (Hsec & Hbig & Hinf & _ & _ & Hzero).
  split; [|split; [|split; [|split]]]; try reflexivity.
  - intros ds Hne Hd.
    assert (E : retryAfterOf (Some ds) = Some (toDouble (digitsValue 0 ds))).
    { destruct ds as [|c ds]; [congruence|]. cbn [retryAfterOf].
      rewrite parseInt_digits; [reflexivity|discriminate|exact Hd]. }
    rewrite E.
    pose proof (digitsValue_nonneg ds 0 Hd ltac:(lia)) as Hn.
    set (n := digitsValue 0 ds) in *.
    destruct (Z.eqb_spec n 0) as [->|Hn0]; [exact Hzero|].
    destruct (Z.leb_spec n 2147483) as [Hle|Hgt].
    + rewrite toDouble_small by lia. apply Hsec. lia.
    + destruct (Z.lt_ge_cases n 9007199254740992) as [Hlt|Hge].
      * rewrite toDouble_small by lia. apply Hbig. lia.
      * destruct (toDouble_big n ltac:(lia)) as [Ei|(v & Hv & Ei)]; rewrite Ei.
        -- apply Hinf.
        -- destruct (Z.ltb_spec n 0); [lia|]. apply Hbig. lia.
  - intros c h Hsp H45 H43 Hd. cbn [retryAfterOf].
    rewrite parseInt_no_number by assumption. reflexivity.
  - intros header. apply timeoutOf_range.
Qed.

Lemma retry_after_pause_witness :
  timeoutOf (waitTime (retryAfterOf (Some (lit "120")))) = 120000%Z
  /\ timeoutOf (waitTime (retryAfterOf (Some (lit "3000000")))) = 1%Z
  /\ timeoutOf (waitTime (retryAfterOf (Some (lit "9007199254740993")))) = 1%Z
  /\ timeoutOf (waitTime
                  (retryAfterOf (Some (lit "Wed, 21 Oct 2015 07:28:00 GMT"))))
     = 60000%Z.
Proof.
  split; [|split; [|split]].
  - apply (proj1 retry_after_pause (lit "120")).
    + discriminate.
    + reflexivity.
  - apply (proj1 retry_after_pause (lit "3000000")).
    + discriminate.
    + reflexivity.
  - apply (proj1 retry_after_pause (lit "9007199254740993")).
    + discriminate.
    + reflexivity.
  - apply (proj1 (proj2 (proj2 (proj2 retry_after_pause)))
             87%N (lit "ed, 21 Oct 2015 07:28:00 GMT")).
    + reflexivity.
    + discriminate.
    + discriminate.
    + reflexivity.
Defined.
